(** * RawMusic: the AI playlist pipeline, embedded and verified

    A shallow embedding of the request lifecycle model
    ([models/AIRequest.js]) and of the generation controller
    ([controllers/aiController.js]), followed by the properties of the
    design document that concern them.

    Conventions.
    - A JavaScript string is modelled as a [string] whose characters are
      the code units U+0000..U+00FF; on that alphabet [toLowerCase], [\w],
      [\s] and [trim] are the tables written out below.
    - [Date.now()] readings are explicit arguments (milliseconds).
    - A Mongoose document is the record of its schema paths together with
      the set of paths modified since the last save; [save] validates the
      modified paths, runs the pre-save hook and writes the persisted copy.
    - What a generation attempt takes from outside (the answer of the
      generative model, the catalog, the rearrangement the shuffle draws,
      the regular-expression engine, the clock) is collected in [Env]. *)

From Stdlib Require Import ZArith NArith List Bool Ascii String Lia Permutation Sorted RelationClasses.
Import ListNotations.
Open Scope string_scope.
#[local] Set Warnings "-register-all".

(* ------------------------------------------------------------------ *)
(** ** JavaScript strings *)

Module JS.

Definition code (c : ascii) : N := N_of_ascii c.

Definition between (lo hi : N) (c : ascii) : bool :=
  (lo <=? code c)%N && (code c <=? hi)%N.

(** [\w] without the unicode flag: [A-Za-z0-9_]. *)
Definition isWordChar (c : ascii) : bool :=
  between 65 90 c || between 97 122 c || between 48 57 c || (code c =? 95)%N.

(** [\s], which is also what [trim] strips: TAB, LF, VT, FF, CR, SP, NBSP
    (the members of WhiteSpace and LineTerminator below U+0100). *)
Definition isWhiteSpace (c : ascii) : bool :=
  between 9 13 c || (code c =? 32)%N || (code c =? 160)%N.

(** [String.prototype.toLowerCase] on one code unit below U+0100, the
    alphabet of the strings here: A-Z and the upper-case letters of
    U+00C0..U+00DE (U+00D7 is the multiplication sign) move 32 places up;
    every other code unit below U+0100 is unchanged.  (From U+0100 on
    lower-casing can leave the range, as U+212A to k, or add a code unit,
    as U+0130; such strings are not strings of the model.) *)
Definition toLowerChar (c : ascii) : ascii :=
  if between 65 90 c || (between 192 222 c && negb (code c =? 215)%N)
  then ascii_of_N (code c + 32)
  else c.

Fixpoint mapChars (f : ascii -> ascii) (s : string) : string :=
  match s with
  | EmptyString => EmptyString
  | String c r => String (f c) (mapChars f r)
  end.

Definition toLowerCase (s : string) : string := mapChars toLowerChar s.

(** [s.replace(/[^\w\s]/g, ' ')] *)
Definition replaceNonWordNonSpace (s : string) : string :=
  mapChars (fun c => if isWordChar c || isWhiteSpace c then c else " "%char) s.

(** [s.replace(/\s+/g, ' ')]: every maximal run of white space becomes one
    space.  [inRun] tells that the previous code unit belonged to the run
    being replaced. *)
Fixpoint collapseRuns (inRun : bool) (s : string) : string :=
  match s with
  | EmptyString => EmptyString
  | String c r =>
      if isWhiteSpace c
      then if inRun then collapseRuns true r
           else String " "%char (collapseRuns true r)
      else String c (collapseRuns false r)
  end.

Definition replaceWhiteSpaceRuns (s : string) : string := collapseRuns false s.

Fixpoint trimStart (s : string) : string :=
  match s with
  | EmptyString => EmptyString
  | String c r => if isWhiteSpace c then trimStart r else s
  end.

Fixpoint trimEnd (s : string) : string :=
  match s with
  | EmptyString => EmptyString
  | String c r =>
      let t := trimEnd r in
      if isWhiteSpace c && (t =? "") then "" else String c t
  end.

Definition trim (s : string) : string := trimEnd (trimStart s).

(** Truthiness of a string: non-empty. *)
Definition truthy (s : string) : bool := negb (s =? "").

End JS.

(* ------------------------------------------------------------------ *)
(** ** Prompt normalisation ([aiRequestSchema.methods.normalizePrompt]) *)

Definition normalize (prompt : string) : string :=
  JS.trim
    (JS.replaceWhiteSpaceRuns
       (JS.replaceNonWordNonSpace
          (JS.toLowerCase prompt))).

(** Canonical form: lower-case word characters (a-z, 0-9, underscore) in
    words separated by exactly one space, nothing before the first word or
    after the last one.  The empty string is canonical. *)
Definition isLowerWordChar (c : ascii) : bool :=
  JS.between 97 122 c || JS.between 48 57 c || (JS.code c =? 95)%N.

Definition isSpace (c : ascii) : bool := Ascii.eqb c " "%char.

Fixpoint canonicalWords (s : string) : bool :=
  match s with
  | EmptyString => false
  | String c r =>
      isLowerWordChar c &&
      match r with
      | EmptyString => true
      | String d r' => if isSpace d then canonicalWords r' else canonicalWords r
      end
  end.

Definition canonical (s : string) : bool :=
  match s with
  | EmptyString => true
  | _ => canonicalWords s
  end.

(* ------------------------------------------------------------------ *)
(** ** JSON values and [JSON.parse] *)

Module JSON.

(** A number keeps its lexeme: nothing below computes with numbers. *)
Inductive value : Type :=
| Null
| Bool (b : bool)
| Number (lexeme : string)
| Str (s : string)
| Array (elements : list value)
| Object (members : list (string * value)).

Definition LF : ascii := "010"%char.
Definition DQ : ascii := "034"%char.
Definition BSL : ascii := "092"%char.

Definition isChar (c d : ascii) : bool := Ascii.eqb c d.

(** JSON white space: space, TAB, LF, CR. *)
Definition isWS (c : ascii) : bool :=
  (JS.code c =? 32)%N || (JS.code c =? 9)%N || (JS.code c =? 10)%N || (JS.code c =? 13)%N.

Definition isDigit (c : ascii) : bool := JS.between 48 57 c.

Fixpoint skipWS (s : string) : string :=
  match s with
  | String c r => if isWS c then skipWS r else s
  | EmptyString => EmptyString
  end.

Fixpoint stripPrefix (p s : string) : option string :=
  match p, s with
  | EmptyString, _ => Some s
  | String a p', String b s' => if isChar a b then stripPrefix p' s' else None
  | String _ _, EmptyString => None
  end.

Fixpoint takeDigits (s : string) : string * string :=
  match s with
  | String c r =>
      if isDigit c then let '(d, rest) := takeDigits r in (String c d, rest)
      else (EmptyString, s)
  | EmptyString => (EmptyString, EmptyString)
  end.

Definition nonEmpty (s : string) : bool :=
  match s with EmptyString => false | String _ _ => true end.

(** [int frac? exp?] with [int = 0 | [1-9][0-9]*], after an optional minus. *)
Definition parseInt (s : string) : option (string * string) :=
  match s with
  | String c r =>
      if isChar c "0" then Some (String c EmptyString, r)
      else if isDigit c then let '(d, rest) := takeDigits r in Some (String c d, rest)
      else None
  | EmptyString => None
  end.

Definition parseFrac (s : string) : option (string * string) :=
  match s with
  | String c r =>
      if isChar c "." then
        let '(d, rest) := takeDigits r in
        if nonEmpty d then Some (String c d, rest) else None
      else Some (EmptyString, s)
  | EmptyString => Some (EmptyString, s)
  end.

Definition parseExp (s : string) : option (string * string) :=
  match s with
  | String c r =>
      if isChar c "e" || isChar c "E" then
        let '(sign, r1) :=
          match r with
          | String g r' => if isChar g "+" || isChar g "-" then (String g EmptyString, r') else (EmptyString, r)
          | EmptyString => (EmptyString, r)
          end in
        let '(d, rest) := takeDigits r1 in
        if nonEmpty d then Some (String c (sign ++ d), rest) else None
      else Some (EmptyString, s)
  | EmptyString => Some (EmptyString, s)
  end.

Definition parseNumber (s : string) : option (string * string) :=
  let '(minus, s1) :=
    match s with
    | String c r => if isChar c "-" then (String c EmptyString, r) else (EmptyString, s)
    | EmptyString => (EmptyString, s)
    end in
  match parseInt s1 with
  | None => None
  | Some (i, s2) =>
      match parseFrac s2 with
      | None => None
      | Some (f, s3) =>
          match parseExp s3 with
          | None => None
          | Some (e, s4) => Some (minus ++ i ++ f ++ e, s4)
          end
      end
  end.

Definition hexDigit (c : ascii) : option N :=
  if JS.between 48 57 c then Some (JS.code c - 48)%N
  else if JS.between 97 102 c then Some (JS.code c - 87)%N
  else if JS.between 65 70 c then Some (JS.code c - 55)%N
  else None.

(** The code unit of [\uXXXX].  Code units from U+0100 on lie outside the
    alphabet of the model: a text that escapes one is not given a value
    here, and [narrowEscapes] below tells the texts that have none. *)
Definition hex4 (a b c d : ascii) : option ascii :=
  match hexDigit a, hexDigit b, hexDigit c, hexDigit d with
  | Some x, Some y, Some z, Some w =>
      let n := (((x * 16 + y) * 16 + z) * 16 + w)%N in
      if (n <? 256)%N then Some (ascii_of_N n) else None
  | _, _, _, _ => None
  end.

(** No [\uXXXX] in the text names a code unit from U+0100 on: the texts
    on which [parse] below is [JSON.parse]. *)
Fixpoint narrowEscapes (s : string) : bool :=
  match s with
  | EmptyString => true
  | String c r =>
      (if isChar c BSL then
         match r with
         | String u (String h1 (String h2 (String h3 (String h4 _)))) =>
             if isChar u "u" then
               match hexDigit h1, hexDigit h2, hexDigit h3, hexDigit h4 with
               | Some _, Some _, Some _, Some _ =>
                   match hex4 h1 h2 h3 h4 with Some _ => true | None => false end
               | _, _, _, _ => true
               end
             else true
         | _ => true
         end
       else true)
      && narrowEscapes r
  end.

Definition escape (e : ascii) : option ascii :=
  if isChar e DQ then Some DQ
  else if isChar e BSL then Some BSL
  else if isChar e "/" then Some "/"%char
  else if isChar e "b" then Some "008"%char
  else if isChar e "f" then Some "012"%char
  else if isChar e "n" then Some "010"%char
  else if isChar e "r" then Some "013"%char
  else if isChar e "t" then Some "009"%char
  else None.

(** The characters of a string, after its opening quote, up to and
    including the closing quote. *)
Fixpoint parseChars (s : string) : option (string * string) :=
  match s with
  | EmptyString => None
  | String c r =>
      if isChar c DQ then Some (EmptyString, r)
      else if isChar c BSL then
        match r with
        | String e r1 =>
            if isChar e "u" then
              match r1 with
              | String h1 (String h2 (String h3 (String h4 r2))) =>
                  match hex4 h1 h2 h3 h4, parseChars r2 with
                  | Some u, Some (t, rest) => Some (String u t, rest)
                  | _, _ => None
                  end
              | _ => None
              end
            else
              match escape e, parseChars r1 with
              | Some u, Some (t, rest) => Some (String u t, rest)
              | _, _ => None
              end
        | EmptyString => None
        end
      else if (JS.code c <? 32)%N then None
      else
        match parseChars r with
        | Some (t, rest) => Some (String c t, rest)
        | None => None
        end
  end.

Fixpoint parseValue (fuel : nat) (s : string) {struct fuel} : option (value * string) :=
  match fuel with
  | O => None
  | S fuel' =>
      match skipWS s with
      | EmptyString => None
      | String c r =>
          if isChar c "{" then
            match skipWS r with
            | String d r' =>
                if isChar d "}" then Some (Object [], r')
                else parseMembers fuel' [] (String d r')
            | EmptyString => None
            end
          else if isChar c "[" then
            match skipWS r with
            | String d r' =>
                if isChar d "]" then Some (Array [], r')
                else parseElements fuel' [] (String d r')
            | EmptyString => None
            end
          else if isChar c DQ then
            match parseChars r with
            | Some (t, rest) => Some (Str t, rest)
            | None => None
            end
          else if isChar c "t" then
            option_map (fun rest => (Bool true, rest)) (stripPrefix "rue" r)
          else if isChar c "f" then
            option_map (fun rest => (Bool false, rest)) (stripPrefix "alse" r)
          else if isChar c "n" then
            option_map (fun rest => (Null, rest)) (stripPrefix "ull" r)
          else
            option_map (fun '(n, rest) => (Number n, rest)) (parseNumber (String c r))
      end
  end
with parseElements (fuel : nat) (acc : list value) (s : string) {struct fuel}
  : option (value * string) :=
  match fuel with
  | O => None
  | S fuel' =>
      match parseValue fuel' s with
      | None => None
      | Some (v, r) =>
          match skipWS r with
          | String d r' =>
              if isChar d "," then parseElements fuel' (v :: acc) r'
              else if isChar d "]" then Some (Array (rev (v :: acc)), r')
              else None
          | EmptyString => None
          end
      end
  end
with parseMembers (fuel : nat) (acc : list (string * value)) (s : string) {struct fuel}
  : option (value * string) :=
  match fuel with
  | O => None
  | S fuel' =>
      match skipWS s with
      | String q r =>
          if isChar q DQ then
            match parseChars r with
            | None => None
            | Some (k, r1) =>
                match skipWS r1 with
                | String d r2 =>
                    if isChar d ":" then
                      match parseValue fuel' r2 with
                      | None => None
                      | Some (v, r3) =>
                          match skipWS r3 with
                          | String e r4 =>
                              if isChar e "," then parseMembers fuel' ((k, v) :: acc) r4
                              else if isChar e "}" then Some (Object (rev ((k, v) :: acc)), r4)
                              else None
                          | EmptyString => None
                          end
                      end
                    else None
                | EmptyString => None
                end
            end
          else None
      | EmptyString => None
      end
  end.

(** [JSON.parse(text)]: [None] stands for the SyntaxError. *)
Definition parse (text : string) : option value :=
  match parseValue (2 * String.length text + 2) text with
  | Some (v, rest) => if nonEmpty (skipWS rest) then None else Some v
  | None => None
  end.

(** A text written with apostrophes for the double quotes. *)
Definition lit (s : string) : string :=
  JS.mapChars (fun c => if isChar c "'" then DQ else c) s.

End JSON.

(* ------------------------------------------------------------------ *)
(** ** Exceptions *)

Inductive ErrorName : Type :=
| Error | TypeError | SyntaxError | ValidationError | CastError.

Record Exn : Type := mkExn { name : ErrorName; message : string }.

(* ------------------------------------------------------------------ *)
(** ** The AIRequest schema ([aiRequestSchema]) *)

Inductive Status : Type := pending | processing | completed | failed.

Inductive RequestType : Type :=
| playlist_generation | track_recommendation | mood_analysis.

Record Satisfaction : Type := mkSatisfaction {
  rating : Z;
  feedback : string;
  ratedAt : Z }.

(** The schema paths.  An element of a [[String]] path is a string or
    [null] ([None]); [normalizedPrompt] has no default and is undefined
    until it is first derived. *)
Record AIRequest : Type := mkAIRequest {
  user : nat;
  prompt : string;
  normalizedPrompt : option string;
  extractedKeywords : list (option string);
  extractedMoods : list (option string);
  extractedGenres : list (option string);
  geminiResponse : JSON.value;
  generatedTracks : list nat;
  generatedPlaylist : option nat;
  requestType : RequestType;
  status : Status;
  processingTime : Z;
  errorMessage : string;
  satisfaction : option Satisfaction;
  isBookmarked : bool;
  usageCount : Z;
  lastUsed : Z }.

Definition moodEnum : list string :=
  ["happy"; "sad"; "energetic"; "calm"; "romantic"; "angry"; "nostalgic";
   "peaceful"; "uplifting"; "melancholic"; "relaxing"; "motivational"].

Definition genreEnum : list string :=
  ["pop"; "rock"; "jazz"; "classical"; "electronic"; "hip-hop"; "country";
   "folk"; "blues"; "reggae"; "metal"; "indie"; "ambient"; "world"].

Inductive Path : Type :=
| PUser | PPrompt | PNormalizedPrompt | PExtractedKeywords | PExtractedMoods
| PExtractedGenres | PGeminiResponse | PGeneratedTracks | PGeneratedPlaylist
| PRequestType | PStatus | PProcessingTime | PErrorMessage | PSatisfaction
| PIsBookmarked | PUsageCount | PLastUsed.

Definition Path_eqb (p q : Path) : bool :=
  match p, q with
  | PUser, PUser | PPrompt, PPrompt | PNormalizedPrompt, PNormalizedPrompt
  | PExtractedKeywords, PExtractedKeywords | PExtractedMoods, PExtractedMoods
  | PExtractedGenres, PExtractedGenres | PGeminiResponse, PGeminiResponse
  | PGeneratedTracks, PGeneratedTracks | PGeneratedPlaylist, PGeneratedPlaylist
  | PRequestType, PRequestType | PStatus, PStatus
  | PProcessingTime, PProcessingTime | PErrorMessage, PErrorMessage
  | PSatisfaction, PSatisfaction | PIsBookmarked, PIsBookmarked
  | PUsageCount, PUsageCount | PLastUsed, PLastUsed => true
  | _, _ => false
  end.

Definition Status_eqb (a b : Status) : bool :=
  match a, b with
  | pending, pending | processing, processing
  | completed, completed | failed, failed => true
  | _, _ => false
  end.

(** A document in memory: the values of the schema paths, the paths set
    since the last successful save, the paths whose last assignment could
    not be cast, and [processingStartTime], which [updateStatus] keeps on
    the object although the schema does not declare it (so it is never
    written to the store). *)
Record Document : Type := mkDocument {
  fields : AIRequest;
  modified : list Path;
  castErrors : list Path;
  processingStartTime : option Z }.

Definition isModified (p : Path) (d : Document) : bool :=
  existsb (Path_eqb p) (modified d).

Definition withFields (f : AIRequest -> AIRequest) (p : Path) (d : Document) : Document :=
  {| fields := f (fields d);
     modified := p :: modified d;
     castErrors := castErrors d;
     processingStartTime := processingStartTime d |}.

(** *** Assignments to schema paths (with the setters the schema declares) *)

Definition set_normalizedPrompt (v : string) (r : AIRequest) : AIRequest :=
  mkAIRequest (user r) (prompt r) (Some (JS.trim v)) (extractedKeywords r)
    (extractedMoods r) (extractedGenres r) (geminiResponse r) (generatedTracks r)
    (generatedPlaylist r) (requestType r) (status r) (processingTime r)
    (errorMessage r) (satisfaction r) (isBookmarked r) (usageCount r) (lastUsed r).

Definition set_extractedKeywords (v : list (option string)) (r : AIRequest) : AIRequest :=
  mkAIRequest (user r) (prompt r) (normalizedPrompt r) v
    (extractedMoods r) (extractedGenres r) (geminiResponse r) (generatedTracks r)
    (generatedPlaylist r) (requestType r) (status r) (processingTime r)
    (errorMessage r) (satisfaction r) (isBookmarked r) (usageCount r) (lastUsed r).

Definition set_extractedMoods (v : list (option string)) (r : AIRequest) : AIRequest :=
  mkAIRequest (user r) (prompt r) (normalizedPrompt r) (extractedKeywords r)
    v (extractedGenres r) (geminiResponse r) (generatedTracks r)
    (generatedPlaylist r) (requestType r) (status r) (processingTime r)
    (errorMessage r) (satisfaction r) (isBookmarked r) (usageCount r) (lastUsed r).

Definition set_extractedGenres (v : list (option string)) (r : AIRequest) : AIRequest :=
  mkAIRequest (user r) (prompt r) (normalizedPrompt r) (extractedKeywords r)
    (extractedMoods r) v (geminiResponse r) (generatedTracks r)
    (generatedPlaylist r) (requestType r) (status r) (processingTime r)
    (errorMessage r) (satisfaction r) (isBookmarked r) (usageCount r) (lastUsed r).

Definition set_geminiResponse (v : JSON.value) (r : AIRequest) : AIRequest :=
  mkAIRequest (user r) (prompt r) (normalizedPrompt r) (extractedKeywords r)
    (extractedMoods r) (extractedGenres r) v (generatedTracks r)
    (generatedPlaylist r) (requestType r) (status r) (processingTime r)
    (errorMessage r) (satisfaction r) (isBookmarked r) (usageCount r) (lastUsed r).

Definition set_generatedTracks (v : list nat) (r : AIRequest) : AIRequest :=
  mkAIRequest (user r) (prompt r) (normalizedPrompt r) (extractedKeywords r)
    (extractedMoods r) (extractedGenres r) (geminiResponse r) v
    (generatedPlaylist r) (requestType r) (status r) (processingTime r)
    (errorMessage r) (satisfaction r) (isBookmarked r) (usageCount r) (lastUsed r).

Definition set_generatedPlaylist (v : nat) (r : AIRequest) : AIRequest :=
  mkAIRequest (user r) (prompt r) (normalizedPrompt r) (extractedKeywords r)
    (extractedMoods r) (extractedGenres r) (geminiResponse r) (generatedTracks r)
    (Some v) (requestType r) (status r) (processingTime r)
    (errorMessage r) (satisfaction r) (isBookmarked r) (usageCount r) (lastUsed r).

Definition set_status (v : Status) (r : AIRequest) : AIRequest :=
  mkAIRequest (user r) (prompt r) (normalizedPrompt r) (extractedKeywords r)
    (extractedMoods r) (extractedGenres r) (geminiResponse r) (generatedTracks r)
    (generatedPlaylist r) (requestType r) v (processingTime r)
    (errorMessage r) (satisfaction r) (isBookmarked r) (usageCount r) (lastUsed r).

Definition set_processingTime (v : Z) (r : AIRequest) : AIRequest :=
  mkAIRequest (user r) (prompt r) (normalizedPrompt r) (extractedKeywords r)
    (extractedMoods r) (extractedGenres r) (geminiResponse r) (generatedTracks r)
    (generatedPlaylist r) (requestType r) (status r) v
    (errorMessage r) (satisfaction r) (isBookmarked r) (usageCount r) (lastUsed r).

Definition set_errorMessage (v : string) (r : AIRequest) : AIRequest :=
  mkAIRequest (user r) (prompt r) (normalizedPrompt r) (extractedKeywords r)
    (extractedMoods r) (extractedGenres r) (geminiResponse r) (generatedTracks r)
    (generatedPlaylist r) (requestType r) (status r) (processingTime r)
    v (satisfaction r) (isBookmarked r) (usageCount r) (lastUsed r).

Definition set_satisfaction (v : Satisfaction) (r : AIRequest) : AIRequest :=
  mkAIRequest (user r) (prompt r) (normalizedPrompt r) (extractedKeywords r)
    (extractedMoods r) (extractedGenres r) (geminiResponse r) (generatedTracks r)
    (generatedPlaylist r) (requestType r) (status r) (processingTime r)
    (errorMessage r) (Some v) (isBookmarked r) (usageCount r) (lastUsed r).

Definition set_usageCount (v : Z) (r : AIRequest) : AIRequest :=
  mkAIRequest (user r) (prompt r) (normalizedPrompt r) (extractedKeywords r)
    (extractedMoods r) (extractedGenres r) (geminiResponse r) (generatedTracks r)
    (generatedPlaylist r) (requestType r) (status r) (processingTime r)
    (errorMessage r) (satisfaction r) (isBookmarked r) v (lastUsed r).

Definition set_lastUsed (v : Z) (r : AIRequest) : AIRequest :=
  mkAIRequest (user r) (prompt r) (normalizedPrompt r) (extractedKeywords r)
    (extractedMoods r) (extractedGenres r) (geminiResponse r) (generatedTracks r)
    (generatedPlaylist r) (requestType r) (status r) (processingTime r)
    (errorMessage r) (satisfaction r) (isBookmarked r) (usageCount r) v.

Definition set_processingStartTime (v : Z) (d : Document) : Document :=
  {| fields := fields d; modified := modified d; castErrors := castErrors d;
     processingStartTime := Some v |}.

(** *** Validators *)

(** [enum] on a string path: [null] passes, a string must be listed. *)
Definition enumValidator (vals : list string) (v : option string) : bool :=
  match v with
  | None => true
  | Some s => existsb (String.eqb s) vals
  end.

Definition validatePath (r : AIRequest) (p : Path) : bool :=
  match p with
  | PPrompt => (String.length (prompt r) <=? 500)%nat
  | PExtractedMoods => forallb (enumValidator moodEnum) (extractedMoods r)
  | PExtractedGenres => forallb (enumValidator genreEnum) (extractedGenres r)
  | PSatisfaction =>
      match satisfaction r with
      | None => true
      | Some s =>
          (1 <=? rating s)%Z && (rating s <=? 5)%Z
          && (String.length (feedback s) <=? 1000)%nat
      end
  | PUsageCount => (1 <=? usageCount r)%Z
  | _ => true
  end.

Definition allPaths : list Path :=
  [PUser; PPrompt; PNormalizedPrompt; PExtractedKeywords; PExtractedMoods;
   PExtractedGenres; PGeminiResponse; PGeneratedTracks; PGeneratedPlaylist;
   PRequestType; PStatus; PProcessingTime; PErrorMessage; PSatisfaction;
   PIsBookmarked; PUsageCount; PLastUsed].

(** The record passes the validators of the schema. *)
Definition meetsValidators (r : AIRequest) : bool :=
  forallb (validatePath r) allPaths.

(** Validation before a save: the required paths ([user] is always
    present in the record; a required string must be non-empty), the
    pending cast errors and the validators.  Mongoose runs the validators
    of the paths that were loaded from the store, that were given a
    default and that were set since the last save.  A path in none of
    these states has the value that the last save validated, so for a
    document loaded from the store, and for one made and saved here, this
    comes to the validators of every path. *)
Definition validate (d : Document) : bool :=
  JS.truthy (prompt (fields d))
  && match castErrors d with [] => true | _ => false end
  && meetsValidators (fields d).

Definition validationFailed : Exn := mkExn ValidationError "AIRequest validation failed".

(** *** The document, its persisted copy, and computations over them

    [this] is the document object the code holds; [persisted] is what the
    store has for it.  A computation returns a value or throws. *)

Record World : Type := mkWorld {
  this : Document;
  persisted : option AIRequest }.

Definition M (A : Type) : Type := World -> (Exn + A) * World.

Definition ret {A} (a : A) : M A := fun w => (inr a, w).

Definition throw {A} (e : Exn) : M A := fun w => (inl e, w).

Definition bind {A B} (m : M A) (k : A -> M B) : M B :=
  fun w =>
    match m w with
    | (inr a, w') => k a w'
    | (inl e, w') => (inl e, w')
    end.

Definition tryCatch {A} (body : M A) (handler : Exn -> M A) : M A :=
  fun w =>
    match body w with
    | (inr a, w') => (inr a, w')
    | (inl e, w') => handler e w'
    end.

Definition update (f : Document -> Document) : M unit :=
  fun w => (inr tt, mkWorld (f (this w)) (persisted w)).

Declare Scope monad_scope.
Delimit Scope monad_scope with monad.
Notation "x <- m ;; k" := (bind m (fun x => k))
  (at level 61, m at next level, right associativity) : monad_scope.
Notation "m ;; k" := (bind m (fun _ => k))
  (at level 61, right associativity) : monad_scope.
Open Scope monad_scope.

(** [aiRequestSchema.methods.normalizePrompt] *)
Definition normalizePrompt (d : Document) : Document :=
  let normalized := normalize (prompt (fields d)) in
  withFields (set_normalizedPrompt normalized) PNormalizedPrompt d.

(** [aiRequestSchema.pre('save', ...)] *)
Definition preSave (d : Document) : Document :=
  if isModified PPrompt d then normalizePrompt d else d.

(** [document.save()]: validation runs first, then the pre-save hook,
    then the write.  A rejected save leaves the store and the document as
    they were: the modifications stay, and so do the cast errors, which
    Mongoose puts back on the document, so the next save is refused as
    well. *)
Definition save : M unit :=
  fun w =>
    let d := this w in
    if validate d then
      let d' := preSave d in
      (inr tt,
       mkWorld (mkDocument (fields d') [] [] (processingStartTime d'))
               (Some (fields d')))
    else (inl validationFailed, w).

(** [AIRequest.create({ user, prompt, requestType })]; [now] is the
    default of [lastUsed].  The [prompt] path trims what it is given. *)
Definition newDocument (u : nat) (p : string) (k : RequestType) (now : Z) : Document :=
  mkDocument
    (mkAIRequest u (JS.trim p) None [] [] [] (JSON.Object []) [] None k
       pending 0 EmptyString None false 1 now)
    [PUser; PPrompt; PRequestType] [] None.

(** The record that [create] stores. *)
Definition created (u : nat) (p : string) (k : RequestType) (now : Z) : AIRequest :=
  set_normalizedPrompt (normalize (JS.trim p)) (fields (newDocument u p k now)).

Definition create (u : nat) (p : string) (k : RequestType) (now : Z)
  : (Exn + unit) * World :=
  save (mkWorld (newDocument u p k now) None).

(** A document with nothing pending: as loaded, or as left by a save. *)
Definition settled (r : AIRequest) (start : option Z) : Document :=
  mkDocument r [] [] start.

(** A document as [findOne] returns it. *)
Definition loaded (r : AIRequest) : World :=
  mkWorld (settled r None) (Some r).

(** [aiRequestSchema.methods.markAsUsed] *)
Definition markAsUsed (now : Z) : M unit :=
  update (fun d => withFields (fun r => set_usageCount (usageCount r + 1) r) PUsageCount d) ;;
  update (withFields (set_lastUsed now) PLastUsed) ;;
  save.

(** [aiRequestSchema.methods.rateSatisfaction]; [now] is [new Date()]. *)
Definition rateSatisfaction (now : Z) (rating : Z) (feedback : string) : M unit :=
  update (withFields (set_satisfaction (mkSatisfaction rating feedback now)) PSatisfaction) ;;
  save.

(** Truthiness of [this.processingStartTime]: defined and not zero. *)
Definition startTimeSet (d : Document) : option Z :=
  match processingStartTime d with
  | Some t => if (t =? 0)%Z then None else Some t
  | None => None
  end.

(** [aiRequestSchema.methods.updateStatus]; [now] is [Date.now()].
    [setStatus] is the body up to [return this.save()]. *)
Definition setStatus (now : Z) (newStatus : Status) (errorMessage : string)
    (d : Document) : Document :=
  let d1 :=
    if Status_eqb newStatus processing && Status_eqb (status (fields d)) pending
    then set_processingStartTime now d else d in
  let d2 :=
    if Status_eqb newStatus completed || Status_eqb newStatus failed then
      match startTimeSet d1 with
      | Some start => withFields (set_processingTime (now - start)) PProcessingTime d1
      | None => d1
      end
    else d1 in
  let d3 := withFields (set_status newStatus) PStatus d2 in
  if JS.truthy errorMessage
  then withFields (set_errorMessage errorMessage) PErrorMessage d3 else d3.

Definition updateStatus (now : Z) (newStatus : Status) (errorMessage : string) : M unit :=
  update (setStatus now newStatus errorMessage) ;;
  save.

(* ------------------------------------------------------------------ *)
(** ** The catalog ([models/Track.js]) *)

(** [popularity] and [playCount] are only compared; they are integers
    here. *)
Record Track : Type := mkTrack {
  trackId : nat;
  title : string;
  artist : string;
  genre : string;
  mood : list string;
  tags : list string;
  popularity : Z;
  playCount : Z;
  isActive : bool }.

(** One disjunct of [$or]; the values of [$in] are already cast. *)
Inductive Clause : Type :=
| MoodIn (vals : list (option string))
| GenreIn (vals : list (option string))
| TagsIn (regexes : list (string -> bool))
| TitleIn (regexes : list (string -> bool))
| ArtistIn (regexes : list (string -> bool)).

Record SearchCriteria : Type := mkSearchCriteria {
  crit_isActive : bool;
  crit_or : option (list Clause) }.

Definition inValues (vals : list (option string)) (s : string) : bool :=
  existsb (fun v => match v with Some x => String.eqb x s | None => false end) vals.

Definition anyRegex (regexes : list (string -> bool)) (s : string) : bool :=
  existsb (fun test => test s) regexes.

Definition clauseMatches (t : Track) (c : Clause) : bool :=
  match c with
  | MoodIn vals => existsb (inValues vals) (mood t)
  | GenreIn vals => inValues vals (genre t)
  | TagsIn rs => existsb (anyRegex rs) (tags t)
  | TitleIn rs => anyRegex rs (title t)
  | ArtistIn rs => anyRegex rs (artist t)
  end.

Definition matches (q : SearchCriteria) (t : Track) : bool :=
  Bool.eqb (isActive t) (crit_isActive q)
  && match crit_or q with
     | None => true
     | Some clauses => existsb (clauseMatches t) clauses
     end.

(** [{ popularity: -1, playCount: -1 }] and [{ popularity: -1 }]: [true]
    when the first track may stand before the second. *)
Definition byPopularityThenPlays (a b : Track) : bool :=
  (popularity b <? popularity a)%Z
  || ((popularity a =? popularity b)%Z && (playCount b <=? playCount a)%Z).

Definition byPopularity (a b : Track) : bool :=
  (popularity b <=? popularity a)%Z.

Fixpoint insertBy (before : Track -> Track -> bool) (x : Track) (l : list Track) : list Track :=
  match l with
  | [] => [x]
  | y :: r => if before x y then x :: l else y :: insertBy before x r
  end.

(** Tracks that the order does not separate keep their catalog order. *)
Definition sortBy (before : Track -> Track -> bool) (l : list Track) : list Track :=
  fold_right (insertBy before) [] l.

(** [Track.find(q).sort(order).limit(n)] *)
Definition find (tracks : list Track) (q : SearchCriteria)
    (order : Track -> Track -> bool) (n : nat) : list Track :=
  firstn n (sortBy order (filter (matches q) tracks)).

(** [array.sort(() => Math.random() - 0.5)]: the comparator ignores its
    arguments, so the array comes back rearranged in a way that only the
    engine and the random draws determine.  The rearrangement is an input:
    [picks] names, one after the other, the position (modulo what is left)
    of the element that comes next. *)
Fixpoint removeAt {A} (i : nat) (l : list A) : list A :=
  match l, i with
  | [], _ => []
  | _ :: r, O => r
  | x :: r, S j => x :: removeAt j r
  end.

Fixpoint arrange {A} (n : nat) (picks : list nat) (l : list A) : list A :=
  match n, l with
  | S n', x :: _ =>
      let i := Nat.modulo (hd O picks) (List.length l) in
      nth i l x :: arrange n' (tl picks) (removeAt i l)
  | _, _ => []
  end.

Definition shuffle {A} (picks : list nat) (l : list A) : list A :=
  arrange (List.length l) picks l.

(* ------------------------------------------------------------------ *)
(** ** The controller ([controllers/aiController.js]) *)

Inductive GenOutcome : Type :=
| Responds (text : string)
| Rejects (e : Exn).

(** What a generation attempt takes from outside: the string caster of
    the schema on values that are neither a string nor [null] ([None] is a
    CastError), [new RegExp(keyword, 'i')] ([None] is its SyntaxError), the
    outcome of [generateContent] followed by [response.text()], the
    catalog, the rearrangement drawn by the shuffle, the outcome of saving
    the playlist and linking it to its owner, and the readings of the
    clock: at creation, in [updateStatus('processing')], in
    [updateStatus('completed')] and in [updateStatus('failed', ...)]. *)
Record Env : Type := mkEnv {
  castOther : JSON.value -> option (option string);
  regExp : JSON.value -> option (string -> bool);
  generateContent : GenOutcome;
  catalog : list Track;
  picks : list nat;
  createPlaylist : list Track -> Exn + nat;
  createdAt : Z;
  processingAt : Z;
  completedAt : Z;
  failedAt : Z }.

(** The caster of a [String] path. *)
Definition castString (env : Env) (v : JSON.value) : option (option string) :=
  match v with
  | JSON.Str s => Some (Some s)
  | JSON.Null => Some None
  | _ => castOther env v
  end.

Fixpoint castArray (env : Env) (setter : string -> string) (l : list JSON.value)
  : option (list (option string)) :=
  match l with
  | [] => Some []
  | v :: r =>
      match castString env v, castArray env setter r with
      | Some x, Some xs => Some (option_map setter x :: xs)
      | _, _ => None
      end
  end.

(** [lowercase: true] and [lowercase: true, trim: true] *)
Definition lower (s : string) : string := JS.toLowerCase s.
Definition lowerTrim (s : string) : string := JS.trim (JS.toLowerCase s).

(** Assignment of an array to a [[String]] path: when an element cannot
    be cast the path keeps its value and the error waits for validation. *)
Definition assignStrings (env : Env) (p : Path) (setter : string -> string)
    (store : list (option string) -> AIRequest -> AIRequest)
    (raw : list JSON.value) (d : Document) : Document :=
  match castArray env setter raw with
  | Some vs => withFields (store vs) p d
  | None => mkDocument (fields d) (modified d) (p :: castErrors d) (processingStartTime d)
  end.

(** [text.replace(/```json\n?|```\n?/g, '')]; [skip] counts the code
    units of the current match still to be dropped. *)
Definition fenceLength (s : string) : nat :=
  match JSON.stripPrefix "```json" s with
  | Some r =>
      match r with
      | String c _ => if JSON.isChar c JSON.LF then 8 else 7
      | EmptyString => 7
      end
  | None =>
      match JSON.stripPrefix "```" s with
      | Some r =>
          match r with
          | String c _ => if JSON.isChar c JSON.LF then 4 else 3
          | EmptyString => 3
          end
      | None => 0
      end
  end.

Fixpoint stripFences (skip : nat) (s : string) : string :=
  match s with
  | EmptyString => EmptyString
  | String c r =>
      match skip with
      | S k => stripFences k r
      | O =>
          match fenceLength s with
          | O => String c (stripFences 0 r)
          | S k => stripFences k r
          end
      end
  end.

Definition cleanText (text : string) : string := JS.trim (stripFences 0 text).

(** The inner [try]: whatever goes wrong becomes the one parse error. *)
Definition parseGeminiResponse (text : string) : M JSON.value :=
  match JSON.parse (cleanText text) with
  | Some geminiData => ret geminiData
  | None => throw (mkExn Error "Failed to parse AI response")
  end.

(** [geminiData.key] for the keys read here (none of them is a property
    of an array, a string, a number or a boolean).  Of members with the
    same key the last one counts. *)
Definition lookupMember (k : string) (members : list (string * JSON.value)) : option JSON.value :=
  fold_left (fun found kv => if String.eqb (fst kv) k then Some (snd kv) else found)
            members None.

Definition getProperty (v : JSON.value) (k : string) : M (option JSON.value) :=
  match v with
  | JSON.Null =>
      throw (mkExn TypeError ("Cannot read properties of null (reading '" ++ k ++ "')"))
  | JSON.Object members => ret (lookupMember k members)
  | _ => ret None
  end.

(** [Array.isArray(x) ? x : []] *)
Definition arrayOrEmpty (x : option JSON.value) : list JSON.value :=
  match x with
  | Some (JSON.Array l) => l
  | _ => []
  end.

Fixpoint compileAll (env : Env) (keywords : list JSON.value) : M (list (string -> bool)) :=
  match keywords with
  | [] => ret []
  | k :: r =>
      match regExp env k with
      | Some test => rs <- compileAll env r ;; ret (test :: rs)
      | None => throw (mkExn SyntaxError "Invalid regular expression")
      end
  end.

(** The values of [$in] are cast by the path they are compared with
    ([mood] and [genre] of the Track schema: strings, lower-cased). *)
Definition castQuery (env : Env) (raw : list JSON.value) : M (list (option string)) :=
  match castArray env lower raw with
  | Some vs => ret vs
  | None => throw (mkExn CastError "Cast to string failed")
  end.

Definition buildSearchCriteria (env : Env) (moods genres keywords : list JSON.value)
  : M SearchCriteria :=
  byMood <- (if (0 <? List.length moods)%nat
             then vs <- castQuery env moods ;; ret [MoodIn vs] else ret []) ;;
  byGenre <- (if (0 <? List.length genres)%nat
              then vs <- castQuery env genres ;; ret [GenreIn vs] else ret []) ;;
  byKeyword <- (if (0 <? List.length keywords)%nat
                then keywordRegex <- compileAll env keywords ;;
                     ret [TagsIn keywordRegex; TitleIn keywordRegex; ArtistIn keywordRegex]
                else ret []) ;;
  let or := (byMood ++ byGenre ++ byKeyword)%list in
  ret (mkSearchCriteria true
         (if (List.length or =? 0)%nat then None else Some or)).

Definition activeOnly : SearchCriteria := mkSearchCriteria true None.

(** The pool of candidates: the matches, and the most popular active
    tracks behind them when there are fewer than ten matches. *)
Definition candidatePool (env : Env) (q : SearchCriteria) : list Track :=
  let tracks := find (catalog env) q byPopularityThenPlays 50 in
  if (List.length tracks <? 10)%nat then
    let fallbackTracks := find (catalog env) activeOnly byPopularity (20 - List.length tracks) in
    (tracks ++ fallbackTracks)%list
  else tracks.

Definition shuffledTracks (env : Env) (q : SearchCriteria) : list Track :=
  firstn 20 (shuffle (picks env) (candidatePool env q)).

Inductive Response : Type :=
| BadRequest (errors : list string)
| NotFound
| Generated (tracks : list Track) (playlist : option nat)
            (extractedMoods extractedGenres extractedKeywords : list JSON.value)
| Rated (rating : Z) (feedback : option string)
| ServerError (message : string)
| Next (e : Exn).

(** A request as the handler sees it: the outcome of the validation
    chain of its route, the authenticated user, the body. *)
Record GenerateRequest : Type := mkGenerateRequest {
  validationErrors : list string;
  reqUser : nat;
  bodyPrompt : string;
  bodyPlaylistName : option string;
  bodySavePlaylist : option bool }.

(** [generateValidation] on a body whose [prompt] is a string, whose
    [playlistName] is absent or a string and whose [savePlaylist] is
    absent or a boolean (the bodies of [GenerateRequest]; the check of
    [savePlaylist] passes on them).  The chain trims [prompt] and
    [playlistName] in the body before it measures them.  The strings are
    those of the model, of code units below U+0100, where the characters
    that [isLength] counts and the code units that the schema's
    [maxlength] counts are the same number. *)
Definition generateValidation (promptIn : string) (playlistNameIn : option string)
  : list string :=
  ((let n := String.length (JS.trim promptIn) in
    if (3 <=? n)%nat && (n <=? 500)%nat then []
    else ["Prompt must be between 3 and 500 characters"])
   ++
   (match playlistNameIn with
    | Some nm =>
        if (String.length (JS.trim nm) <=? 100)%nat then []
        else ["Playlist name cannot exceed 100 characters"]
    | None => []
    end))%list.

(** The inner [try] of [generatePlaylist]. *)
Definition attempt (env : Env) (req : GenerateRequest) : M Response :=
  text <- (match generateContent env with
           | Responds t => ret t
           | Rejects e => throw e
           end) ;;
  geminiData <- parseGeminiResponse text ;;
  m <- getProperty geminiData "moods" ;;
  g <- getProperty geminiData "genres" ;;
  k <- getProperty geminiData "keywords" ;;
  let moods := arrayOrEmpty m in
  let genres := arrayOrEmpty g in
  let keywords := arrayOrEmpty k in
  update (assignStrings env PExtractedMoods lower set_extractedMoods moods) ;;
  update (assignStrings env PExtractedGenres lower set_extractedGenres genres) ;;
  update (assignStrings env PExtractedKeywords lowerTrim set_extractedKeywords keywords) ;;
  update (withFields (set_geminiResponse geminiData) PGeminiResponse) ;;
  save ;;
  searchCriteria <- buildSearchCriteria env moods genres keywords ;;
  let shuffled := shuffledTracks env searchCriteria in
  update (withFields (set_generatedTracks (map trackId shuffled)) PGeneratedTracks) ;;
  updateStatus (completedAt env) completed EmptyString ;;
  playlist <- (if match bodySavePlaylist req with Some b => b | None => true end
                  && (0 <? List.length shuffled)%nat
               then
                 match createPlaylist env shuffled with
                 | inr id =>
                     update (withFields (set_generatedPlaylist id) PGeneratedPlaylist) ;;
                     save ;;
                     ret (Some id)
                 | inl e => throw e
                 end
               else ret None) ;;
  ret (Generated shuffled playlist moods genres keywords).

(** [generatePlaylist]: the response, and the document with its persisted
    copy when a record was created. *)
Definition generatePlaylist (env : Env) (req : GenerateRequest)
  : Response * option World :=
  match validationErrors req with
  | _ :: _ => (BadRequest (validationErrors req), None)
  | [] =>
      match create (reqUser req) (JS.trim (bodyPrompt req)) playlist_generation
                   (createdAt env) with
      | (inl e, _) => (Next e, None)
      | (inr _, w0) =>
          match (updateStatus (processingAt env) processing EmptyString ;;
                 tryCatch (attempt env req)
                   (fun aiError =>
                      updateStatus (failedAt env) failed (message aiError) ;;
                      ret (ServerError "Failed to generate AI playlist"))) w0 with
          | (inr response, w) => (response, Some w)
          | (inl e, w) => (Next e, Some w)
          end
      end
  end.

(** [POST /api/ai/generate] behind its validation chain. *)
Definition postGenerate (env : Env) (u : nat) (promptIn : string)
    (playlistNameIn : option string) (savePlaylistIn : option bool)
  : Response * option World :=
  generatePlaylist env
    (mkGenerateRequest (generateValidation promptIn playlistNameIn) u
       (JS.trim promptIn) (option_map JS.trim playlistNameIn) savePlaylistIn).

(** [ratingValidation]: [rating] is an integer from 1 to 5; [feedback],
    when present, has at most 1000 characters once trimmed. *)
Definition ratingValidation (ratingIn : Z) (feedbackIn : option string) : list string :=
  ((if (1 <=? ratingIn)%Z && (ratingIn <=? 5)%Z then []
    else ["Rating must be between 1 and 5"])
   ++
   (match feedbackIn with
    | Some f =>
        if (String.length (JS.trim f) <=? 1000)%nat then []
        else ["Feedback cannot exceed 1000 characters"]
    | None => []
    end))%list.

(** [ratePlaylist]; [found] is what [findOne({ _id, user })] returns and
    [now] the time of the rating. *)
Definition ratePlaylist (errors : list string) (found : option AIRequest) (now : Z)
    (ratingIn : Z) (feedbackIn : option string) : Response * option World :=
  match errors with
  | _ :: _ => (BadRequest errors, None)
  | [] =>
      match found with
      | None => (NotFound, None)
      | Some r =>
          match rateSatisfaction now ratingIn
                  (match feedbackIn with Some f => f | None => EmptyString end)
                  (loaded r) with
          | (inr _, w) => (Rated ratingIn feedbackIn, Some w)
          | (inl e, w) => (Next e, Some w)
          end
      end
  end.

(** [POST /api/ai/rate/:requestId] behind its validation chain. *)
Definition postRate (found : option AIRequest) (now : Z)
    (ratingIn : Z) (feedbackIn : option string) : Response * option World :=
  ratePlaylist (ratingValidation ratingIn feedbackIn) found now ratingIn
    (option_map JS.trim feedbackIn).

(* ------------------------------------------------------------------ *)
(** ** Predicates used in the statements and proofs below *)

Fixpoint allChars (p : ascii -> bool) (s : string) : bool :=
  match s with
  | EmptyString => true
  | String c r => p c && allChars p r
  end.

Definition wordOrWhiteSpace (c : ascii) : bool :=
  isLowerWordChar c || JS.isWhiteSpace c.

Definition startsWithSpace (s : string) : bool :=
  match s with
  | String c _ => isSpace c
  | EmptyString => false
  end.

(** Lower-case word characters and spaces, no two spaces in a row. *)
Fixpoint spaced (s : string) : bool :=
  match s with
  | EmptyString => true
  | String c r =>
      (isLowerWordChar c || (isSpace c && negb (startsWithSpace r))) && spaced r
  end.

(** What may follow a word character in a canonical string. *)
Definition canonicalRest (s : string) : bool :=
  match s with
  | EmptyString => true
  | String d r => if isSpace d then canonicalWords r else canonicalWords s
  end.

Definition startsWithWhiteSpace (s : string) : bool :=
  match s with
  | String c _ => JS.isWhiteSpace c
  | EmptyString => false
  end.

Fixpoint lastChar (s : string) : option ascii :=
  match s with
  | EmptyString => None
  | String c EmptyString => Some c
  | String _ r => lastChar r
  end.

Fixpoint twoSpaces (s : string) : bool :=
  match s with
  | EmptyString => false
  | String c r => (isSpace c && startsWithSpace r) || twoSpaces r
  end.

(** The state of a record whose attempt began and has not been settled. *)
Definition inProcess (env : Env) (u : nat) (p : string) : Document :=
  setStatus (processingAt env) processing EmptyString
    (settled (created u p playlist_generation (createdAt env)) None).

(** The persisted record has only listed moods and genres. *)
Definition vocabularyOnly (r : AIRequest) : bool :=
  forallb (enumValidator moodEnum) (extractedMoods r)
  && forallb (enumValidator genreEnum) (extractedGenres r).

(** The invariant behind it: the stored record has only listed moods and
    genres, and so has the document in memory on each of the two paths
    that has not been assigned since the last save. *)
Definition moodsListed (r : AIRequest) : bool :=
  forallb (enumValidator moodEnum) (extractedMoods r).

Definition genresListed (r : AIRequest) : bool :=
  forallb (enumValidator genreEnum) (extractedGenres r).

Definition listedInv (w : World) : Prop :=
  (forall r, persisted w = Some r -> vocabularyOnly r = true)
  /\ (isModified PExtractedMoods (this w) = false -> moodsListed (fields (this w)) = true)
  /\ (isModified PExtractedGenres (this w) = false -> genresListed (fields (this w)) = true).

(** The stored and the in-memory normalised prompt, when there is one,
    is canonical. *)
Definition canonicalInv (w : World) : Prop :=
  (forall r np, persisted w = Some r -> normalizedPrompt r = Some np -> canonical np = true)
  /\ (forall np, normalizedPrompt (fields (this w)) = Some np -> canonical np = true).

Definition preserves (I : World -> Prop) {A} (m : M A) : Prop :=
  forall w, I w -> I (snd (m w)).

(** The failures of the analysis: the call rejects, or its text does not
    parse. *)
Inductive analysisFails (env : Env) : Exn -> Prop :=
| call_rejects e :
    generateContent env = Rejects e -> analysisFails env e
| text_unparseable text :
    generateContent env = Responds text ->
    JSON.narrowEscapes (cleanText text) = true ->
    JSON.parse (cleanText text) = None ->
    analysisFails env (mkExn Error "Failed to parse AI response").

(** [create], then [updateStatus('processing')], then
    [updateStatus('completed')], with the three readings of the clock. *)
Definition createProcessComplete (u : nat) (p : string) (t0 t1 t2 : Z)
  : (Exn + unit) * World :=
  match create u p playlist_generation t0 with
  | (inr _, w0) =>
      (updateStatus t1 processing EmptyString ;;
       updateStatus t2 completed EmptyString) w0
  | failure => failure
  end.

(** Descending popularity along a list. *)
Fixpoint descending (l : list Track) : bool :=
  match l with
  | a :: ((b :: _) as r) => byPopularity a b && descending r
  | _ => true
  end.

(* ------------------------------------------------------------------ *)
(** ** Sample data *)

Definition sampleRequest (s : Status) : AIRequest :=
  mkAIRequest 1 "relaxing summer sunset" (Some "relaxing summer sunset")
    [] [] [] (JSON.Object []) [] None playlist_generation s 0 EmptyString
    None false 1 1000.

(** A record as a store may hold it without the program having written
    it: the use count is below the minimum of the schema. *)
Definition unusedRequest (s : Status) : AIRequest :=
  mkAIRequest 1 "relaxing summer sunset" (Some "relaxing summer sunset")
    [] [] [] (JSON.Object []) [] None playlist_generation s 0 EmptyString
    None false 0 1000.

Definition sampleTrack (i : nat) (g : string) (m : list string) (p : Z) (a : bool) : Track :=
  mkTrack i "Untitled" "Unknown" g m [] p 0 a.

Definition sampleCatalog : list Track :=
  [ sampleTrack 1 "ambient" ["peaceful"; "relaxing"] 5 true;
    sampleTrack 2 "rock" ["energetic"] 3 true;
    sampleTrack 3 "jazz" ["calm"] 9 false ].

Definition fencedResponse : string :=
  "```json" ++ String JSON.LF
    (JSON.lit "{'moods':['happy'],'genres':[],'keywords':['party']}")
  ++ String JSON.LF "```".

(** An environment: no cast beyond strings, keywords that match nothing,
    the shuffle that keeps the order, a playlist store that answers 77. *)
Definition sampleEnv (g : GenOutcome) : Env :=
  mkEnv (fun _ => None) (fun _ => Some (fun _ => false)) g sampleCatalog []
        (fun _ => inr 77%nat) 1000 1001 1005 1006.

(** What [generatePlaylist] answers and leaves behind on the fenced
    response. *)
Definition fencedOutcome : Response * option World :=
  Eval vm_compute in
    generatePlaylist (sampleEnv (Responds fencedResponse))
      (mkGenerateRequest [] 1 "relaxing summer sunset" None None).

(* ------------------------------------------------------------------ *)
(** ** Reasoning about a handler: pre- and postconditions

    [triple P m Q E]: started in a world that satisfies [P], the
    computation [m] either returns [a] in a world that satisfies [Q a] or
    throws [e] in a world that satisfies [E e]. *)

Definition triple {A} (P : World -> Prop) (m : M A)
    (Q : A -> World -> Prop) (E : Exn -> World -> Prop) : Prop :=
  forall w, P w ->
    match m w with
    | (inr a, w') => Q a w'
    | (inl e, w') => E e w'
    end.

(** The store has the record in state [stored]; the document in memory,
    which may carry unsaved assignments, has state [held]. *)
Definition pendingWrite (stored held : Status) (w : World) : Prop :=
  (exists r, persisted w = Some r /\ status r = stored)
  /\ status (fields (this w)) = held
  /\ JS.truthy (prompt (fields (this w))) = true.

(** No playlist is linked to the document. *)
Definition unlinked (w : World) : Prop :=
  generatedPlaylist (fields (this w)) = None.

(** The document in memory is what the store has, in state [st]. *)
Definition inSync (st : Status) (w : World) : Prop :=
  persisted w = Some (fields (this w))
  /\ modified (this w) = []
  /\ castErrors (this w) = []
  /\ status (fields (this w)) = st
  /\ JS.truthy (prompt (fields (this w))) = true
  /\ meetsValidators (fields (this w)) = true.

(** [aiRequestSchema.virtual('isSuccessful')] *)
Definition isSuccessful (r : AIRequest) : bool :=
  Status_eqb (status r) completed && (0 <? List.length (generatedTracks r))%nat.

(** A computation that leaves the document and the store alone. *)
Definition pure {A} (m : M A) : Prop := forall w, snd (m w) = w.

(** The attempt found its tracks and has not yet recorded its outcome. *)
Definition tracksAssigned (ids : list nat) (w : World) : Prop :=
  pendingWrite processing processing w
  /\ unlinked w
  /\ modified (this w) = [PGeneratedTracks]
  /\ castErrors (this w) = []
  /\ generatedTracks (fields (this w)) = ids
  /\ meetsValidators (fields (this w)) = true.

(** The attempt is recorded as completed, with these tracks and this
    playlist. *)
Definition recorded (ids : list nat) (playlist : option nat) (w : World) : Prop :=
  inSync completed w
  /\ generatedTracks (fields (this w)) = ids
  /\ generatedPlaylist (fields (this w)) = playlist.

(** Who asked what: the owner, the prompt and the kind of a request, in
    memory and in the store, and the normalised prompt that goes with the
    prompt once it has been saved. *)
Definition identity (u : nat) (p : string) (r : AIRequest) : Prop :=
  user r = u /\ prompt r = p /\ requestType r = playlist_generation.

Definition identityInv (u : nat) (p : string) (w : World) : Prop :=
  (forall r, persisted w = Some r ->
             identity u p r /\ normalizedPrompt r = Some (normalize p))
  /\ identity u p (fields (this w))
  /\ (isModified PPrompt (this w) = false ->
      normalizedPrompt (fields (this w)) = Some (normalize p)).




(* ------------------------------------------------------------------ *)
(** ** The collection of requests, its queries and its aggregations

    ([aiRequestSchema.statics], [getAIHistory], [getAIAnalytics],
    [ratePlaylist] with its lookup.)  The collection is the list of its
    documents.  Where the store leaves an order open (documents the sort
    does not separate, the rows of a [$group]) the functions below go by
    the order of the list they are given; [getPopularPrompts], whose
    [$first] depends on that order, is therefore also given as
    [popularRows], over the documents in whatever order the [$match] stage
    delivers them. *)

Fixpoint insertWith {A} (before : A -> A -> bool) (x : A) (l : list A) : list A :=
  match l with
  | [] => [x]
  | y :: r => if before x y then x :: l else y :: insertWith before x r
  end.

Definition sortWith {A} (before : A -> A -> bool) (l : list A) : list A :=
  fold_right (insertWith before) [] l.

(** An average kept exactly: the sum of the values and their number. *)
Record Average : Type := mkAverage { total : Z; over : nat }.

(** [$avg] of [satisfaction.rating]: documents without a rating do not
    count; [None] is the [null] of an average over nothing. *)
Definition addRating (a : option Average) (r : AIRequest) : option Average :=
  match satisfaction r, a with
  | Some s, Some av => Some (mkAverage (total av + rating s) (S (over av)))
  | Some s, None => Some (mkAverage (rating s) 1)
  | None, _ => a
  end.

Module Collection.

(** A stored document: its [_id], the two dates that the schema's
    [timestamps] option keeps, and the paths that the schema declares. *)
Record Entry : Type := mkStored {
  _id : nat;
  createdAt : Z;
  updatedAt : Z;
  doc : AIRequest }.

(** An entry as its insertion leaves it: [updatedAt] is [createdAt]. *)
Definition mkEntry (id : nat) (insertedAt : Z) (r : AIRequest) : Entry :=
  mkStored id insertedAt insertedAt r.

Definition ownedBy (userId : nat) (e : Entry) : bool :=
  Nat.eqb (user (doc e)) userId.

(** [{ createdAt: -1 }] *)
Definition newestFirst (a b : Entry) : bool := (createdAt b <=? createdAt a)%Z.

(** [{ status: 'completed', 'generatedTracks.0': { $exists: true } }] *)
Definition succeeded (e : Entry) : bool :=
  Status_eqb (status (doc e)) completed
  && match generatedTracks (doc e) with [] => false | _ :: _ => true end.

(** [statics.getUserHistory] (the selection of fields left aside) *)
Definition getUserHistory (c : list Entry) (userId : nat) (limit skip : nat) : list Entry :=
  firstn limit (skipn skip (sortWith newestFirst (filter (ownedBy userId) c))).

(** [statics.getSuccessfulRequests] *)
Definition getSuccessfulRequests (c : list Entry) (limit : nat) : list Entry :=
  firstn limit (sortWith newestFirst (filter succeeded c)).

(** [findOne({ _id, user })] *)
Definition findOne (c : list Entry) (id userId : nat) : option Entry :=
  List.find (fun e => Nat.eqb (_id e) id && ownedBy userId e) c.

(** The write of a save on the document with this [_id]; [savedAt] is the
    date that the [timestamps] option gives [updatedAt] on that save. *)
Definition replaceDoc (id : nat) (r : AIRequest) (savedAt : Z) (c : list Entry)
  : list Entry :=
  map (fun e => if Nat.eqb (_id e) id then mkStored (_id e) (createdAt e) savedAt r else e) c.

(** *** [getPopularPrompts] *)

Record PromptRow : Type := mkPromptRow {
  normalized : option string;
  count : Z;
  averageRating : option Average;
  lastUsedMax : Z;
  originalPrompt : string }.

Definition sameKey (a b : option string) : bool :=
  match a, b with
  | Some x, Some y => String.eqb x y
  | None, None => true
  | _, _ => false
  end.

(** One document into the rows of [$group: { _id: '$normalizedPrompt', ... }];
    [$first] keeps the prompt of the document that opened the row, the
    first one that the stage before delivered. *)
Fixpoint addPrompt (r : AIRequest) (rows : list PromptRow) : list PromptRow :=
  match rows with
  | [] =>
      [mkPromptRow (normalizedPrompt r) (usageCount r) (addRating None r)
                   (lastUsed r) (prompt r)]
  | g :: rest =>
      if sameKey (normalized g) (normalizedPrompt r) then
        mkPromptRow (normalized g) (count g + usageCount r) (addRating (averageRating g) r)
                    (Z.max (lastUsedMax g) (lastUsed r)) (originalPrompt g) :: rest
      else g :: addPrompt r rest
  end.

Definition groupPrompts (docs : list AIRequest) : list PromptRow :=
  fold_left (fun rows r => addPrompt r rows) docs [].

(** [{ count: -1, lastUsed: -1 }] *)
Definition mostUsedFirst (a b : PromptRow) : bool :=
  (count b <? count a)%Z
  || ((count a =? count b)%Z && (lastUsedMax b <=? lastUsedMax a)%Z).

(** The stages after [$match], on the documents in the order that
    [$match] delivers them: the pipeline has no [$sort] before its
    [$group], so the store is free in that order (with the index
    [{ status: 1, createdAt: -1 }] a plan may deliver the newest first). *)
Definition popularRows (delivered : list AIRequest) (limit : nat) : list PromptRow :=
  firstn limit (sortWith mostUsedFirst (groupPrompts delivered)).

(** [statics.getPopularPrompts], the documents delivered in the order of
    the list. *)
Definition getPopularPrompts (c : list Entry) (limit : nat) : list PromptRow :=
  popularRows (map doc (filter succeeded c)) limit.

(** *** [getMoodGenreAnalytics] *)

Record TagRow : Type := mkTagRow {
  tag : option string;
  occurrences : nat;
  tagRating : option Average }.

(** [$unwind]: one copy of the document for each element of the array. *)
Definition unwind (field : AIRequest -> list (option string)) (docs : list AIRequest)
  : list (option string * AIRequest) :=
  flat_map (fun r => map (fun t => (t, r)) (field r)) docs.

Fixpoint addTag (x : option string * AIRequest) (rows : list TagRow) : list TagRow :=
  match rows with
  | [] => [mkTagRow (fst x) 1 (addRating None (snd x))]
  | g :: rest =>
      if sameKey (tag g) (fst x) then
        mkTagRow (tag g) (S (occurrences g)) (addRating (tagRating g) (snd x)) :: rest
      else g :: addTag x rest
  end.

Definition mostFrequentFirst (a b : TagRow) : bool :=
  (occurrences b <=? occurrences a)%nat.

Definition tagAnalytics (field : AIRequest -> list (option string)) (c : list Entry)
  : list TagRow :=
  sortWith mostFrequentFirst
    (fold_left (fun rows x => addTag x rows)
               (unwind field (map doc (filter succeeded c))) []).

Definition moodAnalytics (c : list Entry) : list TagRow := tagAnalytics extractedMoods c.
Definition genreAnalytics (c : list Entry) : list TagRow := tagAnalytics extractedGenres c.

(** *** The per-user counters of [getAIAnalytics] *)

Record UserStats : Type := mkUserStats {
  totalRequests : nat;
  successfulRequests : nat;
  userRating : option Average;
  totalTracksGenerated : nat }.

Definition userStats (c : list Entry) (userId : nat) : UserStats :=
  let mine := map doc (filter (ownedBy userId) c) in
  mkUserStats
    (List.length mine)
    (List.length (filter (fun r => Status_eqb (status r) completed) mine))
    (fold_left addRating mine None)
    (list_sum (map (fun r => List.length (generatedTracks r)) mine)).

Record Analytics : Type := mkAnalytics {
  ofUser : UserStats;
  popularPrompts : list PromptRow;
  moods : list TagRow;
  genres : list TagRow;
  recentSuccessful : list Entry }.

(** [getAIAnalytics] *)
Definition getAIAnalytics (c : list Entry) (userId : nat) : Analytics :=
  mkAnalytics (userStats c userId) (getPopularPrompts c 10)
    (moodAnalytics c) (genreAnalytics c)
    (firstn 10 (getSuccessfulRequests c 100)).

(** *** [getAIHistory] *)

Record Pagination : Type := mkPagination {
  currentPage : Z;
  totalPages : Z;
  totalRequests_ : Z;
  limit_ : Z }.

(** [Math.ceil(a / b)] for [0 <= a] and [0 < b]. *)
Definition ceilDiv (a b : Z) : Z := ((a + b - 1) / b)%Z.

(** [getAIHistory] for a query whose [page] and [limit], when given, are
    whole numbers from 1 on; other queries are not modelled ([None]). *)
Definition getAIHistory (c : list Entry) (userId : nat) (pageIn limitIn : option Z)
  : option (list Entry * Pagination) :=
  let page := match pageIn with Some p => p | None => 1%Z end in
  let limit := match limitIn with Some l => l | None => 20%Z end in
  if (1 <=? page)%Z && (1 <=? limit)%Z then
    let skip := ((page - 1) * limit)%Z in
    let limitNum := Z.min limit 50 in
    let history := getUserHistory c userId (Z.to_nat limitNum) (Z.to_nat skip) in
    let total := Z.of_nat (List.length (filter (ownedBy userId) c)) in
    Some (history, mkPagination page (ceilDiv total limitNum) total limitNum)
  else None.

(** [POST /api/ai/rate/:requestId] on the collection: the lookup, the
    handler, and the collection after the handler's save.  The handler
    answers 200 when the save went through, and only then is there a
    write; [now] is the date of the rating and [savedAt] the date of the
    save. *)
Definition rate (c : list Entry) (userId id : nat) (now savedAt : Z)
    (ratingIn : Z) (feedbackIn : option string) : Response * list Entry :=
  match postRate (option_map doc (findOne c id userId)) now ratingIn feedbackIn with
  | (Rated stars comment, Some w) =>
      (Rated stars comment,
       match persisted w with
       | Some r => replaceDoc id r savedAt c
       | None => c
       end)
  | (response, _) => (response, c)
  end.

(** The items of one page of the history, and the number of pages that
    its pagination announces. *)
Definition historyPage (c : list Entry) (userId : nat) (limit page : Z) : list Entry :=
  match getAIHistory c userId (Some page) (Some limit) with
  | Some (history, _) => history
  | None => []
  end.

Definition announcedPages (c : list Entry) (userId : nat) (limit : Z) : Z :=
  match getAIHistory c userId (Some 1%Z) (Some limit) with
  | Some (_, pagination) => totalPages pagination
  | None => 0%Z
  end.

(** *** What the rows of the aggregations are compared with *)

Definition sumZ (l : list Z) : Z := fold_right Z.add 0%Z l.

(** The documents that pass the [$match] stage of the aggregations. *)
Definition successes (c : list Entry) : list AIRequest := map doc (filter succeeded c).

(** Those whose normalised prompt is [k], in the order of the collection. *)
Definition promptedAs (k : option string) (docs : list AIRequest) : list AIRequest :=
  filter (fun r => sameKey k (normalizedPrompt r)) docs.

(** The unwound documents whose element is [k]. *)
Definition tagged (k : option string) (xs : list (option string * AIRequest))
  : list (option string * AIRequest) :=
  filter (fun x => sameKey k (fst x)) xs.

(** The documents that carry a rating. *)
Definition rated (docs : list AIRequest) : list Satisfaction :=
  flat_map (fun r => match satisfaction r with Some s => [s] | None => [] end) docs.

(** A row of [getPopularPrompts] summarises the documents of its prompt,
    [docs] being the documents in the order they were delivered: there is
    at least one; [count] is the sum of their [usageCount]s,
    [averageRating] the average of their ratings, [originalPrompt] the
    prompt of the first of them and [lastUsed] the latest of their
    [lastUsed]s. *)
Definition summarises (docs : list AIRequest) (g : PromptRow) : Prop :=
  let same := promptedAs (normalized g) docs in
  same <> []
  /\ count g = sumZ (map usageCount same)
  /\ averageRating g = fold_left addRating same None
  /\ option_map prompt (hd_error same) = Some (originalPrompt g)
  /\ (forall r, In r same -> (lastUsed r <= lastUsedMax g)%Z)
  /\ (exists r, In r same /\ lastUsed r = lastUsedMax g).

(** A row of the mood or genre analytics counts the unwound documents of
    its element and averages their ratings. *)
Definition tallies (xs : list (option string * AIRequest)) (g : TagRow) : Prop :=
  let same := tagged (tag g) xs in
  occurrences g = List.length same
  /\ (1 <= occurrences g)%nat
  /\ tagRating g = fold_left addRating (map snd same) None.

End Collection.

(** The rating of a stored request, when it has one, is from 1 to 5 (the
    [min] and [max] of the schema). *)
Definition ratingInRange (r : AIRequest) : bool :=
  match satisfaction r with
  | Some s => (1 <=? rating s)%Z && (rating s <=? 5)%Z
  | None => true
  end.

(** An average that is [null], or of at least one rating and from 1 to 5. *)
Definition averageInRange (a : option Average) : Prop :=
  match a with
  | None => True
  | Some av => (1 <= over av)%nat
               /\ (Z.of_nat (over av) <= total av <= 5 * Z.of_nat (over av))%Z
  end.

(** *** The time a request took

    The elapsed time that goes with the state of a record of
    [generatePlaylist]: none before the attempt is settled, and from the
    reading of the clock at the start of the attempt to the reading at
    its end after. *)
Definition timed (env : Env) (r : AIRequest) : Prop :=
  processingTime r =
  match status r with
  | pending | processing => 0%Z
  | completed => (completedAt env - processingAt env)%Z
  | failed => (failedAt env - processingAt env)%Z
  end.

Definition timingInv (env : Env) (w : World) : Prop :=
  (forall r, persisted w = Some r -> timed env r)
  /\ timed env (fields (this w))
  /\ processingStartTime (this w) = Some (processingAt env).

(** *** Stored keywords

    A keyword as the setters of the path leave it: in lower case, with no
    white space around it. *)
Definition tidyKeywords (r : AIRequest) : Prop :=
  forall k, In (Some k) (extractedKeywords r) ->
            JS.toLowerCase k = k /\ JS.trim k = k.

Definition tidyInv (w : World) : Prop :=
  (forall r, persisted w = Some r -> tidyKeywords r)
  /\ tidyKeywords (fields (this w)).

(** *** The words of a prompt

    What [normalizePrompt] is compared with: a code unit belongs to a word
    when its lower-case form is one of a-z, 0-9 and the underscore; the
    words of a prompt are its maximal runs of such code units, in lower
    case.  [wordRuns] also lists the empty runs between two neighbouring
    code units that belong to no word. *)

Definition inWord (c : ascii) : bool := isLowerWordChar (JS.toLowerChar c).

Fixpoint wordRuns (s : string) : list string :=
  match s with
  | EmptyString => [EmptyString]
  | String c r =>
      if inWord c then
        match wordRuns r with
        | w :: ws => String (JS.toLowerChar c) w :: ws
        | [] => [String (JS.toLowerChar c) EmptyString]
        end
      else EmptyString :: wordRuns r
  end.

Definition nonEmpty (w : string) : bool := negb (w =? "")%string.

Definition wordsOf (s : string) : list string := filter nonEmpty (wordRuns s).

(** What follows a word in the normal form: nothing, or a space and the
    other words. *)
Definition afterWord (ws : list string) : string :=
  match ws with
  | [] => EmptyString
  | _ :: _ => String " " (String.concat " " ws)
  end.

(** No backquote in the text. *)
Definition noBackquote (s : string) : bool :=
  allChars (fun c => negb (JSON.isChar "`"%char c)) s.

(** The text between a fence that opens with [opening] and one that
    closes it, each on a line of its own. *)
Definition fenced (opening body : string) : string :=
  (opening ++ String JSON.LF body ++ String JSON.LF "```")%string.

(** A small collection: two requests of user 7 with the same normalised
    prompt, both completed with tracks and one of them rated; one request
    of user 8, completed and rated; and a failed request of user 7. *)
Definition sampleStored (u : nat) (p : string) (moods genres : list (option string))
    (tracks : list nat) (s : Status) (rated : option Satisfaction) (uses used : Z)
  : AIRequest :=
  mkAIRequest u p (Some (normalize p)) [] moods genres (JSON.Object []) tracks None
    playlist_generation s 0 EmptyString rated false uses used.

Definition sampleCollection : list Collection.Entry :=
  [ Collection.mkEntry 1 100
      (sampleStored 7 "Rainy day jazz" [Some "calm"; Some "sad"] [Some "jazz"]
         [11; 12] completed (Some (mkSatisfaction 4 "nice" 150)) 2 160);
    Collection.mkEntry 2 200
      (sampleStored 8 "workout" [Some "energetic"] [Some "rock"; None]
         [13] completed (Some (mkSatisfaction 5 EmptyString 250)) 1 200);
    Collection.mkEntry 3 300
      (sampleStored 7 "rainy day JAZZ!" [Some "calm"] [Some "jazz"]
         [12] completed None 1 300);
    Collection.mkEntry 4 400
      (sampleStored 7 "something else" [] [] [] failed None 1 400) ].

(* ------------------------------------------------------------------ *)
(** ** [aiRateLimit] (middleware/auth.js)

    The middleware keeps two properties on the user object of the
    request, [lastAIRequest] and [aiRequestCount], which it sets
    together; [None] is a user object without them.  They are no paths of
    a schema and nothing saves them.  [now] is [new Date()], in
    milliseconds. *)

Record RateState : Type := mkRateState {
  lastAIRequest : Z;
  aiRequestCount : Z }.

Inductive Verdict : Type :=
| CallsNext
| TooManyRequests (retryAfter : Z).

Definition oneHour : Z := 60 * 60 * 1000.

Definition aiRateLimit (now : Z) (u : option RateState) : Verdict * option RateState :=
  match u with
  | None => (CallsNext, Some (mkRateState now 1))
  | Some s =>
      let timeDiff := (now - lastAIRequest s)%Z in
      if (timeDiff <? oneHour)%Z then
        if (10 <=? aiRequestCount s)%Z then
          (TooManyRequests (Collection.ceilDiv (oneHour - timeDiff) (1000 * 60)), u)
        else (CallsNext, Some (mkRateState (lastAIRequest s) (aiRequestCount s + 1)))
      else (CallsNext, Some (mkRateState now 1))
  end.


(* ================================================================== *)
(** * Properties *)

Example normalize_chill : normalize "Chill  Vibes!! " = "chill vibes".
Proof. reflexivity. Qed.

Example parse_object :
  JSON.parse (JSON.lit " {'a': [1, -2.5e3, true, null], 'b': {'c': 'x\ny'}} ")
  = Some (JSON.Object
            [("a", JSON.Array [JSON.Number "1"; JSON.Number "-2.5e3"; JSON.Bool true; JSON.Null]);
             ("b", JSON.Object [("c", JSON.Str (String "x" (String JSON.LF "y")))])]).
Proof. vm_compute. reflexivity. Qed.

Example parse_rejects :
  map JSON.parse ["sure, here is your playlist"; "{"; "[1,]"; "01"; "nul"; JSON.lit "{'a':1} x"; ""]
  = [None; None; None; None; None; None; None].
Proof. vm_compute. reflexivity. Qed.

(* ------------------------------------------------------------------ *)
(** ** Characters *)

Ltac each_char c :=
  destruct c as [[|] [|] [|] [|] [|] [|] [|] [|]].

Lemma lower_word_table (c : ascii) :
  implb (isLowerWordChar c)
        (negb (JS.isWhiteSpace c) && negb (isSpace c) && JS.isWordChar c
         && Ascii.eqb (JS.toLowerChar c) c) = true.
Proof. each_char c; reflexivity. Qed.

Lemma lower_word_facts (c : ascii) :
  isLowerWordChar c = true ->
  JS.isWhiteSpace c = false /\ isSpace c = false /\ JS.isWordChar c = true
  /\ JS.toLowerChar c = c.
Proof.
  intros H. pose proof (lower_word_table c) as T. rewrite H in T. simpl in T.
  repeat (apply andb_prop in T; destruct T as [T ?]).
  repeat split;
    try (apply negb_true_iff; assumption); try assumption.
  now apply Ascii.eqb_eq.
Qed.

Lemma isSpace_eq (c : ascii) : isSpace c = true -> c = " "%char.
Proof. unfold isSpace. apply Ascii.eqb_eq. Qed.

Lemma lowered_char_table (c : ascii) :
  let d := JS.toLowerChar c in
  let e := if JS.isWordChar d || JS.isWhiteSpace d then d else " "%char in
  isLowerWordChar e || JS.isWhiteSpace e = true.
Proof. each_char c; reflexivity. Qed.

(* ------------------------------------------------------------------ *)
(** ** Normalisation yields the canonical form *)

Lemma replaced_chars (s : string) :
  allChars wordOrWhiteSpace (JS.replaceNonWordNonSpace (JS.toLowerCase s)) = true.
Proof.
  unfold JS.replaceNonWordNonSpace, JS.toLowerCase.
  induction s as [|c r IH]; cbn [JS.mapChars allChars]; [reflexivity|].
  rewrite IH, andb_true_r. apply lowered_char_table.
Qed.

Lemma collapse_spaced (u : string) :
  allChars wordOrWhiteSpace u = true ->
  forall inRun,
    spaced (JS.collapseRuns inRun u) = true
    /\ (inRun = true -> startsWithSpace (JS.collapseRuns inRun u) = false).
Proof.
  induction u as [|c r IH]; simpl; intros H inRun.
  - split; reflexivity.
  - apply andb_prop in H. destruct H as [Hc Hr].
    destruct (JS.isWhiteSpace c) eqn:W.
    + destruct (IH Hr true) as [S1 S2].
      destruct inRun; simpl.
      * split; [assumption | intros _; apply S2; reflexivity].
      * rewrite S1, (S2 eq_refl). simpl. rewrite ?orb_true_r. split; [reflexivity | discriminate].
    + unfold wordOrWhiteSpace in Hc. rewrite W, orb_false_r in Hc.
      destruct (IH Hr false) as [S1 _]. simpl. rewrite Hc, S1. simpl.
      split; [reflexivity|]. intros _.
      now destruct (lower_word_facts c Hc) as (_ & ? & _).
Qed.

Lemma trimStart_fixed (s : string) :
  spaced s = true -> startsWithSpace s = false -> JS.trimStart s = s.
Proof.
  destruct s as [|c r]; simpl; intros S N; [reflexivity|].
  apply andb_prop in S. destruct S as [S _]. rewrite N in S. simpl in S.
  rewrite orb_false_r in S.
  destruct (lower_word_facts c S) as (W & _). now rewrite W.
Qed.

Lemma trimStart_spaced (s : string) :
  spaced s = true ->
  spaced (JS.trimStart s) = true /\ startsWithSpace (JS.trimStart s) = false.
Proof.
  destruct s as [|c r]; intros S; [split; reflexivity|].
  pose proof S as S0. simpl in S. apply andb_prop in S. destruct S as [Sc Sr].
  apply orb_prop in Sc. destruct Sc as [L | Sp].
  - destruct (lower_word_facts c L) as (W & N & _).
    simpl. rewrite W. split; [exact S0 | exact N].
  - apply andb_prop in Sp. destruct Sp as [Sp Nr].
    apply negb_true_iff in Nr.
    apply isSpace_eq in Sp. subst c. simpl.
    rewrite (trimStart_fixed r Sr Nr). split; assumption.
Qed.

Lemma trimEnd_word (c : ascii) (r : string) :
  JS.isWhiteSpace c = false -> JS.trimEnd (String c r) = String c (JS.trimEnd r).
Proof. intros W. simpl. now rewrite W. Qed.

Lemma trimEnd_space (r : string) :
  JS.trimEnd (String " " r) =
  if (JS.trimEnd r =? EmptyString)%string then EmptyString
  else String " "%char (JS.trimEnd r).
Proof. reflexivity. Qed.

Lemma canonicalWords_unfold (c : ascii) (r : string) :
  canonicalWords (String c r) = isLowerWordChar c && canonicalRest r.
Proof. destruct r; reflexivity. Qed.

Lemma canonicalRest_word (c : ascii) (r : string) :
  isSpace c = false -> canonicalRest (String c r) = canonicalWords (String c r).
Proof. intros N. unfold canonicalRest. now rewrite N. Qed.

Lemma trimEnd_rest (w : string) :
  spaced w = true -> canonicalRest (JS.trimEnd w) = true.
Proof.
  induction w as [|c r IH]; intros S; [reflexivity|].
  simpl in S. apply andb_prop in S. destruct S as [Sc Sr].
  specialize (IH Sr).
  apply orb_prop in Sc. destruct Sc as [L | Sp].
  - destruct (lower_word_facts c L) as (W & N & _).
    rewrite (trimEnd_word c r W), (canonicalRest_word _ _ N), canonicalWords_unfold.
    now rewrite L, IH.
  - apply andb_prop in Sp. destruct Sp as [Sp Nr]. apply negb_true_iff in Nr.
    apply isSpace_eq in Sp. subst c.
    destruct r as [|d r']; [reflexivity|].
    simpl in Nr. simpl in Sr. apply andb_prop in Sr. destruct Sr as [Sd _].
    rewrite Nr in Sd. simpl in Sd. rewrite orb_false_r in Sd.
    destruct (lower_word_facts d Sd) as (W & N & _).
    rewrite trimEnd_space, (trimEnd_word d r' W). simpl.
    rewrite (trimEnd_word d r' W), (canonicalRest_word _ _ N) in IH. exact IH.
Qed.

Lemma trimEnd_canonical (w : string) :
  spaced w = true -> startsWithSpace w = false -> canonical (JS.trimEnd w) = true.
Proof.
  intros S N. pose proof (trimEnd_rest w S) as R.
  destruct w as [|c r]; [reflexivity|].
  simpl in S, N. apply andb_prop in S. destruct S as [Sc _].
  rewrite N in Sc. simpl in Sc. rewrite orb_false_r in Sc.
  destruct (lower_word_facts c Sc) as (W & _).
  rewrite (trimEnd_word c r W) in R |- *.
  rewrite (canonicalRest_word _ _ N) in R. exact R.
Qed.

Lemma normalize_canonical (s : string) : canonical (normalize s) = true.
Proof.
  unfold normalize, JS.trim, JS.replaceWhiteSpaceRuns.
  destruct (collapse_spaced _ (replaced_chars s) false) as [S _].
  destruct (trimStart_spaced _ S) as [S' N'].
  now apply trimEnd_canonical.
Qed.

(* ------------------------------------------------------------------ *)
(** ** A canonical string is a fixed point of normalisation *)

Lemma canonicalRest_spaced (t : string) :
  canonicalRest t = true -> spaced t = true.
Proof.
  induction t as [|c r IH]; intros R; [reflexivity|].
  unfold canonicalRest in R. destruct (isSpace c) eqn:Sp.
  - destruct r as [|d r']; [discriminate|].
    rewrite canonicalWords_unfold in R. apply andb_prop in R. destruct R as [Ld Rd].
    destruct (lower_word_facts d Ld) as (_ & Nd & _).
    assert (Sr : spaced (String d r') = true).
    { apply IH. rewrite (canonicalRest_word _ _ Nd), canonicalWords_unfold.
      now rewrite Ld, Rd. }
    cbn [spaced] in Sr |- *. rewrite Sr, Sp. cbn [startsWithSpace]. rewrite Nd.
    simpl. now rewrite orb_true_r.
  - rewrite canonicalWords_unfold in R. apply andb_prop in R. destruct R as [Lc Rr].
    cbn [spaced]. now rewrite Lc, (IH Rr).
Qed.

Lemma canonical_rest (t : string) : canonical t = true -> canonicalRest t = true.
Proof.
  destruct t as [|c r]; [reflexivity|]. unfold canonical. intros C.
  pose proof C as C0. rewrite canonicalWords_unfold in C.
  apply andb_prop in C. destruct C as [L _].
  destruct (lower_word_facts c L) as (_ & N & _).
  now rewrite (canonicalRest_word _ _ N).
Qed.

Lemma canonical_start (t : string) : canonical t = true -> startsWithSpace t = false.
Proof.
  destruct t as [|c r]; [reflexivity|]. unfold canonical.
  rewrite canonicalWords_unfold. intros C. apply andb_prop in C. destruct C as [L _].
  now destruct (lower_word_facts c L) as (_ & N & _).
Qed.

Lemma spaced_chars (t : string) :
  spaced t = true -> allChars (fun c => isLowerWordChar c || isSpace c) t = true.
Proof.
  induction t as [|c r IH]; cbn [spaced allChars]; intros S; [reflexivity|].
  apply andb_prop in S. destruct S as [Sc Sr]. rewrite (IH Sr), andb_true_r.
  destruct (isLowerWordChar c); [reflexivity|]. simpl in *.
  now apply andb_prop in Sc.
Qed.

Lemma mapChars_fixed (f : ascii -> ascii) (p : ascii -> bool) (t : string) :
  (forall c, p c = true -> f c = c) ->
  allChars p t = true -> JS.mapChars f t = t.
Proof.
  intros F. induction t as [|c r IH]; cbn [allChars JS.mapChars]; intros A; [reflexivity|].
  apply andb_prop in A. destruct A as [Pc Ar]. now rewrite (F c Pc), (IH Ar).
Qed.

Lemma toLowerCase_fixed (t : string) : spaced t = true -> JS.toLowerCase t = t.
Proof.
  intros S. apply (mapChars_fixed _ _ t) with (2 := spaced_chars t S).
  intros c H. apply orb_prop in H. destruct H as [L | Sp].
  - now destruct (lower_word_facts c L) as (_ & _ & _ & E).
  - apply isSpace_eq in Sp. now subst c.
Qed.

Lemma replaceNonWordNonSpace_fixed (t : string) :
  spaced t = true -> JS.replaceNonWordNonSpace t = t.
Proof.
  intros S. apply (mapChars_fixed _ _ t) with (2 := spaced_chars t S).
  intros c H. apply orb_prop in H. destruct H as [L | Sp].
  - destruct (lower_word_facts c L) as (_ & _ & W & _). now rewrite W.
  - apply isSpace_eq in Sp. now subst c.
Qed.

Lemma collapseRuns_fixed (t : string) :
  spaced t = true ->
  forall inRun, (inRun = true -> startsWithSpace t = false) ->
  JS.collapseRuns inRun t = t.
Proof.
  induction t as [|c r IH]; cbn [spaced JS.collapseRuns]; intros S inRun N; [reflexivity|].
  apply andb_prop in S. destruct S as [Sc Sr].
  apply orb_prop in Sc. destruct Sc as [L | Sp].
  - destruct (lower_word_facts c L) as (W & _). rewrite W.
    now rewrite (IH Sr false) by discriminate.
  - apply andb_prop in Sp. destruct Sp as [Sp Nr]. apply negb_true_iff in Nr.
    pose proof Sp as Sp0. apply isSpace_eq in Sp. subst c.
    change (JS.isWhiteSpace " ") with true. cbv iota.
    destruct inRun.
    + specialize (N eq_refl). cbn [startsWithSpace] in N. congruence.
    + now rewrite (IH Sr true) by (intros _; exact Nr).
Qed.

Lemma trimEnd_fixed (t : string) : canonicalRest t = true -> JS.trimEnd t = t.
Proof.
  induction t as [|c r IH]; intros R; [reflexivity|].
  unfold canonicalRest in R. destruct (isSpace c) eqn:Sp.
  - apply isSpace_eq in Sp. subst c.
    destruct r as [|d r']; [discriminate|].
    pose proof R as R0.
    rewrite canonicalWords_unfold in R. apply andb_prop in R. destruct R as [Ld _].
    destruct (lower_word_facts d Ld) as (_ & Nd & _).
    rewrite trimEnd_space, IH by now rewrite (canonicalRest_word _ _ Nd).
    reflexivity.
  - rewrite canonicalWords_unfold in R. apply andb_prop in R. destruct R as [Lc Rr].
    destruct (lower_word_facts c Lc) as (W & _).
    now rewrite (trimEnd_word c r W), (IH Rr).
Qed.

Lemma normalize_fixed (t : string) : canonical t = true -> normalize t = t.
Proof.
  intros C.
  pose proof (canonical_rest t C) as R.
  pose proof (canonicalRest_spaced t R) as S.
  pose proof (canonical_start t C) as N.
  unfold normalize, JS.trim, JS.replaceWhiteSpaceRuns.
  rewrite (toLowerCase_fixed t S), (replaceNonWordNonSpace_fixed t S).
  rewrite (collapseRuns_fixed t S false) by discriminate.
  rewrite (trimStart_fixed t S N). now apply trimEnd_fixed.
Qed.

Lemma trim_fixed (t : string) : canonical t = true -> JS.trim t = t.
Proof.
  intros C. unfold JS.trim.
  rewrite (trimStart_fixed t (canonicalRest_spaced t (canonical_rest t C))
             (canonical_start t C)).
  apply trimEnd_fixed, canonical_rest, C.
Qed.

(** What the canonical form says, spelled out. *)
Lemma spaced_twoSpaces (t : string) : spaced t = true -> twoSpaces t = false.
Proof.
  induction t as [|c r IH]; cbn [spaced twoSpaces]; intros S; [reflexivity|].
  apply andb_prop in S. destruct S as [Sc Sr]. rewrite (IH Sr), orb_false_r.
  apply orb_prop in Sc. destruct Sc as [L | Sp].
  - destruct (lower_word_facts c L) as (_ & N & _). now rewrite N.
  - apply andb_prop in Sp. destruct Sp as [_ Nr]. apply negb_true_iff in Nr.
    rewrite Nr. apply andb_false_r.
Qed.

Lemma lastChar_cons (c d : ascii) (r : string) :
  lastChar (String c (String d r)) = lastChar (String d r).
Proof. reflexivity. Qed.

Lemma canonicalRest_last (t : string) :
  canonicalRest t = true ->
  forall c, lastChar t = Some c -> isLowerWordChar c = true.
Proof.
  induction t as [|c r IH]; intros R x E; [discriminate|].
  unfold canonicalRest in R. destruct (isSpace c) eqn:Sp.
  - destruct r as [|d r']; [discriminate|].
    pose proof R as R0.
    rewrite canonicalWords_unfold in R. apply andb_prop in R. destruct R as [Ld _].
    destruct (lower_word_facts d Ld) as (_ & Nd & _).
    rewrite lastChar_cons in E. apply IH; [|exact E].
    now rewrite (canonicalRest_word _ _ Nd).
  - rewrite canonicalWords_unfold in R. apply andb_prop in R. destruct R as [Lc Rr].
    destruct r as [|d r'].
    + simpl in E. now injection E as <-.
    + rewrite lastChar_cons in E. now apply IH.
Qed.

Lemma canonical_spelled_out (t : string) :
  canonical t = true ->
  allChars (fun c => isLowerWordChar c || isSpace c) t = true
  /\ twoSpaces t = false
  /\ startsWithSpace t = false
  /\ lastChar t <> Some " "%char
  /\ JS.trim t = t.
Proof.
  intros C.
  pose proof (canonical_rest t C) as R.
  pose proof (canonicalRest_spaced t R) as S.
  repeat split.
  - now apply spaced_chars.
  - now apply spaced_twoSpaces.
  - now apply canonical_start.
  - intros E. now pose proof (canonicalRest_last t R _ E).
  - now apply trim_fixed.
Qed.

(* ------------------------------------------------------------------ *)
(** ** Normalisation: the claims *)

(** C4. Prompt normalisation is idempotent: normalising a normalised
    prompt changes nothing, for every string; and the prompt
    "Chill  Vibes!! " normalises to "chill vibes". *)
Theorem C4_normalize_idempotent :
  (forall s : string, normalize (normalize s) = normalize s)
  /\ normalize "Chill  Vibes!! " = "chill vibes".
Proof.
  split; [|reflexivity].
  intros s. apply normalize_fixed, normalize_canonical.
Qed.

Lemma save_normalizes (w : World) :
  isModified PPrompt (this w) = true ->
  validate (this w) = true ->
  exists r,
    save w = (inr tt, mkWorld (mkDocument r [] [] (processingStartTime (this w))) (Some r))
    /\ prompt r = prompt (fields (this w))
    /\ normalizedPrompt r = Some (normalize (prompt r)).
Proof.
  intros Mo V. unfold save, preSave. rewrite V, Mo.
  eexists. split; [reflexivity|]. cbn. split; [reflexivity|].
  now rewrite trim_fixed by apply normalize_canonical.
Qed.

(** C10. Whenever a save that modifies the prompt goes through, the
    stored normalizedPrompt is the normal form of the stored prompt, and
    that form is canonical: lower-case word characters (a-z, 0-9,
    underscore) and single spaces only, no two spaces in a row, no space
    or other white space at either end.  The pre-save hook is what
    derives it. *)
Theorem C10_stored_prompt_canonical (w w' : World) :
  isModified PPrompt (this w) = true ->
  save w = (inr tt, w') ->
  exists r np,
    persisted w' = Some r
    /\ normalizedPrompt r = Some np
    /\ np = normalize (prompt r)
    /\ canonical np = true
    /\ allChars (fun c => isLowerWordChar c || isSpace c) np = true
    /\ twoSpaces np = false
    /\ startsWithSpace np = false
    /\ lastChar np <> Some " "%char
    /\ JS.trim np = np.
Proof.
  intros Mo E.
  destruct (validate (this w)) eqn:V.
  - destruct (save_normalizes w Mo V) as (r & E' & _ & N).
    rewrite E' in E. injection E as <-.
    exists r, (normalize (prompt r)). cbn.
    pose proof (normalize_canonical (prompt r)) as C.
    destruct (canonical_spelled_out _ C) as (A & B & D & F & G).
    repeat split; assumption.
  - unfold save in E. rewrite V in E. discriminate.
Qed.

Lemma C10_witness :
  exists r np,
    persisted (snd (save (mkWorld (newDocument 1 "Chill  Vibes!! " playlist_generation 0) None)))
    = Some r
    /\ normalizedPrompt r = Some np
    /\ np = normalize (prompt r)
    /\ canonical np = true
    /\ allChars (fun c => isLowerWordChar c || isSpace c) np = true
    /\ twoSpaces np = false
    /\ startsWithSpace np = false
    /\ lastChar np <> Some " "%char
    /\ JS.trim np = np.
Proof.
  apply (C10_stored_prompt_canonical
           (mkWorld (newDocument 1 "Chill  Vibes!! " playlist_generation 0) None));
    vm_compute; reflexivity.
Defined.

(* ------------------------------------------------------------------ *)
(** ** Saving and the lifecycle methods *)

Lemma save_unmodified_prompt (d : Document) (stored : option AIRequest) :
  validate d = true ->
  isModified PPrompt d = false ->
  save (mkWorld d stored)
  = (inr tt, mkWorld (mkDocument (fields d) [] [] (processingStartTime d)) (Some (fields d))).
Proof.
  intros V Mo. unfold save, preSave. cbn [this]. now rewrite V, Mo.
Qed.

Ltac split_cases :=
  repeat match goal with
         | |- context [if ?b then _ else _] => destruct b
         | |- context [match ?x with Some _ => _ | None => _ end] => destruct x
         end;
  cbn; try reflexivity.

Lemma truthy_iff (s : string) : JS.truthy s = true <-> s <> EmptyString.
Proof.
  unfold JS.truthy. rewrite negb_true_iff. split.
  - intros E ->. discriminate.
  - intros N. destruct s; [contradiction | reflexivity].
Qed.

Lemma meetsValidators_eq (r : AIRequest) :
  meetsValidators r
  = ((String.length (prompt r) <=? 500)%nat
     && forallb (enumValidator moodEnum) (extractedMoods r)
     && forallb (enumValidator genreEnum) (extractedGenres r)
     && validatePath r PSatisfaction
     && (1 <=? usageCount r)%Z).
Proof.
  unfold meetsValidators, allPaths.
  cbn [forallb validatePath andb]. rewrite ?andb_true_r, ?andb_assoc. reflexivity.
Qed.

(** The validators read five paths. *)
Lemma meetsValidators_same (r r' : AIRequest) :
  prompt r' = prompt r ->
  extractedMoods r' = extractedMoods r ->
  extractedGenres r' = extractedGenres r ->
  satisfaction r' = satisfaction r ->
  usageCount r' = usageCount r ->
  meetsValidators r' = meetsValidators r.
Proof.
  intros E1 E2 E3 E4 E5. rewrite !meetsValidators_eq. cbn [validatePath].
  now rewrite E1, E2, E3, E4, E5.
Qed.

Lemma setStatus_meets now st msg d :
  meetsValidators (fields (setStatus now st msg d)) = meetsValidators (fields d).
Proof.
  apply meetsValidators_same; unfold setStatus; split_cases.
Qed.

Lemma preSave_meets d :
  meetsValidators (fields (preSave d)) = meetsValidators (fields d).
Proof.
  apply meetsValidators_same; unfold preSave; now destruct (isModified PPrompt d).
Qed.

Lemma setStatus_valid now st msg r start :
  JS.truthy (prompt r) = true ->
  meetsValidators r = true ->
  let d := setStatus now st msg (settled r start) in
  validate d = true /\ isModified PPrompt d = false /\ prompt (fields d) = prompt r.
Proof.
  intros P V d.
  assert (Ep : prompt (fields d) = prompt r) by (unfold d, setStatus; split_cases).
  assert (Ec : castErrors d = []) by (unfold d, setStatus; split_cases).
  assert (Em : isModified PPrompt d = false)
    by (unfold d, setStatus, isModified; split_cases).
  split; [|now split].
  unfold validate. rewrite Ep, P, Ec. unfold d. now rewrite setStatus_meets.
Qed.

Lemma setStatus_status now st msg d : status (fields (setStatus now st msg d)) = st.
Proof.
  unfold setStatus. split_cases.
Qed.

Lemma setStatus_errorMessage now st msg d :
  errorMessage (fields (setStatus now st msg d))
  = if JS.truthy msg then msg else errorMessage (fields d).
Proof.
  unfold setStatus. split_cases.
Qed.

Lemma updateStatus_settled now st msg r start stored :
  JS.truthy (prompt r) = true ->
  meetsValidators r = true ->
  let d := setStatus now st msg (settled r start) in
  updateStatus now st msg (mkWorld (settled r start) stored)
  = (inr tt, mkWorld (settled (fields d) (processingStartTime d)) (Some (fields d))).
Proof.
  intros P M d. destruct (setStatus_valid now st msg r start P M) as (V & Mo & _).
  unfold updateStatus, bind, update. cbn [this persisted].
  now rewrite save_unmodified_prompt.
Qed.

(** A save that is refused changes nothing. *)
Lemma save_refused (w : World) :
  validate (this w) = false -> save w = (inl validationFailed, w).
Proof. intros V. unfold save. now rewrite V. Qed.

(** What a save stores passes the validators and has a prompt. *)
Lemma save_stores_valid (w w' : World) (r : AIRequest) :
  save w = (inr tt, w') -> persisted w' = Some r ->
  meetsValidators r = true /\ prompt r <> EmptyString.
Proof.
  unfold save. destruct (validate (this w)) eqn:V; [|discriminate].
  intros E Er. injection E as <-. cbn [persisted] in Er. injection Er as <-.
  unfold validate in V. apply andb_prop in V as [V M]. apply andb_prop in V as [T _].
  rewrite preSave_meets. split; [exact M|]. apply truthy_iff.
  unfold preSave. now destruct (isModified PPrompt (this w)).
Qed.

(* ------------------------------------------------------------------ *)
(** ** C1: transitions out of a terminal state *)

(** C1, the claim refuted: a completed request is moved back to
    processing by [updateStatus]; the call succeeds and the store has the
    new state. *)
Lemma C1_counterexample :
  status (sampleRequest completed) = completed
  /\ exists w',
       updateStatus 2000 processing EmptyString (loaded (sampleRequest completed))
       = (inr tt, w')
       /\ option_map status (persisted w') = Some processing.
Proof. vm_compute. split; [reflexivity|]. eexists. split; reflexivity. Qed.

(** C1, amended. [updateStatus] checks no transition: for a stored request
    in state completed or failed that passes the validators of the schema
    (as every record that a save has stored does), a call toward any of
    the four states succeeds and stores the target state (with the reason,
    when one is given).  There is no InvalidTransition; the one error of
    the call is the ValidationError of a save, which a stored record that
    fails a validator meets whatever the target, and which leaves the store
    as it was. *)
Theorem C1_terminal_state_is_left
    (r : AIRequest) (start : option Z) (target : Status) (now : Z) (reason : string) :
  status r = completed \/ status r = failed ->
  prompt r <> EmptyString ->
  (meetsValidators r = true ->
   exists r' start',
     updateStatus now target reason (mkWorld (settled r start) (Some r))
     = (inr tt, mkWorld (settled r' start') (Some r'))
     /\ status r' = target
     /\ errorMessage r' = (if JS.truthy reason then reason else errorMessage r))
  /\ (meetsValidators r = false ->
      exists w',
        updateStatus now target reason (mkWorld (settled r start) (Some r))
        = (inl validationFailed, w')
        /\ name validationFailed = ValidationError
        /\ persisted w' = Some r).
Proof.
  intros _ P. apply truthy_iff in P. split; intros M.
  - eexists _, _. split; [now apply updateStatus_settled|].
    split; [apply setStatus_status | apply setStatus_errorMessage].
  - unfold updateStatus, bind, update. cbn [this persisted fst snd].
    rewrite save_refused.
    + eexists. split; [reflexivity|]. split; reflexivity.
    + cbn [this]. unfold validate. rewrite setStatus_meets. cbn [settled fields].
      rewrite M. apply andb_false_r.
Qed.

Lemma C1_witness :
  (exists r' start',
      updateStatus 2000 pending "again"
        (mkWorld (settled (sampleRequest failed) None) (Some (sampleRequest failed)))
      = (inr tt, mkWorld (settled r' start') (Some r'))
      /\ status r' = pending
      /\ errorMessage r' = (if JS.truthy "again" then "again"
                            else errorMessage (sampleRequest failed)))
  /\ exists w',
       updateStatus 2000 processing EmptyString
         (mkWorld (settled (unusedRequest completed) None) (Some (unusedRequest completed)))
       = (inl validationFailed, w')
       /\ name validationFailed = ValidationError
       /\ persisted w' = Some (unusedRequest completed).
Proof.
  split.
  - apply (C1_terminal_state_is_left (sampleRequest failed) None pending 2000 "again").
    + right. reflexivity.
    + discriminate.
    + reflexivity.
  - apply (C1_terminal_state_is_left (unusedRequest completed) None processing 2000 "").
    + left. reflexivity.
    + discriminate.
    + reflexivity.
Defined.

(* ------------------------------------------------------------------ *)
(** ** Creation, and C3: the elapsed time *)

Lemma valid_prompt_bounds (p : string) (nm : option string) :
  generateValidation p nm = [] ->
  (3 <= String.length (JS.trim p) <= 500)%nat.
Proof.
  unfold generateValidation.
  destruct ((3 <=? String.length (JS.trim p))%nat
            && (String.length (JS.trim p) <=? 500)%nat) eqn:B; [|discriminate].
  intros _. apply andb_prop in B. destruct B as [B1 B2].
  apply Nat.leb_le in B1. apply Nat.leb_le in B2. lia.
Qed.

Lemma newDocument_meets (u : nat) (p : string) (k : RequestType) (now : Z) :
  (String.length (JS.trim p) <= 500)%nat ->
  meetsValidators (fields (newDocument u p k now)) = true.
Proof.
  intros Hi. rewrite meetsValidators_eq. cbn. apply Nat.leb_le in Hi. now rewrite Hi.
Qed.

Lemma create_ok (u : nat) (p : string) (k : RequestType) (now : Z) :
  (1 <= String.length (JS.trim p) <= 500)%nat ->
  create u p k now
  = (inr tt, mkWorld (settled (created u p k now) None) (Some (created u p k now))).
Proof.
  intros [Lo Hi]. unfold create, save, preSave, validate.
  cbn [this]. rewrite (newDocument_meets u p k now Hi).
  cbn [newDocument fields modified castErrors prompt isModified
       existsb Path_eqb orb processingStartTime].
  assert (T : JS.truthy (JS.trim p) = true).
  { apply truthy_iff. intros E. rewrite E in Lo. simpl in Lo. lia. }
  rewrite T. reflexivity.
Qed.

Lemma created_meets (u : nat) (p : string) (k : RequestType) (now : Z) :
  (String.length (JS.trim p) <= 500)%nat ->
  meetsValidators (created u p k now) = true.
Proof.
  intros Hi. rewrite <- (newDocument_meets u p k now Hi).
  apply meetsValidators_same; reflexivity.
Qed.

Lemma created_prompt u p k now : prompt (created u p k now) = JS.trim p.
Proof. reflexivity. Qed.

Lemma created_truthy u p k now :
  (1 <= String.length (JS.trim p))%nat -> JS.truthy (prompt (created u p k now)) = true.
Proof.
  intros Lo. rewrite created_prompt. apply truthy_iff. intros E.
  rewrite E in Lo. simpl in Lo. lia.
Qed.

(** C3, the claim refuted: when the clock reads the same millisecond in
    both transitions the elapsed time is 0. *)
Lemma C3_counterexample :
  generateValidation "relaxing summer sunset" None = []
  /\ exists w r,
       createProcessComplete 1 "relaxing summer sunset" 1000 1001 1001 = (inr tt, w)
       /\ persisted w = Some r
       /\ status r = completed
       /\ processingTime r = 0%Z.
Proof. vm_compute. split; [reflexivity|]. eexists _, _. repeat split; reflexivity. Qed.

(** C3, amended. For every valid prompt, create, then the transition to
    processing at clock reading t1, then the transition to completed at
    reading t2 (with 0 < t1 <= t2) ends completed with elapsedMillis equal
    to t2 - t1: never negative, and strictly positive exactly when the two
    readings differ. *)
Theorem C3_elapsed_is_clock_difference (u : nat) (p : string) (t0 t1 t2 : Z) :
  generateValidation p None = [] ->
  (0 < t1)%Z -> (t1 <= t2)%Z ->
  exists w r,
    createProcessComplete u p t0 t1 t2 = (inr tt, w)
    /\ persisted w = Some r
    /\ status r = completed
    /\ processingTime r = (t2 - t1)%Z
    /\ (0 <= processingTime r)%Z
    /\ ((0 < processingTime r)%Z <-> (t1 < t2)%Z).
Proof.
  intros V P1 P2. apply valid_prompt_bounds in V.
  assert (B : (1 <= String.length (JS.trim p) <= 500)%nat) by lia.
  unfold createProcessComplete. rewrite (create_ok u p _ t0 B).
  pose proof (created_truthy u p playlist_generation t0 (proj1 B)) as T.
  pose proof (created_meets u p playlist_generation t0 (proj2 B)) as M.
  unfold bind at 1. rewrite (updateStatus_settled t1 processing EmptyString _ None _ T M).
  set (d1 := setStatus t1 processing EmptyString (settled (created u p playlist_generation t0) None)).
  assert (T1 : JS.truthy (prompt (fields d1)) = true).
  { destruct (setStatus_valid t1 processing EmptyString _ None T M) as (_ & _ & E).
    fold d1 in E. now rewrite E. }
  assert (M1 : meetsValidators (fields d1) = true)
    by (unfold d1; now rewrite setStatus_meets).
  rewrite (updateStatus_settled t2 completed EmptyString _ _ _ T1 M1).
  eexists _, _. split; [reflexivity|]. split; [reflexivity|].
  split; [apply setStatus_status|].
  assert (E : processingTime
                (fields (setStatus t2 completed EmptyString
                           (settled (fields d1) (processingStartTime d1))))
              = (t2 - t1)%Z).
  { subst d1. unfold setStatus, startTimeSet. cbn.
    destruct (t1 =? 0)%Z eqn:Z0; [apply Z.eqb_eq in Z0; lia | reflexivity]. }
  rewrite E. repeat split; lia.
Qed.

Lemma C3_witness :
  exists w r,
    createProcessComplete 1 "relaxing summer sunset" 1000 1001 1005 = (inr tt, w)
    /\ persisted w = Some r
    /\ status r = completed
    /\ processingTime r = (1005 - 1001)%Z
    /\ (0 <= processingTime r)%Z
    /\ ((0 < processingTime r)%Z <-> (1001 < 1005)%Z).
Proof.
  apply (C3_elapsed_is_clock_difference 1 "relaxing summer sunset" 1000 1001 1005).
  - vm_compute. reflexivity.
  - lia.
  - lia.
Defined.

(* ------------------------------------------------------------------ *)
(** ** C5: feedback *)

Lemma meets_rated (r : AIRequest) (s : Satisfaction) :
  meetsValidators (set_satisfaction s r)
  = ((String.length (prompt r) <=? 500)%nat
     && forallb (enumValidator moodEnum) (extractedMoods r)
     && forallb (enumValidator genreEnum) (extractedGenres r)
     && ((1 <=? rating s)%Z && (rating s <=? 5)%Z
         && (String.length (feedback s) <=? 1000)%nat)
     && (1 <=? usageCount r)%Z).
Proof. rewrite meetsValidators_eq. reflexivity. Qed.

Lemma rate_rejected (r : AIRequest) (now stars : Z) (fb : string) :
  (stars < 1 \/ 5 < stars)%Z ->
  exists w',
    rateSatisfaction now stars fb (loaded r) = (inl validationFailed, w')
    /\ persisted w' = Some r.
Proof.
  intros R. unfold rateSatisfaction, bind, update. cbn [fst snd].
  rewrite save_refused; [eexists; split; reflexivity|].
  unfold validate, loaded, settled. cbn [this persisted withFields fields castErrors].
  rewrite meets_rated. cbn [rating feedback].
  assert (E : ((1 <=? stars)%Z && (stars <=? 5)%Z) = false).
  { apply andb_false_iff. destruct R; [left; apply Z.leb_gt | right; apply Z.leb_gt]; lia. }
  rewrite E. cbn [andb]. now rewrite ?andb_false_r.
Qed.

Lemma rate_accepted (r : AIRequest) (now stars : Z) (fb : string) :
  prompt r <> EmptyString ->
  meetsValidators r = true ->
  (1 <= stars <= 5)%Z ->
  (String.length fb <= 1000)%nat ->
  let r' := set_satisfaction (mkSatisfaction stars fb now) r in
  rateSatisfaction now stars fb (loaded r)
  = (inr tt, mkWorld (settled r' None) (Some r'))
  /\ meetsValidators r' = true.
Proof.
  intros P M [Lo Hi] F r'. apply truthy_iff in P.
  assert (M' : meetsValidators r' = true).
  { unfold r'. rewrite meets_rated. rewrite meetsValidators_eq in M.
    repeat (apply andb_prop in M as [M ?]).
    apply Z.leb_le in Lo. apply Z.leb_le in Hi. apply Nat.leb_le in F.
    cbn [rating feedback].
    repeat (apply andb_true_intro; split); assumption. }
  split; [|exact M'].
  unfold rateSatisfaction, bind, update, loaded. cbn [this persisted].
  rewrite save_unmodified_prompt; [reflexivity| |reflexivity].
  unfold validate, settled. cbn [withFields fields castErrors].
  fold r'. rewrite M'. change (prompt r') with (prompt r). now rewrite P.
Qed.

(** C5. A rating outside 1..5 is refused with a validation error, by the
    schema when the method is called and by the validation chain of the
    route, and the stored record is untouched.  For every stored request
    that passes the validators of the schema (as every record that a save
    has stored does), rating it 5 and then rating it 3 leaves the one
    feedback slot holding rating 3, the second comment and the time of the
    second call. *)
Theorem C5_feedback (r : AIRequest) :
  (forall (now rating : Z) (fb : string),
      (rating < 1 \/ 5 < rating)%Z ->
      (exists w',
          rateSatisfaction now rating fb (loaded r) = (inl validationFailed, w')
          /\ name validationFailed = ValidationError
          /\ persisted w' = Some r)
      /\ postRate (Some r) now rating (Some fb)
         = (BadRequest (ratingValidation rating (Some fb)), None))
  /\ (forall (t1 t2 : Z) (fb1 fb2 : string),
         prompt r <> EmptyString ->
         meetsValidators r = true ->
         (String.length fb1 <= 1000)%nat ->
         (String.length fb2 <= 1000)%nat ->
         exists r1 r2,
           rateSatisfaction t1 5 fb1 (loaded r) = (inr tt, loaded r1)
           /\ rateSatisfaction t2 3 fb2 (loaded r1) = (inr tt, loaded r2)
           /\ satisfaction r2 = Some (mkSatisfaction 3 fb2 t2)).
Proof.
  split.
  - intros now rating fb R. split.
    + destruct (rate_rejected r now rating fb R) as (w' & E & S).
      exists w'. repeat split; assumption.
    + unfold postRate, ratePlaylist, ratingValidation.
      assert (E : ((1 <=? rating)%Z && (rating <=? 5)%Z) = false).
      { apply andb_false_iff.
        destruct R; [left; apply Z.leb_gt | right; apply Z.leb_gt]; lia. }
      rewrite E. reflexivity.
  - intros t1 t2 fb1 fb2 P M F1 F2.
    destruct (rate_accepted r t1 5 fb1 P M ltac:(lia) F1) as [E1 M1].
    destruct (rate_accepted (set_satisfaction (mkSatisfaction 5 fb1 t1) r) t2 3 fb2
                P M1 ltac:(lia) F2) as [E2 _].
    eexists _, _. split; [exact E1|]. split; [exact E2 | reflexivity].
Qed.

Lemma C5_witness :
  ((exists w',
       rateSatisfaction 2000 6 "ok" (loaded (sampleRequest completed))
       = (inl validationFailed, w')
       /\ name validationFailed = ValidationError
       /\ persisted w' = Some (sampleRequest completed))
   /\ postRate (Some (sampleRequest completed)) 2000 6 (Some "ok")
      = (BadRequest (ratingValidation 6 (Some "ok")), None))
  /\ exists r1 r2,
       rateSatisfaction 2000 5 "ok" (loaded (sampleRequest completed)) = (inr tt, loaded r1)
       /\ rateSatisfaction 3000 3 "better" (loaded r1) = (inr tt, loaded r2)
       /\ satisfaction r2 = Some (mkSatisfaction 3 "better" 3000).
Proof.
  split.
  - apply (proj1 (C5_feedback (sampleRequest completed)) 2000%Z 6%Z "ok").
    right. lia.
  - apply (proj2 (C5_feedback (sampleRequest completed)) 2000%Z 3000%Z "ok" "better").
    + discriminate.
    + reflexivity.
    + simpl. lia.
    + simpl. lia.
Defined.

(* ------------------------------------------------------------------ *)
(** ** [trim] is idempotent *)

Lemma trimStart_start (s : string) : startsWithWhiteSpace (JS.trimStart s) = false.
Proof.
  induction s as [|c r IH]; [reflexivity|].
  cbn [JS.trimStart]. destruct (JS.isWhiteSpace c) eqn:W; [exact IH|].
  cbn. exact W.
Qed.

Lemma trimStart_same (s : string) :
  startsWithWhiteSpace s = false -> JS.trimStart s = s.
Proof. destruct s as [|c r]; cbn; intros W; [reflexivity | now rewrite W]. Qed.

Lemma trimEnd_start (s : string) :
  startsWithWhiteSpace s = false -> startsWithWhiteSpace (JS.trimEnd s) = false.
Proof.
  destruct s as [|c r]; intros W; [reflexivity|]. cbn in W.
  rewrite (trimEnd_word c r W). exact W.
Qed.

Lemma trimEnd_idempotent (s : string) : JS.trimEnd (JS.trimEnd s) = JS.trimEnd s.
Proof.
  induction s as [|c r IH]; [reflexivity|].
  cbn [JS.trimEnd].
  destruct (JS.isWhiteSpace c && (JS.trimEnd r =? EmptyString)%string) eqn:B;
    [reflexivity|].
  cbn [JS.trimEnd]. now rewrite IH, B.
Qed.

Lemma trim_idempotent (s : string) : JS.trim (JS.trim s) = JS.trim s.
Proof.
  unfold JS.trim.
  rewrite (trimStart_same (JS.trimEnd (JS.trimStart s)))
    by apply trimEnd_start, trimStart_start.
  apply trimEnd_idempotent.
Qed.

(* ------------------------------------------------------------------ *)
(** ** C2: a failed analysis is recorded *)

Lemma attempt_fails (env : Env) (e : Exn) (req : GenerateRequest) (w : World) :
  analysisFails env e -> attempt env req w = (inl e, w).
Proof.
  intros [e' R | text R _ U]; unfold attempt, bind.
  - now rewrite R.
  - rewrite R. cbn. unfold parseGeminiResponse. now rewrite U.
Qed.

Lemma generate_begins (env : Env) (u : nat) (p : string) (nm : option string)
    (sv : option bool) (k : M Response) :
  generateValidation p nm = [] ->
  let d := inProcess env u p in
  (updateStatus (processingAt env) processing EmptyString ;; k)
    (mkWorld (settled (created u p playlist_generation (createdAt env)) None)
             (Some (created u p playlist_generation (createdAt env))))
  = k (mkWorld (settled (fields d) (processingStartTime d)) (Some (fields d)))
  /\ JS.truthy (prompt (fields d)) = true
  /\ status (fields d) = processing.
Proof.
  intros V d. apply valid_prompt_bounds in V.
  assert (T : JS.truthy (prompt (created u p playlist_generation (createdAt env))) = true)
    by (apply created_truthy; lia).
  assert (M : meetsValidators (created u p playlist_generation (createdAt env)) = true)
    by (apply created_meets; lia).
  split; [|split].
  - unfold bind at 1. now rewrite (updateStatus_settled _ _ _ _ None _ T M).
  - destruct (setStatus_valid (processingAt env) processing EmptyString _ None T M)
      as (_ & _ & E). unfold d, inProcess. now rewrite E.
  - apply setStatus_status.
Qed.

Lemma inProcess_meets (env : Env) (u : nat) (p : string) (nm : option string) :
  generateValidation p nm = [] ->
  meetsValidators (fields (inProcess env u p)) = true.
Proof.
  intros V. apply valid_prompt_bounds in V.
  unfold inProcess. rewrite setStatus_meets. cbn [settled fields].
  apply created_meets. lia.
Qed.

Lemma postGenerate_valid (env : Env) (u : nat) (p : string) (nm : option string)
    (sv : option bool) :
  generateValidation p nm = [] ->
  let d := inProcess env u p in
  postGenerate env u p nm sv
  = match tryCatch (attempt env (mkGenerateRequest [] u (JS.trim p) (option_map JS.trim nm) sv))
            (fun aiError =>
               updateStatus (failedAt env) failed (message aiError) ;;
               ret (ServerError "Failed to generate AI playlist"))
            (mkWorld (settled (fields d) (processingStartTime d)) (Some (fields d))) with
    | (inr response, w) => (response, Some w)
    | (inl e, w) => (Next e, Some w)
    end.
Proof.
  intros V d. pose proof (valid_prompt_bounds p nm V) as B.
  unfold postGenerate, generatePlaylist. rewrite V.
  cbn [validationErrors reqUser bodyPrompt].
  assert (E : create u (JS.trim (JS.trim p)) playlist_generation (createdAt env)
              = create u p playlist_generation (createdAt env)).
  { unfold create, newDocument. now rewrite !trim_idempotent. }
  rewrite E, (create_ok u p _ _) by lia.
  now rewrite (proj1 (generate_begins env u p nm sv _ V)).
Qed.

(** C2, the claim refuted: the call rejects with an error whose message is
    empty; the record ends failed, and its failure reason is empty. *)
Lemma C2_counterexample :
  analysisFails (sampleEnv (Rejects (mkExn Error EmptyString))) (mkExn Error EmptyString)
  /\ exists response w r,
       postGenerate (sampleEnv (Rejects (mkExn Error EmptyString))) 1
         "relaxing summer sunset" None None = (response, Some w)
       /\ persisted w = Some r
       /\ status r = failed
       /\ errorMessage r = EmptyString.
Proof.
  split; [now constructor|]. vm_compute. eexists _, _, _. repeat split; reflexivity.
Qed.

(** C2, amended. For every generation attempt on a valid prompt in which
    the generative call rejects or its text does not parse, the record
    that was created ends in state failed, never in processing, and its
    failure reason is the message of the error: the fixed text "Failed to
    parse AI response" for unparseable output, and otherwise whatever
    message the call rejected with, so it is non-empty whenever that
    message is. *)
Theorem C2_failed_analysis_recorded (env : Env) (u : nat) (p : string)
    (nm : option string) (sv : option bool) (e : Exn) :
  generateValidation p nm = [] ->
  analysisFails env e ->
  exists w r,
    postGenerate env u p nm sv = (ServerError "Failed to generate AI playlist", Some w)
    /\ persisted w = Some r
    /\ fields (this w) = r
    /\ status r = failed
    /\ errorMessage r = message e
    /\ (message e <> EmptyString -> errorMessage r <> EmptyString).
Proof.
  intros V F.
  destruct (generate_begins env u p nm sv (ret NotFound) V) as (_ & T & _).
  rewrite (postGenerate_valid env u p nm sv V).
  unfold tryCatch. rewrite (attempt_fails env e _ _ F).
  unfold bind at 1.
  rewrite (updateStatus_settled _ _ _ _ _ _ T (inProcess_meets env u p nm V)).
  cbn [ret].
  eexists _, _. split; [reflexivity|]. split; [reflexivity|]. split; [reflexivity|].
  split; [apply setStatus_status|].
  assert (E : errorMessage
                (fields (setStatus (failedAt env) failed (message e)
                           (settled (fields (inProcess env u p))
                                    (processingStartTime (inProcess env u p)))))
              = message e).
  { rewrite setStatus_errorMessage. unfold JS.truthy.
    destruct (message e) as [|c m]; reflexivity. }
  rewrite E. split; [reflexivity | auto].
Qed.

Lemma C2_witness :
  exists w r,
    postGenerate (sampleEnv (Responds "Sure! Here is a playlist for you.")) 1
      "relaxing summer sunset" None None
    = (ServerError "Failed to generate AI playlist", Some w)
    /\ persisted w = Some r
    /\ fields (this w) = r
    /\ status r = failed
    /\ errorMessage r = message (mkExn Error "Failed to parse AI response")
    /\ (message (mkExn Error "Failed to parse AI response") <> EmptyString ->
        errorMessage r <> EmptyString).
Proof.
  apply (C2_failed_analysis_recorded
           (sampleEnv (Responds "Sure! Here is a playlist for you.")) 1
           "relaxing summer sunset" None None).
  - vm_compute. reflexivity.
  - apply (text_unparseable _ "Sure! Here is a playlist for you.");
      vm_compute; reflexivity.
Defined.

(* ------------------------------------------------------------------ *)
(** ** Invariants of a generation attempt

    An invariant that the primitive steps of [generatePlaylist] preserve
    holds of what the handler leaves behind. *)

Section Invariant.

Variable I : World -> Prop.

Lemma preserves_ret {A} (a : A) : preserves I (ret a).
Proof. intros w H. exact H. Qed.

Lemma preserves_throw {A} (e : Exn) : preserves I (@throw A e).
Proof. intros w H. exact H. Qed.

Lemma preserves_bind {A B} (m : M A) (k : A -> M B) :
  preserves I m -> (forall a, preserves I (k a)) -> preserves I (bind m k).
Proof.
  intros Pm Pk w H. unfold bind. specialize (Pm w H).
  destruct (m w) as [[e|a] w']; cbn in *; [exact Pm | now apply Pk].
Qed.

Lemma preserves_tryCatch {A} (body : M A) (handler : Exn -> M A) :
  preserves I body -> (forall e, preserves I (handler e)) ->
  preserves I (tryCatch body handler).
Proof.
  intros Pb Ph w H. unfold tryCatch. specialize (Pb w H).
  destruct (body w) as [[e|a] w']; cbn in *; [now apply Ph | exact Pb].
Qed.

Lemma preserves_compileAll env keywords : preserves I (compileAll env keywords).
Proof.
  induction keywords as [|k r IH]; cbn [compileAll]; [apply preserves_ret|].
  destruct (regExp env k); [|apply preserves_throw].
  apply preserves_bind; [exact IH | intros; apply preserves_ret].
Qed.

Lemma preserves_castQuery env raw : preserves I (castQuery env raw).
Proof.
  unfold castQuery. destruct (castArray env lower raw);
    [apply preserves_ret | apply preserves_throw].
Qed.

Lemma preserves_buildSearchCriteria env moods genres keywords :
  preserves I (buildSearchCriteria env moods genres keywords).
Proof.
  unfold buildSearchCriteria.
  repeat (apply preserves_bind; [|intros]);
    try match goal with |- preserves _ (if ?b then _ else _) => destruct b end;
    repeat (apply preserves_bind; [|intros]);
    auto using preserves_ret, preserves_castQuery, preserves_compileAll.
Qed.

Lemma preserves_getProperty v k : preserves I (getProperty v k).
Proof. destruct v; cbn; auto using preserves_ret, preserves_throw. Qed.

Hypothesis keeps_save : preserves I save.
Hypothesis keeps_setStatus : forall now st msg, preserves I (update (setStatus now st msg)).
Hypothesis keeps_moods : forall env raw,
  preserves I (update (assignStrings env PExtractedMoods lower set_extractedMoods raw)).
Hypothesis keeps_genres : forall env raw,
  preserves I (update (assignStrings env PExtractedGenres lower set_extractedGenres raw)).
Hypothesis keeps_keywords : forall env raw,
  preserves I (update (assignStrings env PExtractedKeywords lowerTrim set_extractedKeywords raw)).
Hypothesis keeps_geminiResponse : forall v,
  preserves I (update (withFields (set_geminiResponse v) PGeminiResponse)).
Hypothesis keeps_generatedTracks : forall v,
  preserves I (update (withFields (set_generatedTracks v) PGeneratedTracks)).
Hypothesis keeps_generatedPlaylist : forall v,
  preserves I (update (withFields (set_generatedPlaylist v) PGeneratedPlaylist)).
Hypothesis holds_new : forall u p k now, I (mkWorld (newDocument u p k now) None).

Lemma preserves_updateStatus now st msg : preserves I (updateStatus now st msg).
Proof.
  unfold updateStatus. apply preserves_bind; [apply keeps_setStatus|].
  intros _. apply keeps_save.
Qed.

Lemma preserves_attempt env req : preserves I (attempt env req).
Proof.
  unfold attempt.
  apply preserves_bind;
    [destruct (generateContent env); auto using preserves_ret, preserves_throw|].
  intros text. apply preserves_bind;
    [unfold parseGeminiResponse; destruct (JSON.parse _);
     auto using preserves_ret, preserves_throw|].
  intros geminiData.
  do 3 (apply preserves_bind; [apply preserves_getProperty | intros]).
  apply preserves_bind; [apply keeps_moods|intros _].
  apply preserves_bind; [apply keeps_genres|intros _].
  apply preserves_bind; [apply keeps_keywords|intros _].
  apply preserves_bind; [apply keeps_geminiResponse|intros _].
  apply preserves_bind; [apply keeps_save|intros _].
  apply preserves_bind; [apply preserves_buildSearchCriteria|intros q].
  apply preserves_bind; [apply keeps_generatedTracks|intros _].
  apply preserves_bind; [apply preserves_updateStatus|intros _].
  apply preserves_bind; [|intros; apply preserves_ret].
  destruct (_ && _); [|apply preserves_ret].
  destruct (createPlaylist env _); [apply preserves_throw|].
  apply preserves_bind; [apply keeps_generatedPlaylist|intros _].
  apply preserves_bind; [apply keeps_save | intros; apply preserves_ret].
Qed.

Lemma generatePlaylist_invariant (env : Env) (req : GenerateRequest) :
  match snd (generatePlaylist env req) with
  | Some w => I w
  | None => True
  end.
Proof.
  unfold generatePlaylist. destruct (validationErrors req); [|exact Logic.I].
  unfold create.
  pose proof (keeps_save _ (holds_new (reqUser req) (JS.trim (bodyPrompt req))
                              playlist_generation (createdAt env))) as I0.
  destruct (save _) as [[e|[]] w0]; cbn [snd] in *; [exact Logic.I|].
  match goal with
  | |- context [bind ?m ?k w0] =>
      assert (P : preserves I (bind m k))
  end.
  { apply preserves_bind; [apply preserves_updateStatus|intros _].
    apply preserves_tryCatch; [apply preserves_attempt|].
    intros e. apply preserves_bind; [apply preserves_updateStatus|].
    intros; apply preserves_ret. }
  specialize (P w0 I0).
  destruct (bind _ _ w0) as [[e|response] w]; exact P.
Qed.

End Invariant.

(* ------------------------------------------------------------------ *)
(** ** C6: only listed moods and genres reach the store *)

Lemma forallb_validatePath (r : AIRequest) (p : Path) (l : list Path) :
  forallb (validatePath r) l = true ->
  existsb (Path_eqb p) l = true ->
  validatePath r p = true.
Proof.
  induction l as [|q l IH]; cbn; intros V E; [discriminate|].
  apply andb_prop in V. destruct V as [Vq Vl].
  apply orb_prop in E. destruct E as [E | E]; [|now apply IH].
  destruct p, q; try discriminate; exact Vq.
Qed.

Lemma meets_listed (r : AIRequest) :
  meetsValidators r = true -> moodsListed r = true /\ genresListed r = true.
Proof.
  rewrite meetsValidators_eq. intros M.
  repeat (apply andb_prop in M as [M ?]). now split.
Qed.

Lemma listed_save : preserves listedInv save.
Proof.
  intros [d stored] (Is & Im & Ig). unfold save. cbn [this persisted] in *.
  destruct (validate d) eqn:V; cbn [snd]; unfold listedInv; cbn [this persisted fields modified].
  - unfold validate in V. apply andb_prop in V. destruct V as [_ V].
    rewrite <- preSave_meets in V. destruct (meets_listed _ V) as [M' G'].
    split; [|split; intros _; assumption].
    intros r E. injection E as <-. unfold vocabularyOnly.
    unfold moodsListed in M'. unfold genresListed in G'. now rewrite M', G'.
  - split; [exact Is | split; assumption].
Qed.

Lemma listed_withFields (f : AIRequest -> AIRequest) (p : Path) :
  (p = PExtractedMoods \/ forall r, extractedMoods (f r) = extractedMoods r) ->
  (p = PExtractedGenres \/ forall r, extractedGenres (f r) = extractedGenres r) ->
  preserves listedInv (update (withFields f p)).
Proof.
  intros Fm Fg [d stored] (Is & Im & Ig). unfold update, listedInv, isModified in *.
  cbn [snd this persisted withFields fields modified existsb] in *.
  split; [exact Is|]. split; intros E; apply orb_false_iff in E; destruct E as [Ep Ed].
  - destruct Fm as [-> | Fm]; [discriminate|].
    unfold moodsListed. rewrite Fm. now apply Im.
  - destruct Fg as [-> | Fg]; [discriminate|].
    unfold genresListed. rewrite Fg. now apply Ig.
Qed.

Lemma listed_same_fields (f : Document -> Document) :
  (forall d, fields (f d) = fields d /\ modified (f d) = modified d) ->
  preserves listedInv (update f).
Proof.
  intros F [d stored] (Is & Im & Ig). destruct (F d) as [Ef Em].
  unfold update, listedInv, isModified in *. cbn [snd this persisted] in *.
  rewrite Ef, Em. split; [exact Is | split; assumption].
Qed.

Lemma listed_setStatus now st msg : preserves listedInv (update (setStatus now st msg)).
Proof.
  intros [d stored] (Is & Im & Ig).
  unfold update, listedInv, isModified, setStatus in *. cbn [snd this persisted] in *.
  split; [exact Is|].
  split; intros E; split_cases;
    repeat match goal with
           | H : context [if ?b then _ else _] |- _ => destruct b
           | H : context [match ?x with Some _ => _ | None => _ end] |- _ => destruct x
           end;
    cbn in *; auto.
Qed.

Lemma listed_assignStrings env p setter store raw :
  (p = PExtractedMoods \/ forall v r, extractedMoods (store v r) = extractedMoods r) ->
  (p = PExtractedGenres \/ forall v r, extractedGenres (store v r) = extractedGenres r) ->
  preserves listedInv (update (assignStrings env p setter store raw)).
Proof.
  intros Fm Fg. unfold assignStrings.
  destruct (castArray env setter raw) as [vs|].
  - apply listed_withFields; [destruct Fm | destruct Fg]; auto.
  - apply listed_same_fields. intros d. split; reflexivity.
Qed.

Lemma generatePlaylist_listed (env : Env) (req : GenerateRequest) :
  match snd (generatePlaylist env req) with
  | Some w => listedInv w
  | None => True
  end.
Proof.
  apply generatePlaylist_invariant;
    intros; try (apply listed_assignStrings; auto); try (apply listed_withFields; auto).
  - apply listed_save.
  - apply listed_setStatus.
  - split; [discriminate | split; reflexivity].
Qed.

Lemma enumValidator_listed (vals : list string) (l : list (option string)) :
  forallb (enumValidator vals) l = true ->
  forall s, In (Some s) l -> In s vals.
Proof.
  intros F s H. rewrite forallb_forall in F. specialize (F _ H). cbn in F.
  apply existsb_exists in F. destruct F as (x & Hx & E).
  apply String.eqb_eq in E. now subst x.
Qed.

Lemma enumValidator_element (vals : list string) (l : list (option string)) :
  forallb (enumValidator vals) l = true ->
  forall x, In x l -> x = None \/ exists s, x = Some s /\ In s vals.
Proof.
  intros F [s|] H; [right | now left].
  exists s. split; [reflexivity|]. now apply (enumValidator_listed vals l).
Qed.

(** What the enum validators of the schema guarantee, whatever the
    analyzer returns: every element that the record of a generation
    attempt holds in the store in extractedMoods is [null] or one of the
    12 listed moods, and every element of its extractedGenres is [null] or
    one of the 14 listed genres.  Every save runs the validators, and
    these let [null] pass; no string outside the lists is stored. *)
Theorem only_listed_strings_stored (env : Env) (req : GenerateRequest)
    (response : Response) (w : World) (r : AIRequest) :
  generatePlaylist env req = (response, Some w) ->
  persisted w = Some r ->
  (forall x, In x (extractedMoods r) ->
             x = None \/ exists s, x = Some s /\ In s moodEnum)
  /\ (forall x, In x (extractedGenres r) ->
                x = None \/ exists s, x = Some s /\ In s genreEnum)
  /\ vocabularyOnly r = true
  /\ (forall s, In (Some s) (extractedMoods r) -> In s moodEnum)
  /\ (forall s, In (Some s) (extractedGenres r) -> In s genreEnum)
  /\ List.length moodEnum = 12%nat
  /\ List.length genreEnum = 14%nat.
Proof.
  intros E S. pose proof (generatePlaylist_listed env req) as I.
  rewrite E in I. cbn in I. destruct I as (Is & _).
  pose proof (Is r S) as V.
  unfold vocabularyOnly in V. apply andb_prop in V. destruct V as [Vm Vg].
  split; [now apply enumValidator_element|].
  split; [now apply enumValidator_element|].
  split; [unfold vocabularyOnly; now rewrite Vm, Vg|].
  split; [now apply enumValidator_listed|].
  split; [now apply enumValidator_listed|].
  split; reflexivity.
Qed.

Lemma only_listed_strings_stored_witness :
  exists response w r,
    generatePlaylist (sampleEnv (Responds fencedResponse))
      (mkGenerateRequest [] 1 "relaxing summer sunset" None None)
    = (response, Some w)
    /\ persisted w = Some r
    /\ extractedMoods r = [Some "happy"]
    /\ ((forall x, In x (extractedMoods r) ->
                   x = None \/ exists s, x = Some s /\ In s moodEnum)
        /\ (forall x, In x (extractedGenres r) ->
                      x = None \/ exists s, x = Some s /\ In s genreEnum)
        /\ vocabularyOnly r = true
        /\ (forall s, In (Some s) (extractedMoods r) -> In s moodEnum)
        /\ (forall s, In (Some s) (extractedGenres r) -> In s genreEnum)
        /\ List.length moodEnum = 12%nat
        /\ List.length genreEnum = 14%nat).
Proof.
  assert (E : generatePlaylist (sampleEnv (Responds fencedResponse))
                (mkGenerateRequest [] 1 "relaxing summer sunset" None None)
              = fencedOutcome) by (vm_compute; reflexivity).
  unfold fencedOutcome in E.
  eexists _, _, _. split; [exact E|]. split; [reflexivity|]. split; [reflexivity|].
  exact (only_listed_strings_stored _ _ _ _ _ E eq_refl).
Defined.

(** C6, where the code departs from it.  The analyzer answers with a
    [null] among the moods and as the only genre.  The enum validators of
    the schema, which refuse every string outside the lists, let [null]
    pass, and nothing in the handler drops it: the attempt is answered 200,
    the record is completed, and the store holds the [null]s, which are
    no values of the vocabulary. *)
Theorem C6_null_element_stored :
  enumValidator moodEnum None = true
  /\ enumValidator genreEnum None = true
  /\ exists tracks playlist moods genres keywords w r,
       postGenerate
         (sampleEnv
            (Responds (JSON.lit "{'moods':[null,'happy'],'genres':[null],'keywords':[]}")))
         1 "relaxing summer sunset" None None
       = (Generated tracks playlist moods genres keywords, Some w)
       /\ persisted w = Some r
       /\ status r = completed
       /\ extractedMoods r = [None; Some "happy"%string]
       /\ extractedGenres r = [None]
       /\ ~ (forall x, In x (extractedMoods r) -> exists s, x = Some s /\ In s moodEnum)
       /\ ~ (forall x, In x (extractedGenres r) -> exists s, x = Some s /\ In s genreEnum).
Proof.
  split; [reflexivity|]. split; [reflexivity|].
  vm_compute. eexists _, _, _, _, _, _, _. split; [reflexivity|]. split; [reflexivity|].
  split; [reflexivity|]. split; [reflexivity|]. split; [reflexivity|].
  split; intros H; destruct (H None (or_introl eq_refl)) as (s & E & _); discriminate.
Qed.

(** An analysis that names a mood outside the list: the save is refused,
    the stored moods stay empty; the handler's own save is refused for the
    same reason, so the error goes to the error middleware and the stored
    record is still in state processing. *)
Remark unlisted_mood_not_stored :
  exists w r,
    postGenerate (sampleEnv (Responds (JSON.lit "{'moods':['chill'],'genres':['pop']}"))) 1
      "relaxing summer sunset" None None
    = (Next validationFailed, Some w)
    /\ persisted w = Some r
    /\ extractedMoods r = []
    /\ extractedGenres r = []
    /\ status r = processing.
Proof. vm_compute. eexists _, _. repeat split; reflexivity. Qed.

Lemma methods_listed (now : Z) :
  preserves listedInv (markAsUsed now)
  /\ (forall stars comment, preserves listedInv (rateSatisfaction now stars comment))
  /\ (forall st msg, preserves listedInv (updateStatus now st msg)).
Proof.
  split; [|split; intros].
  - unfold markAsUsed.
    repeat (apply preserves_bind; [apply listed_withFields; auto | intros _]).
    apply listed_save.
  - unfold rateSatisfaction.
    apply preserves_bind; [apply listed_withFields; auto | intros _].
    apply listed_save.
  - apply preserves_updateStatus; [apply listed_save | apply listed_setStatus].
Qed.

(* ------------------------------------------------------------------ *)
(** ** The normalised prompt stays canonical

    Beyond the save that derives it (C10): no later step of an attempt,
    and none of the methods of the model, stores another value. *)

Lemma canonical_save : preserves canonicalInv save.
Proof.
  intros [d stored] (Is & Im). unfold save. cbn [this persisted] in *.
  destruct (validate d); cbn [snd]; unfold canonicalInv; cbn [this persisted fields].
  - assert (F : forall np, normalizedPrompt (fields (preSave d)) = Some np ->
                           canonical np = true).
    { unfold preSave. destruct (isModified PPrompt d); [|exact Im].
      cbn. intros np E. injection E as <-.
      rewrite trim_fixed; apply normalize_canonical. }
    split; [|exact F]. intros r np E. injection E as <-. apply F.
  - split; assumption.
Qed.

Lemma canonical_withFields (f : AIRequest -> AIRequest) (p : Path) :
  (forall r, normalizedPrompt (f r) = normalizedPrompt r) ->
  preserves canonicalInv (update (withFields f p)).
Proof.
  intros F [d stored] (Is & Im). unfold update, canonicalInv in *.
  cbn [snd this persisted withFields fields] in *.
  split; [exact Is|]. intros np. rewrite F. apply Im.
Qed.

Lemma canonical_same_fields (f : Document -> Document) :
  (forall d, fields (f d) = fields d) -> preserves canonicalInv (update f).
Proof.
  intros F [d stored] (Is & Im). unfold update, canonicalInv in *.
  cbn [snd this persisted] in *. rewrite F. split; assumption.
Qed.

Lemma canonical_setStatus now st msg :
  preserves canonicalInv (update (setStatus now st msg)).
Proof.
  intros [d stored] (Is & Im). unfold update, canonicalInv in *.
  cbn [snd this persisted] in *. split; [exact Is|].
  assert (E : normalizedPrompt (fields (setStatus now st msg d))
              = normalizedPrompt (fields d))
    by (unfold setStatus; split_cases).
  now rewrite E.
Qed.

Lemma canonical_assignStrings env p setter store raw :
  (forall v r, normalizedPrompt (store v r) = normalizedPrompt r) ->
  preserves canonicalInv (update (assignStrings env p setter store raw)).
Proof.
  intros F. unfold assignStrings. destruct (castArray env setter raw) as [vs|].
  - apply canonical_withFields. intros r. apply F.
  - apply canonical_same_fields. reflexivity.
Qed.

Lemma generatePlaylist_canonical (env : Env) (req : GenerateRequest) :
  match snd (generatePlaylist env req) with
  | Some w => canonicalInv w
  | None => True
  end.
Proof.
  apply generatePlaylist_invariant;
    intros; try (apply canonical_assignStrings; reflexivity);
    try (apply canonical_withFields; reflexivity).
  - apply canonical_save.
  - apply canonical_setStatus.
  - split; [discriminate | cbn; discriminate].
Qed.

Lemma methods_canonical (now : Z) :
  preserves canonicalInv (markAsUsed now)
  /\ (forall stars comment, preserves canonicalInv (rateSatisfaction now stars comment))
  /\ (forall st msg, preserves canonicalInv (updateStatus now st msg)).
Proof.
  split; [|split; intros].
  - unfold markAsUsed.
    repeat (apply preserves_bind;
            [apply canonical_withFields; reflexivity | intros _]).
    apply canonical_save.
  - unfold rateSatisfaction.
    apply preserves_bind; [apply canonical_withFields; reflexivity | intros _].
    apply canonical_save.
  - apply preserves_updateStatus; [apply canonical_save | apply canonical_setStatus].
Qed.

(* ------------------------------------------------------------------ *)
(** ** Lists: the shuffle, the sort, prefixes *)

Lemma removeAt_length {A} (l : list A) (i : nat) :
  (i < List.length l)%nat -> S (List.length (removeAt i l)) = List.length l.
Proof.
  revert i. induction l as [|x r IH]; intros i H; cbn in *; [lia|].
  destruct i; cbn; [reflexivity|]. rewrite IH; [reflexivity | lia].
Qed.

Lemma nth_removeAt {A} (l : list A) (i : nat) (d : A) :
  (i < List.length l)%nat -> Permutation (nth i l d :: removeAt i l) l.
Proof.
  revert i. induction l as [|x r IH]; intros i H; cbn in *; [lia|].
  destruct i; cbn; [reflexivity|].
  rewrite perm_swap. constructor. apply IH. lia.
Qed.

Lemma arrange_permutation {A} (n : nat) :
  forall (picks : list nat) (l : list A),
    List.length l = n -> Permutation (arrange n picks l) l.
Proof.
  induction n as [|n IH]; intros picks l L.
  - destruct l; [reflexivity | discriminate].
  - destruct l as [|x r]; [discriminate|].
    cbn [arrange].
    set (i := Nat.modulo (hd 0%nat picks) (List.length (x :: r))).
    assert (Hi : (i < List.length (x :: r))%nat)
      by (apply Nat.mod_upper_bound; discriminate).
    apply (Permutation_trans (l' := nth i (x :: r) x :: removeAt i (x :: r)));
      [|now apply nth_removeAt].
    constructor. apply IH.
    pose proof (removeAt_length (x :: r) i Hi) as E. rewrite L in E. lia.
Qed.

Lemma shuffle_permutation {A} (picks : list nat) (l : list A) :
  Permutation (shuffle picks l) l.
Proof. now apply arrange_permutation. Qed.

Lemma insertBy_permutation before x l : Permutation (insertBy before x l) (x :: l).
Proof.
  induction l as [|y r IH]; cbn; [reflexivity|].
  destruct (before x y); [reflexivity|].
  rewrite IH. apply perm_swap.
Qed.

Lemma sortBy_permutation before l : Permutation (sortBy before l) l.
Proof.
  induction l as [|x r IH]; cbn; [reflexivity|].
  rewrite insertBy_permutation. now constructor.
Qed.

Section Sorting.

Variable before : Track -> Track -> bool.
Hypothesis before_total : forall a b, before a b = false -> before b a = true.

Let R (a b : Track) : Prop := before a b = true.

Lemma insertBy_sorted x l : Sorted R l -> Sorted R (insertBy before x l).
Proof.
  induction l as [|y r IH]; cbn; intros S.
  - repeat constructor.
  - destruct (before x y) eqn:B.
    + constructor; [exact S | constructor; exact B].
    + inversion S as [|? ? Sr Hy]; subst. constructor; [now apply IH|].
      destruct r as [|z r']; cbn.
      * constructor. now apply before_total.
      * destruct (before x z) eqn:B'.
        -- constructor. now apply before_total.
        -- inversion Hy; subst. now constructor.
Qed.

Lemma sortBy_sorted l : Sorted R (sortBy before l).
Proof.
  induction l as [|x r IH]; cbn; [constructor | now apply insertBy_sorted].
Qed.

Hypothesis before_trans :
  forall a b c, before a b = true -> before b c = true -> before a c = true.

Lemma sortBy_strongly_sorted l : StronglySorted R (sortBy before l).
Proof.
  apply Sorted_StronglySorted; [|apply sortBy_sorted].
  intros a b c. apply before_trans.
Qed.

Lemma prefix_before_rest l k x y :
  StronglySorted R l -> In x (firstn k l) -> In y (skipn k l) -> before x y = true.
Proof.
  revert k. induction l as [|a r IH]; intros k S Hx Hy.
  - rewrite firstn_nil in Hx. contradiction.
  - destruct k as [|k]; [contradiction|]. cbn in Hx, Hy.
    inversion S as [|? ? Sr Fa]; subst.
    destruct Hx as [<- | Hx].
    + rewrite Forall_forall in Fa. apply Fa. rewrite <- (firstn_skipn k r).
      apply in_or_app. now right.
    + now apply (IH k).
Qed.

End Sorting.

Lemma byPopularity_total a b : byPopularity a b = false -> byPopularity b a = true.
Proof. unfold byPopularity. intros H. apply Z.leb_gt in H. apply Z.leb_le. lia. Qed.

Lemma byPopularity_trans a b c :
  byPopularity a b = true -> byPopularity b c = true -> byPopularity a c = true.
Proof. unfold byPopularity. rewrite !Z.leb_le. lia. Qed.

Lemma byPopularityThenPlays_total a b :
  byPopularityThenPlays a b = false -> byPopularityThenPlays b a = true.
Proof.
  unfold byPopularityThenPlays. intros H.
  apply orb_false_iff in H. destruct H as [H1 H2]. apply Z.ltb_ge in H1.
  destruct (popularity a <? popularity b)%Z eqn:L; [reflexivity|].
  apply Z.ltb_ge in L. assert (E : popularity a = popularity b) by lia.
  rewrite E, Z.eqb_refl in *. cbn in *. apply Z.leb_gt in H2. apply Z.leb_le. lia.
Qed.

Lemma in_firstn {A} (n : nat) (l : list A) (x : A) : In x (firstn n l) -> In x l.
Proof.
  intros H. rewrite <- (firstn_skipn n l). apply in_or_app. now left.
Qed.

(* ------------------------------------------------------------------ *)
(** ** The matcher *)

Lemma matches_activeOnly (t : Track) : matches activeOnly t = isActive t.
Proof. unfold matches, activeOnly. cbn. destruct (isActive t); reflexivity. Qed.

Lemma filter_activeOnly (l : list Track) : filter (matches activeOnly) l = filter isActive l.
Proof. apply filter_ext. exact matches_activeOnly. Qed.

Lemma find_activeOnly (tracks : list Track) order n :
  find tracks activeOnly order n = firstn n (sortBy order (filter isActive tracks)).
Proof. unfold find. now rewrite filter_activeOnly. Qed.

Lemma find_sound (tracks : list Track) (q : SearchCriteria) order n t :
  In t (find tracks q order n) -> In t tracks /\ matches q t = true.
Proof.
  unfold find. intros H. apply in_firstn in H.
  apply (Permutation_in _ (sortBy_permutation order _)) in H.
  now apply filter_In in H.
Qed.

Lemma matches_active (q : SearchCriteria) (t : Track) :
  crit_isActive q = true -> matches q t = true -> isActive t = true.
Proof.
  unfold matches. intros A M. apply andb_prop in M. destruct M as [M _].
  rewrite A in M. now destruct (isActive t).
Qed.

Lemma candidatePool_sound (env : Env) (q : SearchCriteria) (t : Track) :
  crit_isActive q = true ->
  In t (candidatePool env q) -> In t (catalog env) /\ isActive t = true.
Proof.
  intros A. unfold candidatePool.
  destruct (List.length _ <? 10)%nat; intros H.
  - apply in_app_or in H. destruct H as [H | H]; apply find_sound in H;
      destruct H as [H M]; split; try assumption.
    + now apply (matches_active q).
    + now rewrite matches_activeOnly in M.
  - apply find_sound in H. destruct H as [H M]. split; [assumption|].
    now apply (matches_active q).
Qed.

Lemma shuffledTracks_drawn (env : Env) (q : SearchCriteria) :
  exists rest, Permutation (shuffledTracks env q ++ rest)%list (candidatePool env q).
Proof.
  exists (skipn 20 (shuffle (picks env) (candidatePool env q))).
  unfold shuffledTracks. rewrite firstn_skipn. apply shuffle_permutation.
Qed.

Lemma shuffledTracks_sound (env : Env) (q : SearchCriteria) (t : Track) :
  crit_isActive q = true ->
  In t (shuffledTracks env q) -> In t (catalog env) /\ isActive t = true.
Proof.
  intros A H. unfold shuffledTracks in H. apply in_firstn in H.
  apply (Permutation_in _ (shuffle_permutation _ _)) in H.
  now apply candidatePool_sound in H.
Qed.

Lemma buildSearchCriteria_empty (env : Env) (w : World) :
  buildSearchCriteria env [] [] [] w = (inr activeOnly, w).
Proof. reflexivity. Qed.

Lemma buildSearchCriteria_active (env : Env) moods genres keywords w q w' :
  buildSearchCriteria env moods genres keywords w = (inr q, w') ->
  crit_isActive q = true /\ w' = w.
Proof.
  unfold buildSearchCriteria, bind, castQuery, ret, throw.
  destruct (0 <? List.length moods)%nat;
    [destruct (castArray env lower moods); [|discriminate]|];
    (destruct (0 <? List.length genres)%nat;
     [destruct (castArray env lower genres); [|discriminate]|]);
    (destruct (0 <? List.length keywords)%nat;
     [destruct (compileAll env keywords w) as [[e|rs] w1] eqn:C; [discriminate|]|]);
    intros E; injection E as <- <-; (split; [reflexivity|]);
    try reflexivity.
  all: clear -C; revert rs w1 C;
    induction keywords as [|k r IH]; cbn [compileAll]; intros rs w1 C;
    [now injection C|];
    destruct (regExp env k); [|discriminate];
    unfold bind, ret in C;
    destruct (compileAll env r w) as [[e|rs'] w2] eqn:C'; [discriminate|];
    injection C as _ <-; now apply (IH rs').
Qed.

(** C7, the claim refuted: with empty criteria on a catalog of two active
    tracks, the tracks returned are not in popularity order (and each
    comes twice, the fallback having added the same two again). *)
Lemma C7_counterexample :
  exists tracks playlist w,
    postGenerate (sampleEnv (Responds "{}")) 1 "relaxing summer sunset" None None
    = (Generated tracks playlist [] [] [], Some w)
    /\ map trackId tracks = [1; 2; 1; 2]%nat
    /\ map popularity tracks = [5; 3; 5; 3]%Z
    /\ descending tracks = false.
Proof. vm_compute. eexists _, _, _. repeat split; reflexivity. Qed.

(** C7, amended. With empty moods, genres and keywords the search has no
    disjunction (its only condition is active = true) and building it
    never fails; the candidates are the 50 active tracks that come first
    by popularity, then play count (followed by the popularity fallback
    when they are fewer than 10); what is returned is at most 20 tracks
    drawn from those candidates, each an active track of the catalog, in
    the order the shuffle gives them. *)
Theorem C7_empty_criteria (env : Env) (w : World) :
  let active := filter isActive (catalog env) in
  let ranked := sortBy byPopularityThenPlays active in
  let out := shuffledTracks env activeOnly in
  buildSearchCriteria env [] [] [] w = (inr activeOnly, w)
  /\ crit_or activeOnly = None
  /\ (forall t, matches activeOnly t = isActive t)
  /\ find (catalog env) activeOnly byPopularityThenPlays 50 = firstn 50 ranked
  /\ Sorted (fun a b => byPopularityThenPlays a b = true) ranked
  /\ Permutation ranked active
  /\ (List.length out <= 20)%nat
  /\ (forall t, In t out -> In t (catalog env) /\ isActive t = true)
  /\ (exists rest, Permutation (out ++ rest)%list (candidatePool env activeOnly)).
Proof.
  cbv zeta. repeat split.
  - exact matches_activeOnly.
  - apply find_activeOnly.
  - apply sortBy_sorted. exact byPopularityThenPlays_total.
  - apply sortBy_permutation.
  - apply firstn_le_length.
  - now apply (shuffledTracks_sound env activeOnly t).
  - now apply (shuffledTracks_sound env activeOnly t).
  - apply shuffledTracks_drawn.
Qed.

Lemma C7_witness :
  let env := sampleEnv (Responds "{}") in
  let t := sampleTrack 2 "rock" ["energetic"] 3 true in
  In t (shuffledTracks env activeOnly) /\ In t (catalog env) /\ isActive t = true.
Proof.
  cbv zeta.
  assert (H : In (sampleTrack 2 "rock" ["energetic"] 3 true)
                 (shuffledTracks (sampleEnv (Responds "{}")) activeOnly))
    by (vm_compute; right; left; reflexivity).
  split; [exact H|].
  destruct (C7_empty_criteria (sampleEnv (Responds "{}"))
              (loaded (sampleRequest processing)))
    as (_ & _ & _ & _ & _ & _ & _ & sound & _).
  exact (sound _ H).
Defined.

(** C8. For every catalog and every criteria the search is built from:
    at most 20 tracks are returned; each of them is an active track of the
    catalog, drawn from the pool of candidates; when the primary search
    yields fewer than 10 candidates the pool is those candidates followed,
    with no deduplication, by the most popular active tracks, as many as
    bring the pool to 20 or as the catalog has; otherwise the pool is the
    primary candidates alone. *)
Theorem C8_match_bounds (env : Env) (moods genres keywords : list JSON.value)
    (w w' : World) (q : SearchCriteria) :
  buildSearchCriteria env moods genres keywords w = (inr q, w') ->
  let primary := find (catalog env) q byPopularityThenPlays 50 in
  let popular := sortBy byPopularity (filter isActive (catalog env)) in
  let fallback := firstn (20 - List.length primary) popular in
  let pool := candidatePool env q in
  let out := shuffledTracks env q in
  (List.length out <= 20)%nat
  /\ (forall t, In t out -> In t (catalog env) /\ isActive t = true)
  /\ (exists rest, Permutation (out ++ rest)%list pool)
  /\ ((List.length primary < 10)%nat ->
      pool = (primary ++ fallback)%list
      /\ List.length pool = Nat.min 20 (List.length primary + List.length popular)
      /\ (forall t f, In t (catalog env) -> isActive t = true -> In f fallback ->
                      In t fallback \/ (popularity t <= popularity f)%Z))
  /\ ((10 <= List.length primary)%nat -> pool = primary).
Proof.
  intros B. apply buildSearchCriteria_active in B. destruct B as [A _].
  cbv zeta. split; [apply firstn_le_length|].
  split; [intros t; now apply shuffledTracks_sound|].
  split; [apply shuffledTracks_drawn|].
  split.
  - intros L. unfold candidatePool.
    apply Nat.ltb_lt in L. rewrite L. apply Nat.ltb_lt in L.
    split; [|split].
    + now rewrite find_activeOnly.
    + rewrite find_activeOnly, length_app, length_firstn. lia.
    + intros t f Ht At Hf.
      set (popular := sortBy byPopularity (filter isActive (catalog env))) in *.
      set (k := (20 - List.length (find (catalog env) q byPopularityThenPlays 50))%nat) in *.
      assert (Hp : In t popular).
      { apply (Permutation_in _ (Permutation_sym (sortBy_permutation _ _))).
        apply filter_In. now split. }
      rewrite <- (firstn_skipn k popular) in Hp. apply in_app_or in Hp.
      destruct Hp as [Hp | Hp]; [now left | right].
      apply Z.leb_le.
      apply (prefix_before_rest byPopularity popular k f t); try assumption.
      apply sortBy_strongly_sorted;
        [exact byPopularity_total | exact byPopularity_trans].
  - intros L. unfold candidatePool.
    apply Nat.ltb_ge in L. now rewrite L.
Qed.

Lemma C8_witness :
  let env := sampleEnv (Responds fencedResponse) in
  let q := mkSearchCriteria true (Some [MoodIn [Some "relaxing"]]) in
  let primary := find (catalog env) q byPopularityThenPlays 50 in
  let popular := sortBy byPopularity (filter isActive (catalog env)) in
  let fallback := firstn (20 - List.length primary) popular in
  let pool := candidatePool env q in
  let out := shuffledTracks env q in
  (map trackId primary = [1]%nat /\ map trackId out = [1; 1; 2]%nat)
  /\ (List.length out <= 20)%nat
  /\ (forall t, In t out -> In t (catalog env) /\ isActive t = true)
  /\ (exists rest, Permutation (out ++ rest)%list pool)
  /\ ((List.length primary < 10)%nat ->
      pool = (primary ++ fallback)%list
      /\ List.length pool = Nat.min 20 (List.length primary + List.length popular)
      /\ (forall t f, In t (catalog env) -> isActive t = true -> In f fallback ->
                      In t fallback \/ (popularity t <= popularity f)%Z))
  /\ ((10 <= List.length primary)%nat -> pool = primary).
Proof.
  cbv zeta. split; [split; vm_compute; reflexivity|].
  apply (C8_match_bounds (sampleEnv (Responds fencedResponse))
           [JSON.Str "Relaxing"] [] []
           (loaded (sampleRequest processing)) (loaded (sampleRequest processing))).
  vm_compute. reflexivity.
Defined.

(* ------------------------------------------------------------------ *)
(** ** C9: reading the generative response *)

(** The fenced response of the design document: the fences go, the JSON
    parses, and the three sequences are read off it. *)
Example fenced_response_parsed :
  cleanText fencedResponse
  = JSON.lit "{'moods':['happy'],'genres':[],'keywords':['party']}"
  /\ JSON.parse (cleanText fencedResponse)
     = Some (JSON.Object [("moods", JSON.Array [JSON.Str "happy"]);
                          ("genres", JSON.Array []);
                          ("keywords", JSON.Array [JSON.Str "party"])])
  /\ exists tracks playlist w,
       postGenerate (sampleEnv (Responds fencedResponse)) 1
         "relaxing summer sunset" None None
       = (Generated tracks playlist [JSON.Str "happy"] [] [JSON.Str "party"], Some w).
Proof.
  vm_compute. split; [reflexivity|]. split; [reflexivity|]. eexists _, _, _. reflexivity.
Qed.

(** On every payload but [null], a key that is missing or does not hold
    an array reads as the empty sequence, and an array reads as itself. *)
Lemma fields_coerced (geminiData : JSON.value) (k : string) (w : World) :
  geminiData <> JSON.Null ->
  exists x,
    getProperty geminiData k w = (inr x, w)
    /\ ((forall l, x <> Some (JSON.Array l)) -> arrayOrEmpty x = [])
    /\ (forall l, x = Some (JSON.Array l) -> arrayOrEmpty x = l).
Proof.
  intros N.
  assert (C : forall x : option JSON.value,
             ((forall l, x <> Some (JSON.Array l)) -> arrayOrEmpty x = [])
             /\ (forall l, x = Some (JSON.Array l) -> arrayOrEmpty x = l)).
  { intros x. split.
    - intros H. destruct x as [[]|]; try reflexivity. now destruct (H elements).
    - intros l ->. reflexivity. }
  destruct geminiData; try contradiction; eexists; (split; [reflexivity | apply C]).
Qed.

(** C9, where the code departs from it.  The response [null] is valid
    JSON; its payload has none of the three keys, yet nothing is coerced
    to the empty sequence: reading [moods] throws a TypeError, and the
    attempt ends as a failure with that error as its reason. *)
Theorem C9_null_payload_not_coerced :
  JSON.parse (cleanText "null") = Some JSON.Null
  /\ (forall w : World,
         getProperty JSON.Null "moods" w
         = (inl (mkExn TypeError "Cannot read properties of null (reading 'moods')"), w))
  /\ exists w r,
       postGenerate (sampleEnv (Responds "null")) 1 "relaxing summer sunset" None None
       = (ServerError "Failed to generate AI playlist", Some w)
       /\ persisted w = Some r
       /\ status r = failed
       /\ errorMessage r = "Cannot read properties of null (reading 'moods')".
Proof.
  vm_compute. split; [reflexivity|]. split; [reflexivity|].
  eexists _, _. repeat split; reflexivity.
Qed.

(* ================================================================== *)
(** * Further properties of the code *)

(* ------------------------------------------------------------------ *)
(** ** Rules for pre- and postconditions *)

Lemma triple_ret {A} (P : World -> Prop) (a : A) Q E :
  (forall w, P w -> Q a w) -> triple P (ret a) Q E.
Proof. intros H w Pw. cbn. now apply H. Qed.

Lemma triple_throw {A} (P : World -> Prop) (e : Exn) (Q : A -> World -> Prop) E :
  (forall w, P w -> E e w) -> triple P (throw e) Q E.
Proof. intros H w Pw. cbn. now apply H. Qed.

Lemma triple_bind {A B} (P : World -> Prop) (m : M A) (k : A -> M B)
    (R : A -> World -> Prop) (Q : B -> World -> Prop) (E : Exn -> World -> Prop) :
  triple P m R E -> (forall a, triple (R a) (k a) Q E) -> triple P (bind m k) Q E.
Proof.
  intros Hm Hk w Pw. unfold bind. specialize (Hm w Pw).
  destruct (m w) as [[e|a] w']; [exact Hm | now apply Hk].
Qed.

Lemma triple_tryCatch {A} (P : World -> Prop) (body : M A) (handler : Exn -> M A)
    (Q : A -> World -> Prop) (F E : Exn -> World -> Prop) :
  triple P body Q F -> (forall e, triple (F e) (handler e) Q E) ->
  triple P (tryCatch body handler) Q E.
Proof.
  intros Hb Hh w Pw. unfold tryCatch. specialize (Hb w Pw).
  destruct (body w) as [[e|a] w']; [now apply Hh | exact Hb].
Qed.

Lemma triple_weaken {A} (P P' : World -> Prop) (m : M A)
    (Q Q' : A -> World -> Prop) (E E' : Exn -> World -> Prop) :
  triple P' m Q' E' ->
  (forall w, P w -> P' w) ->
  (forall a w, Q' a w -> Q a w) ->
  (forall e w, E' e w -> E e w) ->
  triple P m Q E.
Proof.
  intros H HP HQ HE w Pw. specialize (H w (HP w Pw)).
  destruct (m w) as [[e|a] w']; [now apply HE | now apply HQ].
Qed.

Lemma triple_pure {A} (P : World -> Prop) (m : M A) :
  pure m -> triple P m (fun _ => P) (fun _ => P).
Proof.
  intros Hp w Pw. specialize (Hp w).
  destruct (m w) as [[e|a] w']; cbn in Hp; now subst w'.
Qed.

Lemma triple_update (P : World -> Prop) (f : Document -> Document)
    (Q : unit -> World -> Prop) E :
  (forall w, P w -> Q tt (mkWorld (f (this w)) (persisted w))) ->
  triple P (update f) Q E.
Proof. intros H w Pw. cbn. now apply H. Qed.

Lemma pure_ret {A} (a : A) : pure (ret a).
Proof. intros w. reflexivity. Qed.

Lemma pure_throw {A} (e : Exn) : pure (@throw A e).
Proof. intros w. reflexivity. Qed.

Lemma pure_bind {A B} (m : M A) (k : A -> M B) :
  pure m -> (forall a, pure (k a)) -> pure (bind m k).
Proof.
  intros Hm Hk w. unfold bind. specialize (Hm w).
  destruct (m w) as [[e|a] w']; cbn in Hm; subst w'; [reflexivity | apply Hk].
Qed.

Lemma pure_compileAll env keywords : pure (compileAll env keywords).
Proof.
  induction keywords as [|k r IH]; cbn [compileAll]; [apply pure_ret|].
  destruct (regExp env k); [|apply pure_throw].
  apply pure_bind; [exact IH | intros; apply pure_ret].
Qed.

Lemma pure_castQuery env raw : pure (castQuery env raw).
Proof.
  unfold castQuery. destruct (castArray env lower raw); [apply pure_ret | apply pure_throw].
Qed.

Lemma pure_buildSearchCriteria env moods genres keywords :
  pure (buildSearchCriteria env moods genres keywords).
Proof.
  unfold buildSearchCriteria.
  repeat (apply pure_bind; [|intros]);
    try match goal with |- pure (if ?b then _ else _) => destruct b end;
    repeat (apply pure_bind; [|intros]);
    auto using pure_ret, pure_castQuery, pure_compileAll.
Qed.

Lemma pure_getProperty v k : pure (getProperty v k).
Proof. destruct v; cbn; auto using pure_ret, pure_throw. Qed.

Lemma pure_parseGeminiResponse text : pure (parseGeminiResponse text).
Proof.
  unfold parseGeminiResponse. destruct (JSON.parse _); [apply pure_ret | apply pure_throw].
Qed.

(* ------------------------------------------------------------------ *)
(** ** What a save and a status update leave behind *)

Lemma preSave_keeps (d : Document) :
  status (fields (preSave d)) = status (fields d)
  /\ prompt (fields (preSave d)) = prompt (fields d)
  /\ generatedTracks (fields (preSave d)) = generatedTracks (fields d)
  /\ generatedPlaylist (fields (preSave d)) = generatedPlaylist (fields d)
  /\ errorMessage (fields (preSave d)) = errorMessage (fields d)
  /\ processingTime (fields (preSave d)) = processingTime (fields d).
Proof. unfold preSave. destruct (isModified PPrompt d); repeat split; reflexivity. Qed.

Lemma save_accepts (w : World) :
  validate (this w) = true ->
  exists w',
    save w = (inr tt, w')
    /\ persisted w' = Some (fields (this w'))
    /\ modified (this w') = []
    /\ castErrors (this w') = []
    /\ fields (this w') = fields (preSave (this w)).
Proof.
  intros V. unfold save. rewrite V. eexists. repeat split; reflexivity.
Qed.

Lemma save_refuses (w : World) :
  validate (this w) = false ->
  exists w',
    save w = (inl validationFailed, w')
    /\ persisted w' = persisted w
    /\ fields (this w') = fields (this w).
Proof.
  intros V. unfold save. rewrite V. eexists. repeat split; reflexivity.
Qed.

Lemma setStatus_keeps now st msg (d : Document) :
  prompt (fields (setStatus now st msg d)) = prompt (fields d)
  /\ generatedTracks (fields (setStatus now st msg d)) = generatedTracks (fields d)
  /\ generatedPlaylist (fields (setStatus now st msg d)) = generatedPlaylist (fields d)
  /\ castErrors (setStatus now st msg d) = castErrors d.
Proof. unfold setStatus. split_cases; repeat split; reflexivity. Qed.

(** A status update on a document that has no cast error pending and
    passes the validators cannot be refused. *)
Lemma setStatus_validates now st msg (d : Document) :
  JS.truthy (prompt (fields d)) = true ->
  castErrors d = [] ->
  meetsValidators (fields d) = true ->
  validate (setStatus now st msg d) = true.
Proof.
  intros T C M. unfold validate.
  destruct (setStatus_keeps now st msg d) as (Ep & _ & _ & Ec).
  now rewrite Ep, T, Ec, C, setStatus_meets, M.
Qed.

Lemma validate_meets (d : Document) :
  validate d = true -> meetsValidators (fields d) = true.
Proof. unfold validate. intros V. now apply andb_prop in V as [_ V]. Qed.

Lemma inSync_settled (st : Status) (w : World) :
  inSync st w ->
  this w = settled (fields (this w)) (processingStartTime (this w)).
Proof.
  intros (_ & Mo & C & _). destruct w as [[r m c s] stored]. cbn in *. now subst.
Qed.

Lemma triple_save (stored held : Status) :
  triple (pendingWrite stored held) save
         (fun _ w => inSync held w)
         (fun _ w => pendingWrite stored held w).
Proof.
  intros w ((r & Er & Sr) & H & T).
  destruct (validate (this w)) eqn:V.
  - destruct (save_accepts w V) as (w' & E & A & B & C & F). rewrite E.
    destruct (preSave_keeps (this w)) as (Es & Ep & _).
    unfold inSync. split; [exact A|]. split; [exact B|]. split; [exact C|].
    rewrite F, Es, Ep, preSave_meets. split; [assumption|]. split; [assumption|].
    now apply validate_meets.
  - destruct (save_refuses w V) as (w' & E & A & F). rewrite E.
    unfold pendingWrite. rewrite A, F. split; [now exists r | now split].
Qed.

Lemma triple_save_unlinked (stored held : Status) :
  triple (fun w => pendingWrite stored held w /\ unlinked w) save
         (fun _ w => inSync held w /\ unlinked w)
         (fun _ w => pendingWrite stored held w /\ unlinked w).
Proof.
  intros w (Pw & U). pose proof (triple_save stored held w Pw) as H.
  unfold unlinked in *.
  destruct (validate (this w)) eqn:V.
  - destruct (save_accepts w V) as (w' & E & _ & _ & _ & F). rewrite E in *.
    split; [exact H|]. rewrite F.
    now destruct (preSave_keeps (this w)) as (_ & _ & _ & -> & _).
  - destruct (save_refuses w V) as (w' & E & _ & F). rewrite E in *.
    split; [exact H|]. now rewrite F.
Qed.

(** An update that keeps state, prompt and playlist of the document. *)
Lemma triple_keep (stored held : Status) (f : Document -> Document) E :
  (forall d, status (fields (f d)) = status (fields d)
             /\ prompt (fields (f d)) = prompt (fields d)
             /\ generatedPlaylist (fields (f d)) = generatedPlaylist (fields d)) ->
  triple (fun w => pendingWrite stored held w /\ unlinked w) (update f)
         (fun _ w => pendingWrite stored held w /\ unlinked w) E.
Proof.
  intros F. apply triple_update. intros w ((R & H & T) & U).
  destruct (F (this w)) as (Es & Ep & El).
  unfold pendingWrite, unlinked in *. cbn [this persisted].
  rewrite Es, Ep, El. repeat split; assumption.
Qed.

Lemma assignStrings_keeps env p setter store raw :
  (forall v r, status (store v r) = status r
               /\ prompt (store v r) = prompt r
               /\ generatedPlaylist (store v r) = generatedPlaylist r) ->
  forall d,
    status (fields (assignStrings env p setter store raw d)) = status (fields d)
    /\ prompt (fields (assignStrings env p setter store raw d)) = prompt (fields d)
    /\ generatedPlaylist (fields (assignStrings env p setter store raw d))
       = generatedPlaylist (fields d).
Proof.
  intros S d. unfold assignStrings. destruct (castArray env setter raw) as [vs|].
  - cbn. apply S.
  - cbn. repeat split; reflexivity.
Qed.

Lemma triple_pure_in {A} (P : World -> Prop) (E : Exn -> World -> Prop) (m : M A) :
  pure m -> (forall w, P w -> forall e, E e w) -> triple P m (fun _ => P) E.
Proof.
  intros Hp PE. eapply triple_weaken; [apply (triple_pure P), Hp | auto | auto |].
  intros e w Pw. now apply PE.
Qed.

Lemma inSync_pending (st : Status) (w : World) : inSync st w -> pendingWrite st st w.
Proof.
  intros (A & _ & _ & S & T & _). split; [|now split].
  exists (fields (this w)). now split.
Qed.

Lemma triple_updateStatus_tracks (ids : list nat) (now : Z) :
  triple (tracksAssigned ids) (updateStatus now completed EmptyString)
         (fun _ w => recorded ids None w) (fun _ _ => False).
Proof.
  intros w ((_ & _ & T) & U & Mo & C & G & M).
  unfold updateStatus, bind, update. cbn [fst snd].
  set (w1 := mkWorld (setStatus now completed EmptyString (this w)) (persisted w)).
  assert (V : validate (this w1) = true)
    by (now apply setStatus_validates).
  destruct (save_accepts w1 V) as (w' & E & A & B & D & F). rewrite E.
  destruct (preSave_keeps (this w1)) as (Es & Ep & Et & El & _).
  destruct (setStatus_keeps now completed EmptyString (this w)) as (Kp & Kt & Kl & _).
  unfold recorded, inSync.
  split; [split; [exact A|]; split; [exact B|]; split; [exact D|]|];
    rewrite F, ?Es, ?Ep, ?Et, ?El, ?preSave_meets; cbn [this w1];
    rewrite ?setStatus_status, ?Kp, ?Kt, ?Kl, ?setStatus_meets; repeat split; assumption.
Qed.

Lemma triple_link (env : Env) (req : GenerateRequest) (shuffled : list Track) (ids : list nat) :
  triple (recorded ids None)
    (if match bodySavePlaylist req with Some b => b | None => true end
        && (0 <? List.length shuffled)%nat
     then
       match createPlaylist env shuffled with
       | inr id =>
           update (withFields (set_generatedPlaylist id) PGeneratedPlaylist) ;;
           save ;;
           ret (Some id)
       | inl e => throw e
       end
     else ret None)
    (fun playlist w => recorded ids playlist w)
    (fun _ w => inSync completed w).
Proof.
  destruct (_ && _); [|apply triple_ret; auto].
  destruct (createPlaylist env shuffled) as [e|id].
  - apply triple_throw. now intros w (S & _).
  - intros w ((A & Mo & C & S & T & M) & G & L).
    unfold bind, update. cbn [fst snd].
    set (w1 := mkWorld (withFields (set_generatedPlaylist id) PGeneratedPlaylist (this w))
                       (persisted w)).
    assert (M1 : meetsValidators (fields (this w1)) = true).
    { rewrite <- M. apply meetsValidators_same; reflexivity. }
    assert (V : validate (this w1) = true).
    { unfold validate. rewrite M1. cbn [this w1 withFields fields castErrors].
      change (prompt (set_generatedPlaylist id (fields (this w))))
        with (prompt (fields (this w))).
      now rewrite T, C. }
    destruct (save_accepts w1 V) as (w' & E & A' & B & D & F). rewrite E.
    cbn [bind ret fst snd].
    destruct (preSave_keeps (this w1)) as (Es & Ep & Et & El & _).
    unfold recorded, inSync.
    split; [split; [exact A'|]; split; [exact B|]; split; [exact D|]|];
      rewrite F, ?Es, ?Ep, ?Et, ?El, ?preSave_meets, ?M1; cbn [this w1 withFields fields];
      repeat split; assumption.
Qed.

(** The inner [try], from a record just marked processing: it answers
    with the tracks it recorded as completed, or it throws, leaving the
    store with the record in processing or already completed. *)
Lemma triple_attempt (env : Env) (req : GenerateRequest) :
  triple (fun w => inSync processing w /\ unlinked w) (attempt env req)
    (fun response w =>
       exists tracks playlist m g k,
         response = Generated tracks playlist m g k
         /\ recorded (map trackId tracks) playlist w
         /\ (List.length tracks <= 20)%nat)
    (fun _ w => pendingWrite processing processing w \/ inSync completed w).
Proof.
  set (P0 := fun w => pendingWrite processing processing w /\ unlinked w).
  set (S0 := fun w => inSync processing w /\ unlinked w).
  set (E0 := fun (_ : Exn) w =>
               pendingWrite processing processing w \/ inSync completed w).
  assert (PE : forall w, P0 w -> forall e, E0 e w)
    by (intros w [H _] e; left; exact H).
  assert (SE : forall w, S0 w -> forall e, E0 e w)
    by (intros w [H _] e; left; now apply inSync_pending).
  eapply triple_weaken with (P' := P0) (E' := E0);
    [| intros w [H U]; split; [now apply inSync_pending | exact U]
     | intros a w H; exact H | intros e w H; exact H].
  unfold attempt.
  eapply triple_bind.
  { apply triple_pure_in; [|exact PE].
    destruct (generateContent env); [apply pure_ret | apply pure_throw]. }
  intros text. eapply triple_bind.
  { apply triple_pure_in; [apply pure_parseGeminiResponse | exact PE]. }
  intros geminiData.
  do 3 (eapply triple_bind;
        [apply triple_pure_in; [apply pure_getProperty | exact PE] | intros ?]).
  cbv zeta.
  do 3 (eapply triple_bind;
        [apply triple_keep, assignStrings_keeps; intros; repeat split; reflexivity
        | intros ?]).
  eapply triple_bind.
  { apply triple_keep. intros d. repeat split; reflexivity. }
  intros ?. eapply triple_bind.
  { eapply triple_weaken;
      [apply (triple_save_unlinked processing processing) | auto
       | intros u w H; exact H | intros e w [H _]; left; exact H]. }
  intros ?. eapply triple_bind.
  { apply (triple_pure_in S0); [apply pure_buildSearchCriteria | exact SE]. }
  intros q.
  set (shuffled := shuffledTracks env q).
  eapply triple_bind.
  { apply triple_update with (Q := fun _ => tracksAssigned (map trackId shuffled)).
    intros w (S & U). pose proof (inSync_pending _ _ S) as ((r & Er & Sr) & H & T).
    destruct S as (_ & Mo & C & _ & _ & M).
    unfold tracksAssigned, pendingWrite, unlinked in *.
    cbn [this persisted withFields fields modified castErrors].
    rewrite Mo. repeat split; try assumption; now exists r. }
  intros ?. eapply triple_bind.
  { eapply triple_weaken;
      [apply (triple_updateStatus_tracks (map trackId shuffled)) | auto
       | intros u w H; exact H | intros e w []]. }
  intros ?. eapply triple_bind.
  { eapply triple_weaken;
      [apply (triple_link env req shuffled (map trackId shuffled)) | auto
       | intros pl w H; exact H | intros e w H; right; exact H]. }
  intros playlist. apply triple_ret. intros w H.
  eexists _, _, _, _, _. split; [reflexivity|]. split; [exact H|].
  apply firstn_le_length.
Qed.

Lemma triple_handler (env : Env) (e : Exn) :
  triple (fun w => pendingWrite processing processing w \/ inSync completed w)
    (updateStatus (failedAt env) failed (message e) ;;
     ret (ServerError "Failed to generate AI playlist"))
    (fun response w =>
       response = ServerError "Failed to generate AI playlist" /\ inSync failed w)
    (fun _ w => exists r, persisted w = Some r /\ status r = processing).
Proof.
  intros w H. unfold bind at 1. unfold updateStatus, bind, update. cbn [fst snd].
  set (w1 := mkWorld (setStatus (failedAt env) failed (message e) (this w)) (persisted w)).
  destruct (setStatus_keeps (failedAt env) failed (message e) (this w)) as (Kp & _).
  destruct H as [(R & _ & T) | S].
  - assert (P1 : pendingWrite processing failed w1).
    { split; [exact R|]. cbn [this w1]. rewrite setStatus_status, Kp. now split. }
    pose proof (triple_save processing failed w1 P1) as Hs.
    destruct (save w1) as [[x|[]] w']; cbn.
    + now destruct Hs as (Rs & _).
    + now split.
  - destruct S as (_ & Mo & C & _ & T & M).
    assert (V : validate (this w1) = true)
      by (now apply setStatus_validates).
    destruct (save_accepts w1 V) as (w' & E & A & B & D & F). rewrite E. cbn.
    split; [reflexivity|].
    destruct (preSave_keeps (this w1)) as (Es & Ep & _).
    unfold inSync. split; [exact A|]. split; [exact B|]. split; [exact D|].
    rewrite F, Es, Ep, preSave_meets. cbn [this w1].
    rewrite setStatus_status, Kp, setStatus_meets. now repeat split.
Qed.

Lemma inProcess_inSync (env : Env) (u : nat) (p : string) (nm : option string) :
  generateValidation p nm = [] ->
  let d := inProcess env u p in
  let w0 := mkWorld (settled (fields d) (processingStartTime d)) (Some (fields d)) in
  inSync processing w0 /\ unlinked w0.
Proof.
  intros V d w0.
  destruct (generate_begins env u p nm None (ret NotFound) V) as (_ & T & S).
  split.
  - repeat split; try reflexivity; try assumption.
    now apply (inProcess_meets env u p nm).
  - unfold unlinked, w0, d, inProcess. cbn [this settled fields].
    now destruct (setStatus_keeps (processingAt env) processing EmptyString
                    (settled (created u p playlist_generation (createdAt env)) None))
      as (_ & _ & -> & _).
Qed.

(** What the handler leaves after its [try] and [catch], from the record
    just marked processing. *)
Lemma attempt_settles (env : Env) (u : nat) (p : string) (nm : option string)
    (sv : option bool) :
  generateValidation p nm = [] ->
  let d := inProcess env u p in
  match tryCatch (attempt env (mkGenerateRequest [] u (JS.trim p) (option_map JS.trim nm) sv))
          (fun aiError =>
             updateStatus (failedAt env) failed (message aiError) ;;
             ret (ServerError "Failed to generate AI playlist"))
          (mkWorld (settled (fields d) (processingStartTime d)) (Some (fields d))) with
  | (inl _, w) => exists r, persisted w = Some r /\ status r = processing
  | (inr response, w) =>
      (exists tracks playlist m g k,
          response = Generated tracks playlist m g k
          /\ recorded (map trackId tracks) playlist w
          /\ (List.length tracks <= 20)%nat)
      \/ (response = ServerError "Failed to generate AI playlist" /\ inSync failed w)
  end.
Proof.
  intros V d.
  destruct (inProcess_inSync env u p nm V) as (S & U).
  fold d in S, U.
  set (w0 := mkWorld _ _) in *.
  set (req := mkGenerateRequest [] u (JS.trim p) (option_map JS.trim nm) sv).
  set (Qf := fun (response : Response) (w : World) =>
               (exists tracks playlist m g k,
                   response = Generated tracks playlist m g k
                   /\ recorded (map trackId tracks) playlist w
                   /\ (List.length tracks <= 20)%nat)
               \/ (response = ServerError "Failed to generate AI playlist"
                   /\ inSync failed w)).
  assert (Ha : triple (fun w => inSync processing w /\ unlinked w) (attempt env req) Qf
                 (fun _ w => pendingWrite processing processing w \/ inSync completed w)).
  { eapply triple_weaken; [apply triple_attempt | auto | | auto].
    intros a w H. left. exact H. }
  assert (Hh : forall e,
             triple (fun w => pendingWrite processing processing w \/ inSync completed w)
               (updateStatus (failedAt env) failed (message e) ;;
                ret (ServerError "Failed to generate AI playlist")) Qf
               (fun _ w => exists r, persisted w = Some r /\ status r = processing)).
  { intros e. eapply triple_weaken; [apply triple_handler | auto | | auto].
    intros a w H. right. exact H. }
  pose proof (triple_tryCatch _ _ _ _ _ _ Ha Hh w0 (conj S U)) as H.
  destruct (tryCatch _ _ w0) as [[e|response] w]; exact H.
Qed.

(** A record is left by every request that passes the validation chain,
    in the state that goes with the answer. *)
Lemma generate_leaves_record (env : Env) (u : nat) (p : string) (nm : option string)
    (sv : option bool) :
  generateValidation p nm = [] ->
  exists w r,
    snd (postGenerate env u p nm sv) = Some w
    /\ persisted w = Some r
    /\ status r = match fst (postGenerate env u p nm sv) with
                  | Generated _ _ _ _ _ => completed
                  | ServerError _ => failed
                  | _ => processing
                  end.
Proof.
  intros V. rewrite (postGenerate_valid env u p nm sv V).
  pose proof (attempt_settles env u p nm sv V) as H. cbv zeta in H.
  destruct (tryCatch _ _ _) as [[e|response] w]; cbn [fst snd].
  - destruct H as (r & Er & Sr). now exists w, r.
  - destruct H as [(tracks & playlist & m & g & k & -> & ((A & _ & _ & Sc & _) & _) & _)
                  | (-> & (A & _ & _ & Sf & _))];
      now exists w, (fields (this w)).
Qed.

(** X1. The answer of [POST /api/ai/generate] and the stored record agree,
    for the bodies of the model: [prompt] a string of code units below
    U+0100, [playlistName] absent or such a string, [savePlaylist] absent
    or a boolean (and an answer of the analyzer that is such a text and
    escapes no code unit from U+0100 on, where [JSON.parse] here is that
    of the engine).  When such a body passes the validation chain a record
    is always created, and: a success answer comes with the record
    completed, holding the ids of exactly the tracks answered (at most 20)
    and the playlist answered; the 500 answer comes with the record failed;
    and when the error goes to the error middleware instead, the record is
    still in processing.  There is no other answer. *)
Theorem generate_answer_matches_record (env : Env) (u : nat) (p : string)
    (nm : option string) (sv : option bool) :
  generateValidation p nm = [] ->
  exists w r,
    snd (postGenerate env u p nm sv) = Some w
    /\ persisted w = Some r
    /\ match fst (postGenerate env u p nm sv) with
       | Generated tracks playlist _ _ _ =>
           r = fields (this w)
           /\ status r = completed
           /\ generatedTracks r = map trackId tracks
           /\ generatedPlaylist r = playlist
           /\ (List.length tracks <= 20)%nat
           /\ isSuccessful r = negb (Nat.eqb (List.length tracks) 0)
       | ServerError _ => status r = failed
       | Next _ => status r = processing
       | _ => False
       end.
Proof.
  intros V. rewrite (postGenerate_valid env u p nm sv V).
  pose proof (attempt_settles env u p nm sv V) as H. cbv zeta in H.
  destruct (tryCatch _ _ _) as [[e|response] w]; cbn [fst snd].
  - destruct H as (r & Er & Sr). now exists w, r.
  - destruct H as [(tracks & playlist & m & g & k & -> & ((A & _ & _ & Sc & _) & G & L) & Len)
                  | H].
    + exists w, (fields (this w)). repeat split; try assumption.
      unfold isSuccessful. rewrite Sc, G, length_map. cbn.
      now destruct (List.length tracks).
    + destruct H as (-> & (A & _ & _ & Sf & _)).
      now exists w, (fields (this w)).
Qed.

Lemma generate_answer_matches_record_witness :
  exists w r,
    snd (postGenerate (sampleEnv (Responds fencedResponse)) 1
           "relaxing summer sunset" None None) = Some w
    /\ persisted w = Some r
    /\ match fst (postGenerate (sampleEnv (Responds fencedResponse)) 1
                    "relaxing summer sunset" None None) with
       | Generated tracks playlist _ _ _ =>
           r = fields (this w)
           /\ status r = completed
           /\ generatedTracks r = map trackId tracks
           /\ generatedPlaylist r = playlist
           /\ (List.length tracks <= 20)%nat
           /\ isSuccessful r = negb (Nat.eqb (List.length tracks) 0)
       | ServerError _ => status r = failed
       | Next _ => status r = processing
       | _ => False
       end.
Proof.
  apply (generate_answer_matches_record (sampleEnv (Responds fencedResponse)) 1
           "relaxing summer sunset" None None).
  vm_compute. reflexivity.
Defined.

(* ------------------------------------------------------------------ *)
(** ** What a request is about never changes *)

Section InvariantFrom.

Variable I : World -> Prop.
Hypothesis keeps_save : preserves I save.
Hypothesis keeps_setStatus : forall now st msg, preserves I (update (setStatus now st msg)).
Hypothesis keeps_moods : forall env raw,
  preserves I (update (assignStrings env PExtractedMoods lower set_extractedMoods raw)).
Hypothesis keeps_genres : forall env raw,
  preserves I (update (assignStrings env PExtractedGenres lower set_extractedGenres raw)).
Hypothesis keeps_keywords : forall env raw,
  preserves I (update (assignStrings env PExtractedKeywords lowerTrim set_extractedKeywords raw)).
Hypothesis keeps_geminiResponse : forall v,
  preserves I (update (withFields (set_geminiResponse v) PGeminiResponse)).
Hypothesis keeps_generatedTracks : forall v,
  preserves I (update (withFields (set_generatedTracks v) PGeneratedTracks)).
Hypothesis keeps_generatedPlaylist : forall v,
  preserves I (update (withFields (set_generatedPlaylist v) PGeneratedPlaylist)).

(** As [generatePlaylist_invariant], for an invariant that holds of the
    document of this request when it is made. *)
Lemma generatePlaylist_invariant_from (env : Env) (req : GenerateRequest) :
  I (mkWorld (newDocument (reqUser req) (JS.trim (bodyPrompt req)) playlist_generation
                (createdAt env)) None) ->
  match snd (generatePlaylist env req) with
  | Some w => I w
  | None => True
  end.
Proof.
  intros New. unfold generatePlaylist. destruct (validationErrors req); [|exact Logic.I].
  unfold create. pose proof (keeps_save _ New) as I0.
  destruct (save _) as [[e|[]] w0]; cbn [snd] in *; [exact Logic.I|].
  match goal with
  | |- context [bind ?m ?k w0] => assert (P : preserves I (bind m k))
  end.
  { apply preserves_bind; [now apply preserves_updateStatus|intros _].
    apply preserves_tryCatch; [now apply preserves_attempt|].
    intros e. apply preserves_bind; [now apply preserves_updateStatus|].
    intros; apply preserves_ret. }
  specialize (P w0 I0).
  destruct (bind _ _ w0) as [[e|response] w]; exact P.
Qed.

End InvariantFrom.

Lemma identity_save u p : preserves (identityInv u p) save.
Proof.
  intros [d stored] (Is & Id & Im). unfold save. cbn [this persisted] in *.
  destruct (validate d); cbn [snd]; unfold identityInv; cbn [this persisted fields modified].
  - assert (F : identity u p (fields (preSave d))
                /\ normalizedPrompt (fields (preSave d)) = Some (normalize p)).
    { unfold preSave. destruct (isModified PPrompt d) eqn:Mo.
      - split; [exact Id|]. cbn. destruct Id as (_ & -> & _).
        now rewrite trim_fixed by apply normalize_canonical.
      - split; [exact Id | now apply Im]. }
    destruct F as [Fi Fn]. split; [|split; [exact Fi | intros _; exact Fn]].
    intros r E. injection E as <-. now split.
  - split; [exact Is | now split].
Qed.

Lemma identity_withFields u p (f : AIRequest -> AIRequest) (q : Path) :
  q <> PPrompt ->
  (forall r, user (f r) = user r /\ prompt (f r) = prompt r
             /\ requestType (f r) = requestType r
             /\ normalizedPrompt (f r) = normalizedPrompt r) ->
  preserves (identityInv u p) (update (withFields f q)).
Proof.
  intros Nq F [d stored] (Is & Id & Im). destruct (F (fields d)) as (Eu & Ep & Ek & En).
  unfold update, identityInv, identity, isModified in *.
  cbn [snd this persisted withFields fields modified existsb] in *.
  rewrite Eu, Ep, Ek, En. split; [exact Is|]. split; [exact Id|].
  intros E. apply orb_false_iff in E. now apply Im.
Qed.

Lemma identity_same u p (f : Document -> Document) :
  (forall d, fields (f d) = fields d /\ modified (f d) = modified d) ->
  preserves (identityInv u p) (update f).
Proof.
  intros F [d stored] (Is & Id & Im). destruct (F d) as [Ef Em].
  unfold update, identityInv, isModified in *. cbn [snd this persisted] in *.
  rewrite Ef, Em. split; [exact Is | now split].
Qed.

Lemma identity_setStatus u p now st msg :
  preserves (identityInv u p) (update (setStatus now st msg)).
Proof.
  intros [d stored] (Is & Id & Im).
  unfold update, identityInv, identity, isModified, setStatus in *.
  cbn [snd this persisted] in *.
  split; [exact Is|].
  split; [split_cases; exact Id|].
  split_cases; intros E; cbn in E; auto.
Qed.

Lemma identity_assignStrings u p env q setter store raw :
  q <> PPrompt ->
  (forall v r, user (store v r) = user r /\ prompt (store v r) = prompt r
               /\ requestType (store v r) = requestType r
               /\ normalizedPrompt (store v r) = normalizedPrompt r) ->
  preserves (identityInv u p) (update (assignStrings env q setter store raw)).
Proof.
  intros Nq F. unfold assignStrings. destruct (castArray env setter raw) as [vs|].
  - apply identity_withFields; [exact Nq | intros r; apply F].
  - apply identity_same. intros d. split; reflexivity.
Qed.

Lemma generatePlaylist_identity (env : Env) (req : GenerateRequest) :
  match snd (generatePlaylist env req) with
  | Some w => identityInv (reqUser req) (JS.trim (JS.trim (bodyPrompt req))) w
  | None => True
  end.
Proof.
  apply generatePlaylist_invariant_from;
    intros;
    try (apply identity_assignStrings; [discriminate | intros; repeat split; reflexivity]);
    try (apply identity_withFields; [discriminate | intros; repeat split; reflexivity]).
  - apply identity_save.
  - apply identity_setStatus.
  - split; [discriminate|]. split; [repeat split; reflexivity | discriminate].
Qed.

(** The record of a valid request keeps who asked what. *)
Lemma generate_keeps_identity (env : Env) (u : nat) (p : string)
    (nm : option string) (sv : option bool) :
  generateValidation p nm = [] ->
  exists w r,
    snd (postGenerate env u p nm sv) = Some w
    /\ persisted w = Some r
    /\ user r = u
    /\ requestType r = playlist_generation
    /\ prompt r = JS.trim p
    /\ normalizedPrompt r = Some (normalize (JS.trim p)).
Proof.
  intros V.
  destruct (generate_leaves_record env u p nm sv V) as (w & r & Ew & Er & _).
  exists w, r. split; [exact Ew|]. split; [exact Er|].
  pose proof (generatePlaylist_identity env
                (mkGenerateRequest (generateValidation p nm) u (JS.trim p)
                   (option_map JS.trim nm) sv)) as I.
  fold (postGenerate env u p nm sv) in I. rewrite Ew in I.
  cbn [reqUser bodyPrompt] in I. rewrite !trim_idempotent in I.
  destruct I as (Is & _). destruct (Is r Er) as ((Eu & Ep & Ek) & En).
  repeat split; assumption.
Qed.

(** X2. The validation chain decides whether a record is made, for the
    bodies of the model: [prompt] a string of code units below U+0100,
    [playlistName] absent or such a string, [savePlaylist] absent or a
    boolean.  Such a body that fails the chain is answered 400 and no
    record is made; one that passes it always makes a record, and whatever
    becomes of the attempt that record keeps the owner, the kind, the
    trimmed prompt and the normal form of that prompt. *)
Theorem record_made_exactly_when_valid (env : Env) (u : nat) (p : string)
    (nm : option string) (sv : option bool) :
  (generateValidation p nm <> [] ->
   postGenerate env u p nm sv = (BadRequest (generateValidation p nm), None))
  /\ (generateValidation p nm = [] ->
      exists w r,
        snd (postGenerate env u p nm sv) = Some w
        /\ persisted w = Some r
        /\ user r = u
        /\ requestType r = playlist_generation
        /\ prompt r = JS.trim p
        /\ normalizedPrompt r = Some (normalize (JS.trim p))).
Proof.
  split.
  - intros N. unfold postGenerate, generatePlaylist. cbn [validationErrors].
    destruct (generateValidation p nm); [contradiction | reflexivity].
  - intros V.
    destruct (generate_keeps_identity env u p nm sv V) as (w & r & Ew & Er & Id).
    exists w, r. split; [exact Ew|]. split; [exact Er | exact Id].
Qed.

Lemma record_made_exactly_when_valid_witness :
  (postGenerate (sampleEnv (Responds fencedResponse)) 1 "  " None None
   = (BadRequest (generateValidation "  " None), None))
  /\ exists w r,
       snd (postGenerate (sampleEnv (Responds "no JSON here")) 1
              "  Chill  Vibes!! " None None) = Some w
       /\ persisted w = Some r
       /\ user r = 1%nat
       /\ requestType r = playlist_generation
       /\ prompt r = JS.trim "  Chill  Vibes!! "
       /\ normalizedPrompt r = Some (normalize (JS.trim "  Chill  Vibes!! ")).
Proof.
  split.
  - apply (proj1 (record_made_exactly_when_valid
                    (sampleEnv (Responds fencedResponse)) 1 "  " None None)).
    vm_compute. discriminate.
  - apply (proj2 (record_made_exactly_when_valid
                    (sampleEnv (Responds "no JSON here")) 1 "  Chill  Vibes!! " None None)).
    vm_compute. reflexivity.
Defined.

(* ------------------------------------------------------------------ *)
(** ** Reuse ([markAsUsed], [regeneratePlaylist]) *)










(* ------------------------------------------------------------------ *)
(** ** Sorting with [sortWith] *)

Lemma insertWith_permutation {A} (before : A -> A -> bool) x l :
  Permutation (insertWith before x l) (x :: l).
Proof.
  induction l as [|y r IH]; cbn; [reflexivity|].
  destruct (before x y); [reflexivity|].
  rewrite IH. apply perm_swap.
Qed.

Lemma sortWith_permutation {A} (before : A -> A -> bool) l :
  Permutation (sortWith before l) l.
Proof.
  induction l as [|x r IH]; cbn; [reflexivity|].
  rewrite insertWith_permutation. now constructor.
Qed.

Lemma insertWith_sorted {A} (before : A -> A -> bool) x l :
  (forall a b, before a b = false -> before b a = true) ->
  Sorted (fun a b => before a b = true) l ->
  Sorted (fun a b => before a b = true) (insertWith before x l).
Proof.
  intros Total. induction l as [|y r IH]; cbn; intros S.
  - repeat constructor.
  - destruct (before x y) eqn:B.
    + constructor; [exact S | constructor; exact B].
    + inversion S as [|? ? Sr Hy]; subst. constructor; [now apply IH|].
      destruct r as [|z r']; cbn.
      * constructor. now apply Total.
      * destruct (before x z) eqn:B'.
        -- constructor. now apply Total.
        -- inversion Hy; subst. now constructor.
Qed.

Lemma sortWith_sorted {A} (before : A -> A -> bool) l :
  (forall a b, before a b = false -> before b a = true) ->
  Sorted (fun a b => before a b = true) (sortWith before l).
Proof.
  intros Total. induction l as [|x r IH]; cbn; [constructor|].
  now apply insertWith_sorted.
Qed.

Lemma sortWith_length {A} (before : A -> A -> bool) l :
  List.length (sortWith before l) = List.length l.
Proof. apply Permutation_length, sortWith_permutation. Qed.

(* ------------------------------------------------------------------ *)
(** ** The pages of the history ([getAIHistory], [getUserHistory]) *)

Lemma chunks_concat {A} (n : nat) :
  (1 <= n)%nat ->
  forall (k : nat) (l : list A),
    (List.length l <= k * n)%nat ->
    List.concat (map (fun i => firstn n (skipn (i * n) l)) (seq 0 k)) = l.
Proof.
  intros Hn. induction k as [|k IH]; intros l L.
  - destruct l; [reflexivity | cbn in L; lia].
  - cbn [seq map List.concat]. rewrite <- seq_shift, map_map.
    cbn [Nat.mul skipn].
    transitivity (firstn n l ++ skipn n l)%list; [|apply firstn_skipn].
    f_equal.
    rewrite <- (IH (skipn n l)) by (rewrite length_skipn; lia).
    f_equal. apply map_ext. intros i. rewrite skipn_skipn.
    f_equal. f_equal. lia.
Qed.

Lemma ceilDiv_covers (a b : Z) :
  (0 <= a)%Z -> (0 < b)%Z -> (0 <= Collection.ceilDiv a b /\ a <= Collection.ceilDiv a b * b)%Z.
Proof.
  intros Ha Hb. unfold Collection.ceilDiv.
  pose proof (Z.div_mod (a + b - 1) b ltac:(lia)) as D.
  pose proof (Z.mod_pos_bound (a + b - 1) b Hb) as M.
  split; [apply Z.div_pos; lia | nia].
Qed.

Lemma ceilDiv_least (a b k : Z) :
  (0 <= a)%Z -> (0 < b)%Z -> (a <= k * b)%Z -> (Collection.ceilDiv a b <= k)%Z.
Proof.
  intros Ha Hb Hk. unfold Collection.ceilDiv.
  apply Z.lt_succ_r. apply Z.div_lt_upper_bound; lia.
Qed.

Lemma historyPage_eq c userId limit page :
  (1 <= limit)%Z -> (1 <= page)%Z ->
  Collection.historyPage c userId limit page =
  firstn (Z.to_nat (Z.min limit 50))
         (skipn (Z.to_nat (page - 1) * Z.to_nat limit)
                (sortWith Collection.newestFirst
                          (filter (Collection.ownedBy userId) c))).
Proof.
  intros L P. unfold Collection.historyPage, Collection.getAIHistory.
  replace (1 <=? page)%Z with true by (symmetry; apply Z.leb_le; exact P).
  replace (1 <=? limit)%Z with true by (symmetry; apply Z.leb_le; exact L).
  cbn [andb]. unfold Collection.getUserHistory.
  rewrite Z2Nat.inj_mul by lia. reflexivity.
Qed.

Lemma announcedPages_eq c userId limit :
  (1 <= limit)%Z ->
  Collection.announcedPages c userId limit =
  Collection.ceilDiv
    (Z.of_nat (List.length (filter (Collection.ownedBy userId) c)))
    (Z.min limit 50).
Proof.
  intros L. unfold Collection.announcedPages, Collection.getAIHistory.
  replace (1 <=? limit)%Z with true by (symmetry; apply Z.leb_le; exact L).
  reflexivity.
Qed.

(** X5. With a page size from 1 to 50, the pages 1, 2, ..., [totalPages]
    of [GET /api/ai/history], one after the other, are exactly the user's
    requests from the newest to the oldest: none is left out and none is
    shown twice.  (The collection does not change between the queries and
    the sort breaks ties the same way in each.) *)
Theorem history_pages_tile c userId limit :
  (1 <= limit <= 50)%Z ->
  List.concat
    (map (fun i => Collection.historyPage c userId limit (Z.of_nat i + 1))
         (seq 0 (Z.to_nat (Collection.announcedPages c userId limit))))
  = sortWith Collection.newestFirst (filter (Collection.ownedBy userId) c).
Proof.
  intros L.
  set (all := sortWith Collection.newestFirst (filter (Collection.ownedBy userId) c)).
  rewrite announcedPages_eq by lia.
  rewrite Z.min_l by lia.
  set (pages := Z.to_nat (Collection.ceilDiv _ limit)).
  assert (Covered : (List.length all <= pages * Z.to_nat limit)%nat).
  { unfold all, pages. rewrite sortWith_length.
    pose proof (ceilDiv_covers
                  (Z.of_nat (List.length (filter (Collection.ownedBy userId) c)))
                  limit ltac:(lia) ltac:(lia)) as [C0 C1].
    apply Nat2Z.inj_le. rewrite Nat2Z.inj_mul, !Z2Nat.id by lia. exact C1. }
  rewrite <- (chunks_concat (Z.to_nat limit) ltac:(lia) pages all Covered) at 1.
  f_equal. apply map_ext. intros i. rewrite historyPage_eq by lia.
  rewrite Z.min_l by lia.
  replace (Z.of_nat i + 1 - 1)%Z with (Z.of_nat i) by lia.
  rewrite Nat2Z.id. reflexivity.
Qed.

Lemma history_pages_tile_witness :
  (1 <= 2 <= 50)%Z /\
  List.concat
    (map (fun i => Collection.historyPage
                     [Collection.mkEntry 1 10 (created 7 "jazz for rain" playlist_generation 10);
                      Collection.mkEntry 2 30 (created 7 "rock for sun" playlist_generation 30);
                      Collection.mkEntry 3 20 (created 8 "calm piano" playlist_generation 20);
                      Collection.mkEntry 4 40 (created 7 "sad songs" playlist_generation 40)]
                     7 2 (Z.of_nat i + 1))
         (seq 0 (Z.to_nat (Collection.announcedPages
                     [Collection.mkEntry 1 10 (created 7 "jazz for rain" playlist_generation 10);
                      Collection.mkEntry 2 30 (created 7 "rock for sun" playlist_generation 30);
                      Collection.mkEntry 3 20 (created 8 "calm piano" playlist_generation 20);
                      Collection.mkEntry 4 40 (created 7 "sad songs" playlist_generation 40)]
                     7 2))))
  = sortWith Collection.newestFirst
      (filter (Collection.ownedBy 7)
         [Collection.mkEntry 1 10 (created 7 "jazz for rain" playlist_generation 10);
          Collection.mkEntry 2 30 (created 7 "rock for sun" playlist_generation 30);
          Collection.mkEntry 3 20 (created 8 "calm piano" playlist_generation 20);
          Collection.mkEntry 4 40 (created 7 "sad songs" playlist_generation 40)]).
Proof.
  split; [lia|]. apply history_pages_tile. lia.
Defined.

Lemma Sorted_skipn {A} (R : A -> A -> Prop) n l :
  Sorted R l -> Sorted R (skipn n l).
Proof.
  revert l. induction n as [|n IH]; intros l S; [exact S|].
  destruct l as [|x r]; [exact S|]. cbn. apply IH. now inversion S.
Qed.

Lemma Sorted_firstn {A} (R : A -> A -> Prop) n l :
  Sorted R l -> Sorted R (firstn n l).
Proof.
  revert l. induction n as [|n IH]; intros l S; [constructor|].
  destruct l as [|x r]; [constructor|]. cbn.
  inversion S as [|? ? Sr Hx]; subst. constructor; [now apply IH|].
  destruct n; [constructor|]. destruct r; [constructor|].
  cbn. inversion Hx; subst. now constructor.
Qed.

Lemma in_skipn {A} (x : A) n l : In x (skipn n l) -> In x l.
Proof.
  revert l. induction n as [|n IH]; intros l H; [exact H|].
  destruct l; [exact H|]. right. now apply IH.
Qed.

Lemma newestFirst_total a b :
  Collection.newestFirst a b = false -> Collection.newestFirst b a = true.
Proof. unfold Collection.newestFirst. intros H. apply Z.leb_le. apply Z.leb_gt in H. lia. Qed.

(** X6. Every page of the history holds at most [min(limit, 50)] requests,
    all of them stored requests of the asking user, ordered from the newest
    to the oldest. *)
Theorem history_page_owned_newest_first c userId limit page :
  (1 <= limit)%Z -> (1 <= page)%Z ->
  let shown := Collection.historyPage c userId limit page in
  (Z.of_nat (List.length shown) <= Z.min limit 50)%Z
  /\ (forall e, In e shown -> In e c /\ user (Collection.doc e) = userId)
  /\ Sorted (fun a b => (Collection.createdAt b <= Collection.createdAt a)%Z) shown.
Proof.
  intros L P shown. unfold shown. rewrite historyPage_eq by assumption.
  split; [|split].
  - rewrite length_firstn. lia.
  - intros e H. apply in_firstn, in_skipn in H.
    apply (Permutation_in _ (sortWith_permutation _ _)) in H.
    apply filter_In in H as [H O]. split; [exact H|].
    now apply Nat.eqb_eq in O.
  - apply Sorted_firstn, Sorted_skipn.
    eapply Sorted_ind with (P := fun l => Sorted _ l);
      [constructor | | apply (sortWith_sorted Collection.newestFirst _ newestFirst_total)].
    intros a l _ S H. constructor; [exact S|].
    destruct H; constructor. now apply Z.leb_le.
Qed.

Lemma history_page_owned_newest_first_witness :
  let c := [Collection.mkEntry 1 10 (created 7 "jazz for rain" playlist_generation 10);
            Collection.mkEntry 2 30 (created 7 "rock for sun" playlist_generation 30);
            Collection.mkEntry 3 20 (created 8 "calm piano" playlist_generation 20);
            Collection.mkEntry 4 40 (created 7 "sad songs" playlist_generation 40)] in
  Collection.historyPage c 7 2 1 =
    [Collection.mkEntry 4 40 (created 7 "sad songs" playlist_generation 40);
     Collection.mkEntry 2 30 (created 7 "rock for sun" playlist_generation 30)]
  /\ (Z.of_nat (List.length (Collection.historyPage c 7 2 1)) <= Z.min 2 50)%Z
  /\ (forall e, In e (Collection.historyPage c 7 2 1) ->
        In e c /\ user (Collection.doc e) = 7)
  /\ Sorted (fun a b => (Collection.createdAt b <= Collection.createdAt a)%Z)
            (Collection.historyPage c 7 2 1).
Proof.
  intros c. split; [vm_compute; reflexivity|].
  apply (history_page_owned_newest_first c 7 2 1); lia.
Defined.

Lemma in_firstn_nth {A} (x : A) n l :
  In x (firstn n l) -> exists j, (j < n)%nat /\ nth_error l j = Some x.
Proof.
  revert l. induction n as [|n IH]; intros l H; [destruct H|].
  destruct l as [|y r]; [destruct H|]. destruct H as [->|H].
  - exists 0%nat. split; [lia | reflexivity].
  - destruct (IH r H) as (j & J & E). exists (S j). split; [lia | exact E].
Qed.

Lemma NoDup_ids c :
  NoDup (map Collection._id c) ->
  forall userId,
    NoDup (sortWith Collection.newestFirst (filter (Collection.ownedBy userId) c)).
Proof.
  intros N userId.
  eapply Permutation_NoDup; [symmetry; apply sortWith_permutation|].
  apply NoDup_filter. eapply NoDup_map_inv, N.
Qed.

(** X7. With a page size above 50 a page still holds 50 requests at most
    but starts [limit] requests after the one before it: the request at
    position [k] of the user's history (counting from 0, newest first) is
    on no page at all whenever [k mod limit] is 50 or more. *)
Theorem history_pages_skip_records c userId limit (k : nat) e :
  (50 < limit)%Z ->
  NoDup (map Collection._id c) ->
  nth_error (sortWith Collection.newestFirst (filter (Collection.ownedBy userId) c)) k
    = Some e ->
  (50 <= Z.of_nat k mod limit)%Z ->
  forall page, (1 <= page)%Z -> ~ In e (Collection.historyPage c userId limit page).
Proof.
  intros L N K M page P H.
  rewrite historyPage_eq in H by lia. rewrite Z.min_r in H by lia.
  apply in_firstn_nth in H as (j & J & E).
  rewrite nth_error_skipn in E.
  pose proof (NoDup_ids c N userId) as D.
  rewrite NoDup_nth_error in D.
  assert (k = (Z.to_nat (page - 1) * Z.to_nat limit + j)%nat) as ->.
  { apply D; [apply nth_error_Some; congruence | congruence]. }
  rewrite Nat2Z.inj_add, Nat2Z.inj_mul, !Z2Nat.id in M by lia.
  rewrite Z.add_comm, Z_mod_plus_full, Z.mod_small in M; lia.
Qed.

Lemma history_pages_skip_records_witness :
  let c := map (fun i => Collection.mkEntry i (Z.of_nat i)
                           (created 7 "jazz for rain" playlist_generation 0))
               (seq 0 51) in
  (50 < 60)%Z /\
  nth_error (sortWith Collection.newestFirst (filter (Collection.ownedBy 7) c)) 50
    = Some (Collection.mkEntry 0 0 (created 7 "jazz for rain" playlist_generation 0)) /\
  forall page, (1 <= page)%Z ->
    ~ In (Collection.mkEntry 0 0 (created 7 "jazz for rain" playlist_generation 0))
         (Collection.historyPage c 7 60 page).
Proof.
  intros c.
  assert (K : nth_error (sortWith Collection.newestFirst
                           (filter (Collection.ownedBy 7) c)) 50
              = Some (Collection.mkEntry 0 0
                        (created 7 "jazz for rain" playlist_generation 0)))
    by (vm_compute; reflexivity).
  split; [lia|]. split; [exact K|].
  apply (history_pages_skip_records c 7 60 50 _); [lia | | exact K | vm_compute; discriminate].
  unfold c. rewrite map_map. cbn [Collection._id]. rewrite map_id. apply seq_NoDup.
Defined.

(* ------------------------------------------------------------------ *)
(** ** Rating a stored request ([ratePlaylist] on the collection) *)

Lemma rateSatisfaction_run (r : AIRequest) (now stars : Z) (fb : string) :
  prompt r <> EmptyString ->
  let r' := set_satisfaction (mkSatisfaction stars fb now) r in
  (meetsValidators r' = true ->
   rateSatisfaction now stars fb (loaded r) = (inr tt, loaded r'))
  /\ (meetsValidators r' = false ->
      exists w, rateSatisfaction now stars fb (loaded r) = (inl validationFailed, w)
                /\ persisted w = Some r).
Proof.
  intros P r'. apply truthy_iff in P.
  unfold rateSatisfaction, bind, update, loaded. cbn [this persisted fst snd].
  split; intros V.
  - rewrite save_unmodified_prompt; [reflexivity| |reflexivity].
    unfold validate, settled. cbn [fields castErrors withFields].
    fold r'. change (prompt r') with (prompt r). now rewrite P, V.
  - eexists. split; [apply save_refused|reflexivity].
    unfold validate, settled. cbn [this fields castErrors withFields].
    fold r'. rewrite V. now rewrite !andb_false_r.
Qed.

Lemma rateSatisfaction_empty_prompt (r : AIRequest) (now stars : Z) (fb : string) :
  prompt r = EmptyString ->
  exists w, rateSatisfaction now stars fb (loaded r) = (inl validationFailed, w)
            /\ persisted w = Some r.
Proof.
  intros P.
  unfold rateSatisfaction, bind, update, loaded. cbn [this persisted fst snd].
  eexists. split; [apply save_refused|reflexivity].
  unfold validate, settled. cbn [this fields castErrors withFields].
  change (prompt (set_satisfaction (mkSatisfaction stars fb now) r)) with (prompt r).
  now rewrite P.
Qed.

Lemma meets_rated_bounds (r : AIRequest) (s : Satisfaction) :
  meetsValidators (set_satisfaction s r) = true ->
  (1 <= rating s <= 5)%Z /\ (String.length (feedback s) <= 1000)%nat.
Proof.
  rewrite meets_rated. intros V.
  repeat match goal with
         | H : (_ && _) = true |- _ => apply andb_prop in H as [? ?]
         end.
  repeat match goal with
         | H : (_ <=? _)%Z = true |- _ => apply Z.leb_le in H
         | H : (_ <=? _)%nat = true |- _ => apply Nat.leb_le in H
         end.
  lia.
Qed.

Lemma NoDup_map_injective {A B} (f : A -> B) l a b :
  NoDup (map f l) -> In a l -> In b l -> f a = f b -> a = b.
Proof.
  induction l as [|x r IH]; cbn; intros N Ha Hb E; [destruct Ha|].
  inversion N as [|? ? Nx Nr]; subst.
  destruct Ha as [->|Ha], Hb as [->|Hb]; trivial.
  - exfalso. apply Nx. rewrite E. now apply in_map.
  - exfalso. apply Nx. rewrite <- E. now apply in_map.
  - now apply IH.
Qed.

Lemma replaceDoc_other id r savedAt c i e :
  nth_error c i = Some e -> Collection._id e <> id ->
  nth_error (Collection.replaceDoc id r savedAt c) i = Some e.
Proof.
  intros E N. unfold Collection.replaceDoc. rewrite nth_error_map, E. cbn.
  apply Nat.eqb_neq in N. now rewrite N.
Qed.

Lemma replaceDoc_at id r savedAt c i e :
  nth_error c i = Some e -> Collection._id e = id ->
  nth_error (Collection.replaceDoc id r savedAt c) i
  = Some (Collection.mkStored id (Collection.createdAt e) savedAt r).
Proof.
  intros E N. unfold Collection.replaceDoc. rewrite nth_error_map, E. cbn.
  apply Nat.eqb_eq in N. rewrite N. apply Nat.eqb_eq in N. now rewrite N.
Qed.

Lemma replaceDoc_keys id r savedAt c :
  map Collection._id (Collection.replaceDoc id r savedAt c) = map Collection._id c
  /\ map Collection.createdAt (Collection.replaceDoc id r savedAt c)
     = map Collection.createdAt c.
Proof.
  unfold Collection.replaceDoc. rewrite !map_map.
  split; apply map_ext; intros e; now destruct (Nat.eqb _ _).
Qed.

Lemma findOne_some c id userId e :
  Collection.findOne c id userId = Some e ->
  In e c /\ Collection._id e = id /\ user (Collection.doc e) = userId.
Proof.
  intros F. apply find_some in F as [I F]. apply andb_prop in F as [F1 F2].
  apply Nat.eqb_eq in F1. apply Nat.eqb_eq in F2. now repeat split.
Qed.

(** X8. Rating request [id] as user [userId], in a collection whose ids are
    distinct; [now] is the date of the rating and [savedAt] the date of the
    save.  A success answer means that the request exists, is the user's
    own, that the rating is from 1 to 5 and the stored comment at most
    1000 characters long, and that the record with its new feedback passes
    every validator of the schema; the stored entry of that request then
    has the new feedback and [updatedAt] = [savedAt], its id, its creation
    date and every other path being as before.  Every other answer leaves
    the collection as it was; this is the case when the record with its
    new feedback fails a validator on any path, and the error then goes to
    the error middleware.  In no case does a request of another user, or
    one with another id, change. *)
Theorem rate_changes_only_own_request c userId id now savedAt stars fb :
  NoDup (map Collection._id c) ->
  let response := fst (Collection.rate c userId id now savedAt stars fb) in
  let c' := snd (Collection.rate c userId id now savedAt stars fb) in
  let text := match fb with Some f => JS.trim f | None => EmptyString end in
  match response with
  | Rated _ _ =>
      exists e,
        In e c /\ Collection._id e = id /\ user (Collection.doc e) = userId
        /\ (1 <= stars <= 5)%Z /\ (String.length text <= 1000)%nat
        /\ meetsValidators
             (set_satisfaction (mkSatisfaction stars text now) (Collection.doc e)) = true
        /\ forall i e0, nth_error c i = Some e0 ->
             nth_error c' i
             = Some (if Nat.eqb (Collection._id e0) id
                     then Collection.mkStored id (Collection.createdAt e) savedAt
                            (set_satisfaction (mkSatisfaction stars text now)
                               (Collection.doc e))
                     else e0)
  | _ => c' = c
  end
  /\ (forall e, Collection.findOne c id userId = Some e ->
        ratingValidation stars fb = [] ->
        meetsValidators
          (set_satisfaction (mkSatisfaction stars text now) (Collection.doc e)) = false ->
        response = Next validationFailed)
  /\ (forall i e, nth_error c i = Some e ->
        Collection._id e <> id \/ user (Collection.doc e) <> userId ->
        nth_error c' i = Some e)
  /\ map Collection._id c' = map Collection._id c
  /\ map Collection.createdAt c' = map Collection.createdAt c.
Proof.
  intros N response c' text0. subst response c'.
  unfold Collection.rate, postRate, ratePlaylist.
  destruct (ratingValidation stars fb) as [|m ms].
  2:{ cbn. repeat split; trivial. intros; discriminate. }
  destruct (Collection.findOne c id userId) as [e|] eqn:F; cbn [option_map].
  2:{ cbn. repeat split; trivial. intros; discriminate. }
  apply findOne_some in F as (I & Ei & Eu).
  set (text := match option_map JS.trim fb with Some f => f | None => EmptyString end).
  assert (Et : text = text0) by (unfold text, text0; now destruct fb).
  rewrite <- Et. clearbody text. clear text0 Et.
  set (r' := set_satisfaction (mkSatisfaction stars text now) (Collection.doc e)).
  destruct (string_dec (prompt (Collection.doc e)) EmptyString) as [P|P].
  { destruct (rateSatisfaction_empty_prompt (Collection.doc e) now stars text P)
      as (w & -> & _).
    cbn [fst snd]. repeat split; trivial. }
  destruct (rateSatisfaction_run (Collection.doc e) now stars text P) as [Ok Refused].
  fold r' in Ok, Refused.
  destruct (meetsValidators r') eqn:V.
  - rewrite (Ok eq_refl). cbn [fst snd loaded persisted].
    destruct (meets_rated_bounds _ _ V) as [V1 V2]. cbn [rating feedback] in V1, V2.
    split; [|split; [|split]].
    + exists e. repeat split; trivial; try lia.
      intros i e0 E0.
      destruct (Nat.eqb_spec (Collection._id e0) id) as [Same|Other].
      * rewrite (replaceDoc_at id r' savedAt c i e0 E0 Same).
        apply nth_error_In in E0.
        now rewrite (NoDup_map_injective Collection._id c e0 e N E0 I) by congruence.
      * now apply replaceDoc_other.
    + intros e1 E1 _ V'. injection E1 as <-. fold r' in V'. rewrite V in V'. discriminate.
    + intros i e' E' [D|D].
      * now apply replaceDoc_other.
      * apply replaceDoc_other; [exact E'|]. intros Same. apply D.
        apply nth_error_In in E'.
        rewrite (NoDup_map_injective Collection._id c e' e N E' I) by congruence.
        exact Eu.
    + apply replaceDoc_keys.
  - destruct (Refused eq_refl) as (w & -> & _). cbn [fst snd].
    repeat split; trivial.
Qed.

Lemma rate_changes_only_own_request_witness :
  let mine := Collection.mkEntry 1 10 (created 7 "jazz for rain" playlist_generation 10) in
  let other := Collection.mkEntry 2 30 (created 8 "rock for sun" playlist_generation 30) in
  fst (Collection.rate [mine; other] 7 2 50 51 5 (Some "mine now"%string)) = NotFound
  /\ snd (Collection.rate [mine; other] 7 2 50 51 5 (Some "mine now"%string))
     = [mine; other]
  /\ snd (Collection.rate [mine; other] 7 1 50 51 4 (Some " good "%string))
     = [Collection.mkStored 1 10 51
          (set_satisfaction (mkSatisfaction 4 "good" 50) (Collection.doc mine));
        other]
  /\ match fst (Collection.rate [mine; other] 7 1 50 51 4 (Some " good "%string)) with
     | Rated _ _ =>
         exists e,
           In e [mine; other] /\ Collection._id e = 1%nat
           /\ user (Collection.doc e) = 7%nat
           /\ (1 <= 4 <= 5)%Z /\ (String.length "good" <= 1000)%nat
           /\ meetsValidators
                (set_satisfaction (mkSatisfaction 4 "good" 50) (Collection.doc e)) = true
           /\ forall i e0, nth_error [mine; other] i = Some e0 ->
                nth_error
                  (snd (Collection.rate [mine; other] 7 1 50 51 4 (Some " good "%string))) i
                = Some (if Nat.eqb (Collection._id e0) 1
                        then Collection.mkStored 1 (Collection.createdAt e) 51
                               (set_satisfaction (mkSatisfaction 4 "good" 50)
                                  (Collection.doc e))
                        else e0)
     | _ => snd (Collection.rate [mine; other] 7 1 50 51 4 (Some " good "%string))
            = [mine; other]
     end.
Proof.
  intros mine other.
  assert (N : NoDup (map Collection._id [mine; other])).
  { cbn. repeat constructor; cbn; intuition discriminate. }
  split; [vm_compute; reflexivity|]. split; [vm_compute; reflexivity|].
  split; [vm_compute; reflexivity|].
  exact (proj1 (rate_changes_only_own_request
                  [mine; other] 7 1 50 51 4 (Some " good "%string) N)).
Defined.

(* ------------------------------------------------------------------ *)
(** ** The [$group] stages

    Both [$group] stages of the model fold one function over the
    documents: a document joins the row of its key, or opens a new row at
    the end.  The section proves, for any such function, that the rows have
    distinct keys, that every document has its row, and that a property of
    rows that holds for a new row and survives the arrival of a document
    holds for every row. *)

Lemma sameKey_eq a b : Collection.sameKey a b = true <-> a = b.
Proof.
  destruct a as [x|], b as [y|]; cbn; try (split; [discriminate|congruence]).
  - rewrite String.eqb_eq. split; congruence.
  - split; trivial.
Qed.

Lemma sameKey_refl a : Collection.sameKey a a = true.
Proof. now apply sameKey_eq. Qed.

Lemma sameKey_neq a b : Collection.sameKey a b = false <-> a <> b.
Proof.
  destruct (Collection.sameKey a b) eqn:E.
  - apply sameKey_eq in E. split; [discriminate | congruence].
  - split; trivial. intros _ H. apply sameKey_eq in H. congruence.
Qed.

Section Grouping.

Context {Doc Row : Type}.
Variables (keyOf : Doc -> option string) (rowKey : Row -> option string).
Variables (fresh : Doc -> Row) (merge : Row -> Doc -> Row).
Variable add : Doc -> list Row -> list Row.

Hypothesis add_nil : forall x, add x [] = [fresh x].
Hypothesis add_cons : forall x g rest,
  add x (g :: rest) =
  if Collection.sameKey (rowKey g) (keyOf x) then merge g x :: rest
  else g :: add x rest.
Hypothesis fresh_key : forall x, rowKey (fresh x) = keyOf x.
Hypothesis merge_key : forall g x, rowKey (merge g x) = rowKey g.

Variable Summary : list Doc -> Row -> Prop.

Hypothesis fresh_ok : forall docs x,
  (forall d, In d docs -> keyOf d <> keyOf x) -> Summary (docs ++ [x]) (fresh x).
Hypothesis merge_ok : forall docs g x,
  Summary docs g -> rowKey g = keyOf x -> Summary (docs ++ [x]) (merge g x).
Hypothesis other_ok : forall docs g x,
  Summary docs g -> rowKey g <> keyOf x -> Summary (docs ++ [x]) g.

Local Abbreviation grouped docs := (fold_left (fun rows x => add x rows) docs []).

Lemma add_keys x rows :
  map rowKey (add x rows) =
  if existsb (fun k => Collection.sameKey k (keyOf x)) (map rowKey rows)
  then map rowKey rows
  else (map rowKey rows ++ [keyOf x])%list.
Proof.
  induction rows as [|g rest IH].
  - rewrite add_nil. cbn. now rewrite fresh_key.
  - rewrite add_cons. cbn [map existsb].
    destruct (Collection.sameKey (rowKey g) (keyOf x)); cbn [orb map].
    + now rewrite merge_key.
    + rewrite IH. now destruct (existsb _ _).
Qed.

Lemma add_rows x rows g' :
  NoDup (map rowKey rows) ->
  In g' (add x rows) ->
  (In g' rows /\ rowKey g' <> keyOf x)
  \/ (exists g, In g rows /\ rowKey g = keyOf x /\ g' = merge g x)
  \/ ((forall g, In g rows -> rowKey g <> keyOf x) /\ g' = fresh x).
Proof.
  induction rows as [|g rest IH]; intros N H.
  - rewrite add_nil in H. destruct H as [<-|[]]. right. right.
    split; [intros ? []|reflexivity].
  - rewrite add_cons in H. inversion N as [|? ? Ng Nrest]; subst.
    destruct (Collection.sameKey (rowKey g) (keyOf x)) eqn:K.
    + apply sameKey_eq in K. destruct H as [<-|H].
      * right. left. exists g. repeat split; [now left | exact K].
      * left. split; [now right|]. intros E. apply Ng.
        rewrite K, <- E. now apply in_map.
    + apply sameKey_neq in K. destruct H as [<-|H]; [left; split; [now left | exact K]|].
      destruct (IH Nrest H) as [[I D]|[(g0 & I & E & M)|[F M]]].
      * left. split; [now right | exact D].
      * right. left. exists g0. repeat split; [now right | exact E | exact M].
      * right. right. split; [|exact M].
        intros g0 [<-|I]; [exact K | now apply F].
Qed.

Lemma grouped_snoc docs x : grouped (docs ++ [x]) = add x (grouped docs).
Proof. now rewrite fold_left_app. Qed.

Lemma existsb_sameKey k keys :
  existsb (fun k' => Collection.sameKey k' k) keys = true <-> In k keys.
Proof.
  rewrite existsb_exists. split.
  - intros (k' & I & E). apply sameKey_eq in E. now subst.
  - intros I. exists k. split; [exact I | apply sameKey_refl].
Qed.

Lemma grouped_spec docs :
  NoDup (map rowKey (grouped docs))
  /\ (forall g, In g (grouped docs) -> Summary docs g)
  /\ (forall d, In d docs -> In (keyOf d) (map rowKey (grouped docs)))
  /\ (forall g, In g (grouped docs) -> In (rowKey g) (map keyOf docs)).
Proof.
  induction docs as [|x docs IH] using rev_ind.
  - cbn. repeat split; try constructor; intros ? [].
  - destruct IH as (N & S & C & B). rewrite grouped_snoc.
    assert (Absent : existsb (fun k => Collection.sameKey k (keyOf x))
                       (map rowKey (grouped docs)) = false ->
                     forall d, In d docs -> keyOf d <> keyOf x).
    { intros E d I K. apply C in I. rewrite K in I.
      apply existsb_sameKey in I. congruence. }
    split; [|split; [|split]].
    + rewrite add_keys.
      destruct (existsb _ _) eqn:E; [exact N|].
      apply NoDup_app; [exact N | repeat constructor; intros [] |].
      intros k I [<-|[]]. apply existsb_sameKey in I. congruence.
    + intros g' I.
      destruct (add_rows x (grouped docs) g' N I) as [[I' D]|[(g & I' & E & ->)|[F ->]]].
      * apply other_ok; [now apply S | exact D].
      * apply merge_ok; [now apply S | exact E].
      * apply fresh_ok. intros d Id K. apply C in Id.
        apply in_map_iff in Id as (g & Eg & Ig). apply (F g Ig). congruence.
    + intros d I. rewrite add_keys. apply in_app_or in I as [I|[<-|[]]].
      * destruct (existsb _ _); [now apply C | apply in_or_app; left; now apply C].
      * destruct (existsb _ _) eqn:E; [now apply existsb_sameKey|].
        apply in_or_app. right. now left.
    + intros g' I. rewrite map_app. apply in_or_app.
      destruct (add_rows x (grouped docs) g' N I) as [[I' D]|[(g & I' & E & ->)|[F ->]]].
      * left. now apply B.
      * rewrite merge_key. left. now apply B.
      * rewrite fresh_key. right. now left.
Qed.

End Grouping.

(* ------------------------------------------------------------------ *)
(** ** [getPopularPrompts] *)

Lemma sumZ_app a b :
  Collection.sumZ (a ++ b) = (Collection.sumZ a + Collection.sumZ b)%Z.
Proof. induction a as [|x a IH]; cbn; [reflexivity|]. fold (Collection.sumZ (a ++ b)). fold (Collection.sumZ a). lia. Qed.

Lemma filter_none {A} (f : A -> bool) l :
  (forall x, In x l -> f x = false) -> filter f l = [].
Proof.
  induction l as [|x r IH]; cbn; intros H; [reflexivity|].
  rewrite (H x) by now left. apply IH. intros y I. apply H. now right.
Qed.

Lemma promptedAs_snoc k docs x :
  Collection.promptedAs k (docs ++ [x]) =
  (Collection.promptedAs k docs
   ++ if Collection.sameKey k (normalizedPrompt x) then [x] else [])%list.
Proof. unfold Collection.promptedAs. rewrite filter_app. reflexivity. Qed.

Lemma mostUsedFirst_total a b :
  Collection.mostUsedFirst a b = false -> Collection.mostUsedFirst b a = true.
Proof.
  unfold Collection.mostUsedFirst. intros H.
  apply orb_false_iff in H as [H1 H2]. apply Z.ltb_ge in H1.
  destruct (Z.eqb_spec (Collection.count a) (Collection.count b)) as [E|E].
  - cbn in H2. apply Z.leb_gt in H2. rewrite E, Z.eqb_refl, Z.ltb_irrefl. cbn.
    apply Z.leb_le. lia.
  - replace (Collection.count a <? Collection.count b)%Z with true; [reflexivity|].
    symmetry. apply Z.ltb_lt. lia.
Qed.

Lemma Sorted_weaken {A} (R S : A -> A -> Prop) l :
  (forall a b, R a b -> S a b) -> Sorted R l -> Sorted S l.
Proof.
  intros W. induction 1 as [|a l _ IH H]; constructor; [exact IH|].
  destruct H; constructor. now apply W.
Qed.

Lemma groupPrompts_spec docs :
  NoDup (map Collection.normalized (Collection.groupPrompts docs))
  /\ (forall g, In g (Collection.groupPrompts docs) -> Collection.summarises docs g)
  /\ (forall d, In d docs ->
        In (normalizedPrompt d) (map Collection.normalized (Collection.groupPrompts docs)))
  /\ (forall g, In g (Collection.groupPrompts docs) ->
        In (Collection.normalized g) (map normalizedPrompt docs)).
Proof.
  unfold Collection.groupPrompts.
  apply (grouped_spec normalizedPrompt Collection.normalized
           (fun r => Collection.mkPromptRow (normalizedPrompt r) (usageCount r)
                       (addRating None r) (lastUsed r) (prompt r))
           (fun g r => Collection.mkPromptRow (Collection.normalized g)
                         (Collection.count g + usageCount r)
                         (addRating (Collection.averageRating g) r)
                         (Z.max (Collection.lastUsedMax g) (lastUsed r))
                         (Collection.originalPrompt g))
           Collection.addPrompt); try reflexivity.
  - intros ds x Absent. unfold Collection.summarises.
    cbn [Collection.normalized Collection.count Collection.averageRating
         Collection.originalPrompt Collection.lastUsedMax].
    rewrite promptedAs_snoc, sameKey_refl.
    unfold Collection.promptedAs. rewrite filter_none.
    2:{ intros d I. apply sameKey_neq. intros E. now apply (Absent d I). }
    cbn. repeat split; try discriminate; try lia.
    + intros r [<-|[]]. lia.
    + exists x. split; [now left | reflexivity].
  - intros ds g x (Ne & C & Av & O & Le & (r0 & I0 & E0)) K.
    unfold Collection.summarises.
    cbn [Collection.normalized Collection.count Collection.averageRating
         Collection.originalPrompt Collection.lastUsedMax].
    rewrite promptedAs_snoc, K, sameKey_refl. rewrite <- K.
    split; [|split; [|split; [|split; [|split]]]].
    + intros E. apply app_eq_nil in E as [E _]. contradiction.
    + rewrite map_app, sumZ_app, C. cbn. lia.
    + rewrite fold_left_app, <- Av. reflexivity.
    + destruct (Collection.promptedAs (Collection.normalized g) ds); [contradiction|exact O].
    + intros r I. apply in_app_or in I as [I|[<-|[]]]; [specialize (Le r I)|]; lia.
    + destruct (Z.max_spec (Collection.lastUsedMax g) (lastUsed x)) as [[_ M]|[_ M]].
      * exists x. split; [apply in_or_app; right; now left | now rewrite M].
      * exists r0. split; [apply in_or_app; now left | now rewrite M].
  - intros ds g x S K. unfold Collection.summarises in *.
    rewrite promptedAs_snoc. apply sameKey_neq in K. rewrite K, app_nil_r. exact S.
Qed.

Lemma popularRows_spec (docs : list AIRequest) (limit : nat) :
  let rows := Collection.popularRows docs limit in
  (List.length rows <= limit)%nat
  /\ NoDup (map Collection.normalized rows)
  /\ (forall g, In g rows -> Collection.summarises docs g)
  /\ Sorted (fun a b =>
               (Collection.count b <= Collection.count a)%Z
               /\ (Collection.count a = Collection.count b ->
                   (Collection.lastUsedMax b <= Collection.lastUsedMax a)%Z)) rows
  /\ (List.length rows = limit
      \/ forall r, In r docs -> In (normalizedPrompt r) (map Collection.normalized rows)).
Proof.
  intros rows. subst rows. unfold Collection.popularRows.
  destruct (groupPrompts_spec docs) as (N & S & C & _).
  set (sorted := sortWith Collection.mostUsedFirst (Collection.groupPrompts docs)).
  assert (P : Permutation sorted (Collection.groupPrompts docs))
    by apply sortWith_permutation.
  split; [|split; [|split; [|split]]].
  - rewrite length_firstn. lia.
  - rewrite <- firstn_map.
    assert (Ns : NoDup (map Collection.normalized sorted)).
    { eapply Permutation_NoDup; [symmetry; apply Permutation_map, P | exact N]. }
    rewrite <- (firstn_skipn limit (map Collection.normalized sorted)) in Ns.
    now apply NoDup_app_remove_r in Ns.
  - intros g I. apply S. apply (Permutation_in _ P). now apply in_firstn in I.
  - apply Sorted_firstn.
    apply (Sorted_weaken (fun a b => Collection.mostUsedFirst a b = true));
      [|apply sortWith_sorted, mostUsedFirst_total].
    intros a b H. unfold Collection.mostUsedFirst in H.
    apply orb_prop in H as [H|H]; [apply Z.ltb_lt in H; lia|].
    apply andb_prop in H as [H1 H2]. apply Z.eqb_eq in H1. apply Z.leb_le in H2. lia.
  - destruct (Nat.le_gt_cases limit (List.length sorted)) as [L|L].
    + left. rewrite length_firstn. lia.
    + right. intros r I. rewrite firstn_all2 by lia.
      apply (Permutation_in _ (Permutation_sym (Permutation_map _ P))). now apply C.
Qed.

Lemma Permutation_promptedAs k a b :
  Permutation a b -> Permutation (Collection.promptedAs k a) (Collection.promptedAs k b).
Proof.
  unfold Collection.promptedAs.
  induction 1 as [|x a b _ IH|x y a|a b c' _ IH1 _ IH2]; cbn.
  - constructor.
  - destruct (Collection.sameKey _ _); [now constructor | exact IH].
  - destruct (Collection.sameKey k (normalizedPrompt x)),
             (Collection.sameKey k (normalizedPrompt y));
      try apply Permutation_refl. apply perm_swap.
  - now transitivity (filter (fun r => Collection.sameKey k (normalizedPrompt r)) b).
Qed.

Lemma Permutation_sumZ a b :
  Permutation a b -> Collection.sumZ a = Collection.sumZ b.
Proof.
  induction 1 as [|x a b _ IH|x y a|a b c' _ IH1 _ IH2]; cbn.
  - reflexivity.
  - fold (Collection.sumZ a). fold (Collection.sumZ b). lia.
  - fold (Collection.sumZ a). lia.
  - congruence.
Qed.

(** X9. The rows of [getPopularPrompts(limit)], for every order in which the
    [$match] stage may deliver the successful requests ([delivered] is any
    arrangement of them; the pipeline sorts only after its [$group]).
    There are at most [limit] rows and no two are of the same normalised
    prompt.  Each row summarises the successful requests of its prompt: at
    least one exists, [count] is the sum of their [usageCount]s,
    [averageRating] the average of the ratings given and [lastUsed] the
    latest of their [lastUsed]s, whatever the order of delivery;
    [originalPrompt] is the prompt of one of them, namely of the first that
    was delivered, so which one it is depends on that order.  The rows
    come by falling [count], rows of one [count] by falling [lastUsed].
    When fewer than [limit] rows come back, every successful request has
    its row.  [getPopularPrompts] of the model is the case where the
    requests are delivered in the order of the list. *)
Theorem popular_prompts_summarise (c : list Collection.Entry)
    (delivered : list AIRequest) (limit : nat) :
  Permutation delivered (Collection.successes c) ->
  let docs := Collection.successes c in
  let rows := Collection.popularRows delivered limit in
  (List.length rows <= limit)%nat
  /\ NoDup (map Collection.normalized rows)
  /\ (forall g, In g rows ->
        Collection.summarises delivered g
        /\ Collection.count g
           = Collection.sumZ (map usageCount
                                (Collection.promptedAs (Collection.normalized g) docs))
        /\ In (Collection.originalPrompt g)
              (map prompt (Collection.promptedAs (Collection.normalized g) docs))
        /\ (forall r, In r (Collection.promptedAs (Collection.normalized g) docs) ->
              (lastUsed r <= Collection.lastUsedMax g)%Z)
        /\ (exists r, In r (Collection.promptedAs (Collection.normalized g) docs)
                      /\ lastUsed r = Collection.lastUsedMax g))
  /\ Sorted (fun a b =>
               (Collection.count b <= Collection.count a)%Z
               /\ (Collection.count a = Collection.count b ->
                   (Collection.lastUsedMax b <= Collection.lastUsedMax a)%Z)) rows
  /\ (List.length rows = limit
      \/ forall r, In r docs -> In (normalizedPrompt r) (map Collection.normalized rows))
  /\ Collection.getPopularPrompts c limit = Collection.popularRows docs limit.
Proof.
  intros D docs rows.
  destruct (popularRows_spec delivered limit) as (L & N & S & O & A).
  fold rows in L, N, S, O, A.
  split; [exact L|]. split; [exact N|]. split; [|split; [exact O|split]].
  - intros g I. specialize (S g I). split; [exact S|].
    destruct S as (Ne & C & _ & F & Le & (r0 & I0 & E0)).
    pose proof (Permutation_promptedAs (Collection.normalized g) _ _ D) as P.
    fold docs in P.
    split; [|split; [|split]].
    + rewrite C. apply Permutation_sumZ, Permutation_map, P.
    + destruct (Collection.promptedAs (Collection.normalized g) delivered)
        as [|first others] eqn:E; [discriminate F|].
      cbn in F. injection F as <-. apply in_map.
      apply (Permutation_in _ P). now left.
    + intros r I'. apply Le. apply (Permutation_in _ (Permutation_sym P)), I'.
    + exists r0. split; [apply (Permutation_in _ P), I0 | exact E0].
  - destruct A as [A|A]; [now left|right].
    intros r I. apply A. apply (Permutation_in _ (Permutation_sym D)), I.
  - reflexivity.
Qed.

Lemma popular_prompts_summarise_witness :
  let c := sampleCollection in
  let delivered := rev (Collection.successes c) in
  let rows := Collection.popularRows delivered 10 in
  (List.length rows <= 10)%nat
  /\ NoDup (map Collection.normalized rows)
  /\ (forall g, In g rows -> Collection.summarises delivered g)
  /\ map Collection.originalPrompt rows
     <> map Collection.originalPrompt (Collection.getPopularPrompts c 10).
Proof.
  intros c delivered rows.
  assert (D : Permutation delivered (Collection.successes c))
    by apply Permutation_sym, Permutation_rev.
  pose proof (popular_prompts_summarise c delivered 10 D) as (L & N & S & _).
  split; [exact L|]. split; [exact N|]. split; [intros g I; now apply S|].
  vm_compute. discriminate.
Defined.

(* ------------------------------------------------------------------ *)
(** ** [getMoodGenreAnalytics] *)

Lemma tagged_snoc k xs x :
  Collection.tagged k (xs ++ [x]) =
  (Collection.tagged k xs ++ if Collection.sameKey k (fst x) then [x] else [])%list.
Proof. unfold Collection.tagged. rewrite filter_app. reflexivity. Qed.

Lemma addTag_total x rows :
  list_sum (map Collection.occurrences (Collection.addTag x rows))
  = S (list_sum (map Collection.occurrences rows)).
Proof.
  induction rows as [|g rest IH]; [reflexivity|].
  cbn [Collection.addTag]. destruct (Collection.sameKey _ _); [reflexivity|].
  cbn [map]. change (list_sum (?a :: ?l)) with (a + list_sum l)%nat.
  rewrite IH. lia.
Qed.

Lemma tags_total xs :
  list_sum (map Collection.occurrences
              (fold_left (fun rows x => Collection.addTag x rows) xs []))
  = List.length xs.
Proof.
  induction xs as [|x xs IH] using rev_ind; [reflexivity|].
  rewrite fold_left_app, length_app. cbn [fold_left].
  rewrite addTag_total, IH. cbn [List.length]. lia.
Qed.

Lemma list_sum_permutation a b : Permutation a b -> list_sum a = list_sum b.
Proof.
  induction 1; change (list_sum (?a :: ?l)) with (a + list_sum l)%nat in *;
    try change (list_sum (?a :: ?l)) with (a + list_sum l)%nat; lia.
Qed.

Lemma mostFrequentFirst_total a b :
  Collection.mostFrequentFirst a b = false -> Collection.mostFrequentFirst b a = true.
Proof.
  unfold Collection.mostFrequentFirst. intros H.
  apply Nat.leb_gt in H. apply Nat.leb_le. lia.
Qed.

Lemma tags_spec xs :
  let rows := fold_left (fun rows x => Collection.addTag x rows) xs [] in
  NoDup (map Collection.tag rows)
  /\ (forall g, In g rows -> Collection.tallies xs g)
  /\ (forall x, In x xs -> In (fst x) (map Collection.tag rows))
  /\ (forall g, In g rows -> In (Collection.tag g) (map fst xs)).
Proof.
  apply (grouped_spec (@fst (option string) AIRequest) Collection.tag
           (fun x => Collection.mkTagRow (fst x) 1 (addRating None (snd x)))
           (fun g x => Collection.mkTagRow (Collection.tag g)
                         (S (Collection.occurrences g))
                         (addRating (Collection.tagRating g) (snd x)))
           Collection.addTag); try reflexivity.
  - intros ds x Absent. unfold Collection.tallies.
    cbn [Collection.tag Collection.occurrences Collection.tagRating].
    rewrite tagged_snoc, sameKey_refl.
    unfold Collection.tagged. rewrite filter_none.
    2:{ intros d I. apply sameKey_neq. intros E. now apply (Absent d I). }
    cbn. repeat split; lia.
  - intros ds g x (O & P & Av) K. unfold Collection.tallies.
    cbn [Collection.tag Collection.occurrences Collection.tagRating].
    rewrite tagged_snoc, K, sameKey_refl. rewrite <- K.
    rewrite length_app, map_app, fold_left_app, <- Av, <- O. cbn.
    repeat split; lia.
  - intros ds g x S K. unfold Collection.tallies in *.
    rewrite tagged_snoc. apply sameKey_neq in K. rewrite K, app_nil_r. exact S.
Qed.

Lemma unwound_elements (field : AIRequest -> list (option string)) docs t :
  In t (map fst (Collection.unwind field docs)) <->
  exists r, In r docs /\ In t (field r).
Proof.
  unfold Collection.unwind. rewrite in_map_iff. split.
  - intros ([t' r] & <- & I). apply in_flat_map in I as (r' & I & J).
    apply in_map_iff in J as (t'' & E & J). inversion E; subst. now exists r.
  - intros (r & I & J). exists (t, r). split; [reflexivity|].
    apply in_flat_map. exists r. split; [exact I|]. apply in_map_iff. now exists t.
Qed.

Lemma tag_rows_of (field : AIRequest -> list (option string)) (c : list Collection.Entry) :
  NoDup (map Collection.tag (Collection.tagAnalytics field c))
  /\ (forall t, In t (map Collection.tag (Collection.tagAnalytics field c)) <->
                exists r, In r (Collection.successes c) /\ In t (field r)).
Proof.
  unfold Collection.tagAnalytics. fold (Collection.successes c).
  set (xs := Collection.unwind field (Collection.successes c)).
  destruct (tags_spec xs) as (N & S & C & B).
  set (groups := fold_left (fun rows x => Collection.addTag x rows) xs []) in *.
  assert (P : Permutation (sortWith Collection.mostFrequentFirst groups) groups)
    by apply sortWith_permutation.
  split.
  - eapply Permutation_NoDup; [symmetry; apply Permutation_map, P | exact N].
  - intros t. rewrite <- (unwound_elements field). fold xs. split.
    + intros I. apply (Permutation_in _ (Permutation_map _ P)) in I.
      apply in_map_iff in I as (g & <- & I). now apply B.
    + intros I. apply (Permutation_in _ (Permutation_sym (Permutation_map _ P))).
      apply in_map_iff in I as (x & <- & I). now apply C.
Qed.

(** X10. The rows of the mood analytics and of the genre analytics.  No two
    rows are of the same element; every element of the array of a
    successful request has its row, and every row is of such an element;
    a row counts the occurrences of its element (at least one) and
    averages the ratings of the requests they are in; the counts of the
    rows add up to the number of elements of all the arrays; and the rows
    come by falling count. *)
Theorem tag_analytics_tally (field : AIRequest -> list (option string))
    (c : list Collection.Entry) :
  let xs := Collection.unwind field (Collection.successes c) in
  let rows := Collection.tagAnalytics field c in
  NoDup (map Collection.tag rows)
  /\ (forall g, In g rows -> Collection.tallies xs g)
  /\ (forall t, In t (map Collection.tag rows) <->
                exists r, In r (Collection.successes c) /\ In t (field r))
  /\ list_sum (map Collection.occurrences rows)
     = list_sum (map (fun r => List.length (field r)) (Collection.successes c))
  /\ Sorted (fun a b => (Collection.occurrences b <= Collection.occurrences a)%nat) rows.
Proof.
  intros xs rows. subst rows.
  destruct (tag_rows_of field c) as (Nr & Tr).
  split; [exact Nr|]. split; [|split; [exact Tr|]].
  all: unfold Collection.tagAnalytics; fold (Collection.successes c); fold xs.
  all: destruct (tags_spec xs) as (N & S & C & B).
  all: set (groups := fold_left (fun rows x => Collection.addTag x rows) xs []) in *.
  all: assert (P : Permutation (sortWith Collection.mostFrequentFirst groups) groups)
         by apply sortWith_permutation.
  - intros g I. apply S. now apply (Permutation_in _ P).
  - split.
    + rewrite (list_sum_permutation _ _ (Permutation_map _ P)).
      unfold groups. rewrite tags_total. unfold xs, Collection.unwind.
      rewrite flat_map_concat_map, length_concat, map_map.
      f_equal. apply map_ext. intros r. now rewrite length_map.
    + apply (Sorted_weaken (fun a b => Collection.mostFrequentFirst a b = true));
        [|apply sortWith_sorted, mostFrequentFirst_total].
      intros a b H. now apply Nat.leb_le in H.
Qed.

Lemma NoDup_incl_bound {A} (l allowed : list A) :
  NoDup l -> incl l allowed -> (List.length l <= List.length allowed)%nat.
Proof. apply NoDup_incl_length. Qed.

Lemma enumValidator_in vals t :
  enumValidator vals t = true -> In t (None :: map Some vals).
Proof.
  destruct t as [s|]; cbn; [|now left]. intros H. right.
  apply existsb_exists in H as (v & I & E). apply String.eqb_eq in E. subst.
  now apply in_map.
Qed.

(** X11. When the stored requests hold listed moods and genres only (as those
    written by [generatePlaylist] do), the mood analytics have at most 13
    rows, one for each of the 12 moods and one for [null], the genre
    analytics at most 15, and no row is of an unlisted word. *)
Theorem analytics_rows_are_listed (c : list Collection.Entry) :
  (forall e, In e c -> vocabularyOnly (Collection.doc e) = true) ->
  (forall g, In g (Collection.moodAnalytics c) ->
     enumValidator moodEnum (Collection.tag g) = true)
  /\ (forall g, In g (Collection.genreAnalytics c) ->
        enumValidator genreEnum (Collection.tag g) = true)
  /\ (List.length (Collection.moodAnalytics c) <= 13)%nat
  /\ (List.length (Collection.genreAnalytics c) <= 15)%nat.
Proof.
  intros V.
  destruct (tag_rows_of extractedMoods c) as (Nm & Tm).
  destruct (tag_rows_of extractedGenres c) as (Ng & Tg).
  assert (Lm : forall t, In t (map Collection.tag (Collection.moodAnalytics c)) ->
                         enumValidator moodEnum t = true).
  { intros t I. apply Tm in I as (r & I & J).
    apply in_map_iff in I as (e & <- & I). apply filter_In in I as [I _].
    specialize (V e I). apply andb_prop in V as [V _].
    rewrite forallb_forall in V. now apply V. }
  assert (Lg : forall t, In t (map Collection.tag (Collection.genreAnalytics c)) ->
                         enumValidator genreEnum t = true).
  { intros t I. apply Tg in I as (r & I & J).
    apply in_map_iff in I as (e & <- & I). apply filter_In in I as [I _].
    specialize (V e I). apply andb_prop in V as [_ V].
    rewrite forallb_forall in V. now apply V. }
  split; [|split; [|split]].
  - intros g I. apply Lm. now apply in_map.
  - intros g I. apply Lg. now apply in_map.
  - rewrite <- (length_map Collection.tag).
    apply (NoDup_incl_bound _ (None :: map Some moodEnum) Nm).
    intros t I. now apply enumValidator_in, Lm.
  - rewrite <- (length_map Collection.tag).
    apply (NoDup_incl_bound _ (None :: map Some genreEnum) Ng).
    intros t I. now apply enumValidator_in, Lg.
Qed.

Lemma analytics_rows_are_listed_witness :
  map Collection.tag (Collection.moodAnalytics sampleCollection)
  = [Some "calm"%string; Some "sad"%string; Some "energetic"%string]
  /\ (forall g, In g (Collection.moodAnalytics sampleCollection) ->
        enumValidator moodEnum (Collection.tag g) = true)
  /\ (List.length (Collection.genreAnalytics sampleCollection) <= 15)%nat.
Proof.
  split; [vm_compute; reflexivity|].
  assert (V : forall e, In e sampleCollection -> vocabularyOnly (Collection.doc e) = true).
  { intros e I. repeat (destruct I as [<-|I]; [vm_compute; reflexivity|]). destruct I. }
  split.
  - exact (proj1 (analytics_rows_are_listed sampleCollection V)).
  - exact (proj2 (proj2 (proj2 (analytics_rows_are_listed sampleCollection V)))).
Defined.

(* ------------------------------------------------------------------ *)
(** ** Averages of ratings ([$avg: '$satisfaction.rating']) *)

Lemma rated_app a b :
  Collection.rated (a ++ b) = (Collection.rated a ++ Collection.rated b)%list.
Proof. unfold Collection.rated. now rewrite flat_map_app. Qed.

Lemma average_from (docs : list AIRequest) (av : Average) :
  fold_left addRating docs (Some av)
  = Some (mkAverage (total av + Collection.sumZ (map rating (Collection.rated docs)))
                    (over av + List.length (Collection.rated docs))).
Proof.
  revert av. induction docs as [|r docs IH]; intros av.
  - cbn. destruct av. cbn. f_equal. f_equal; lia.
  - cbn [fold_left]. unfold addRating at 2. unfold Collection.rated. cbn [flat_map].
    fold (Collection.rated docs).
    destruct (satisfaction r) as [s|]; rewrite IH; unfold Collection.sumZ;
      cbn; f_equal; f_equal; lia.
Qed.

Lemma average_is_mean (docs : list AIRequest) :
  fold_left addRating docs None
  = match Collection.rated docs with
    | [] => None
    | rs => Some (mkAverage (Collection.sumZ (map rating rs)) (List.length rs))
    end.
Proof.
  induction docs as [|r docs IH]; [reflexivity|].
  cbn [fold_left]. unfold addRating at 2. unfold Collection.rated. cbn [flat_map].
  fold (Collection.rated docs).
  destruct (satisfaction r) as [s|]; [|exact IH].
  rewrite average_from. reflexivity.
Qed.

Lemma ratings_bound (docs : list AIRequest) :
  (forall r, In r docs -> ratingInRange r = true) ->
  (Z.of_nat (List.length (Collection.rated docs))
   <= Collection.sumZ (map rating (Collection.rated docs))
   <= 5 * Z.of_nat (List.length (Collection.rated docs)))%Z.
Proof.
  induction docs as [|r docs IH]; intros V; [cbn; lia|].
  change (r :: docs) with ([r] ++ docs)%list.
  rewrite rated_app, map_app, sumZ_app, length_app, Nat2Z.inj_add.
  specialize (IH (fun x I => V x (or_intror I))).
  pose proof (V r (or_introl eq_refl)) as R. unfold ratingInRange in R.
  set (n := List.length (Collection.rated docs)) in *.
  set (t := Collection.sumZ (map rating (Collection.rated docs))) in *.
  unfold Collection.rated. cbn [flat_map].
  destruct (satisfaction r) as [s|]; cbn -[Z.mul Z.of_nat]; [|lia].
  apply andb_prop in R as [R1 R2]. apply Z.leb_le in R1. apply Z.leb_le in R2. lia.
Qed.

Lemma average_range (docs : list AIRequest) :
  (forall r, In r docs -> ratingInRange r = true) ->
  averageInRange (fold_left addRating docs None).
Proof.
  intros V. rewrite average_is_mean. pose proof (ratings_bound docs V) as B.
  destruct (Collection.rated docs) as [|s rs] eqn:E; [exact Logic.I|].
  cbn [averageInRange total over]. split; [cbn; lia | exact B].
Qed.

Lemma successes_in c r :
  In r (Collection.successes c) -> exists e, In e c /\ Collection.doc e = r.
Proof.
  intros I. apply in_map_iff in I as (e & E & I). apply filter_In in I as [I _].
  now exists e.
Qed.

(** X12. Every average rating that [GET /api/ai/analytics] reports (of a
    popular prompt, of a mood, of a genre, of the user) is [null] or the
    average of at least one rating and lies from 1 to 5, when the stored
    ratings do (the schema and the validation chain refuse others). *)
Theorem analytics_averages_in_range (c : list Collection.Entry) (userId : nat) :
  (forall e, In e c -> ratingInRange (Collection.doc e) = true) ->
  let a := Collection.getAIAnalytics c userId in
  averageInRange (Collection.userRating (Collection.ofUser a))
  /\ (forall g, In g (Collection.popularPrompts a) ->
        averageInRange (Collection.averageRating g))
  /\ (forall g, In g (Collection.moods a) -> averageInRange (Collection.tagRating g))
  /\ (forall g, In g (Collection.genres a) -> averageInRange (Collection.tagRating g)).
Proof.
  intros V a. subst a. cbn [Collection.getAIAnalytics Collection.ofUser
                            Collection.popularPrompts Collection.moods Collection.genres].
  assert (Vs : forall r, In r (Collection.successes c) -> ratingInRange r = true).
  { intros r I. apply successes_in in I as (e & I & <-). now apply V. }
  assert (Tags : forall field g, In g (Collection.tagAnalytics field c) ->
                                 averageInRange (Collection.tagRating g)).
  { intros field g I. unfold Collection.tagAnalytics in I.
    apply (Permutation_in _ (sortWith_permutation _ _)) in I.
    fold (Collection.successes c) in I.
    apply (proj1 (proj2 (tags_spec _))) in I as (_ & _ & ->).
    apply average_range. intros r J. apply in_map_iff in J as ([t r'] & <- & J).
    apply filter_In in J as [J _]. unfold Collection.unwind in J.
    apply in_flat_map in J as (r0 & J0 & J). apply in_map_iff in J as (t0 & E & _).
    inversion E; subst. now apply Vs. }
  split; [|split; [|split]].
  - unfold Collection.userStats. cbn [Collection.userRating].
    apply average_range. intros r I. apply in_map_iff in I as (e & <- & I).
    apply filter_In in I as [I _]. now apply V.
  - intros g I. unfold Collection.getPopularPrompts in I.
    apply in_firstn in I. apply (Permutation_in _ (sortWith_permutation _ _)) in I.
    fold (Collection.successes c) in I.
    apply (proj1 (proj2 (groupPrompts_spec _))) in I as (_ & _ & -> & _).
    apply average_range. intros r J. apply filter_In in J as [J _]. now apply Vs.
  - apply Tags.
  - apply Tags.
Qed.

Lemma analytics_averages_in_range_witness :
  Collection.userRating (Collection.ofUser (Collection.getAIAnalytics sampleCollection 7))
  = Some (mkAverage 4 1)
  /\ averageInRange
       (Collection.userRating (Collection.ofUser (Collection.getAIAnalytics sampleCollection 7)))
  /\ (forall g, In g (Collection.popularPrompts (Collection.getAIAnalytics sampleCollection 7)) ->
        averageInRange (Collection.averageRating g)).
Proof.
  split; [vm_compute; reflexivity|].
  assert (V : forall e, In e sampleCollection -> ratingInRange (Collection.doc e) = true).
  { intros e I. repeat (destruct I as [<-|I]; [vm_compute; reflexivity|]). destruct I. }
  split.
  - exact (proj1 (analytics_averages_in_range sampleCollection 7 V)).
  - exact (proj1 (proj2 (analytics_averages_in_range sampleCollection 7 V))).
Defined.

(* ------------------------------------------------------------------ *)
(** ** The counters of the user and the recent successes ([getAIAnalytics]) *)

Lemma filter_length_le {A} (f : A -> bool) l :
  (List.length (filter f l) <= List.length l)%nat.
Proof. induction l as [|x r IH]; cbn; [lia|]. destruct (f x); cbn; lia. Qed.

Lemma filter_length_mono {A} (f g : A -> bool) l :
  (forall x, f x = true -> g x = true) ->
  (List.length (filter f l) <= List.length (filter g l))%nat.
Proof.
  intros H. induction l as [|x r IH]; cbn; [lia|].
  destruct (f x) eqn:F; [rewrite (H x F); cbn; lia|].
  destruct (g x); cbn; lia.
Qed.

Lemma list_sum_bound {A} (f : A -> nat) (b : nat) l :
  (forall x, In x l -> (f x <= b)%nat) ->
  (list_sum (map f l) <= b * List.length l)%nat.
Proof.
  induction l as [|x r IH]; intros H; [cbn; lia|].
  cbn [map List.length]. change (list_sum (?a :: ?l)) with (a + list_sum l)%nat.
  specialize (IH (fun y I => H y (or_intror I))).
  pose proof (H x (or_introl eq_refl)). lia.
Qed.

(** X13. The counters of a user in the analytics, when no stored request has
    more than 20 tracks (as none written by [generatePlaylist] has).
    [totalRequests] is the number of the user's requests, whatever their
    state; [successfulRequests] is at most that, and at least the number
    of the user's requests that are successful in the sense of the model
    (completed with at least one track), since it counts the completed
    ones; [totalTracksGenerated] is at most 20 for each request; and
    requests of other users count for nothing. *)
Theorem user_stats_bounds (c : list Collection.Entry) (userId : nat) :
  (forall e, In e c -> (List.length (generatedTracks (Collection.doc e)) <= 20)%nat) ->
  let s := Collection.userStats c userId in
  let mine := map Collection.doc (filter (Collection.ownedBy userId) c) in
  Collection.totalRequests s = List.length mine
  /\ (List.length (filter isSuccessful mine) <= Collection.successfulRequests s)%nat
  /\ (Collection.successfulRequests s <= Collection.totalRequests s)%nat
  /\ (Collection.totalTracksGenerated s <= 20 * Collection.totalRequests s)%nat
  /\ (forall others,
        (forall e, In e others -> user (Collection.doc e) <> userId) ->
        Collection.userStats (c ++ others) userId = s).
Proof.
  intros B s mine. subst s. unfold Collection.userStats. fold mine.
  cbn [Collection.totalRequests Collection.successfulRequests
       Collection.totalTracksGenerated].
  split; [reflexivity|]. split; [|split; [|split]].
  - apply filter_length_mono. intros r H. unfold isSuccessful in H.
    now apply andb_prop in H as [H _].
  - apply filter_length_le.
  - apply list_sum_bound. intros r I. unfold mine in I.
    apply in_map_iff in I as (e & <- & I). apply filter_In in I as [I _]. now apply B.
  - intros others O. rewrite filter_app.
    rewrite (filter_none _ others), app_nil_r; [reflexivity|].
    intros e I. apply Nat.eqb_neq. now apply O.
Qed.

Lemma user_stats_bounds_witness :
  Collection.userStats sampleCollection 7
  = Collection.mkUserStats 3 2 (Some (mkAverage 4 1)) 3
  /\ (Collection.successfulRequests (Collection.userStats sampleCollection 7)
      <= Collection.totalRequests (Collection.userStats sampleCollection 7))%nat
  /\ (Collection.totalTracksGenerated (Collection.userStats sampleCollection 7)
      <= 20 * Collection.totalRequests (Collection.userStats sampleCollection 7))%nat.
Proof.
  split; [vm_compute; reflexivity|].
  assert (B : forall e, In e sampleCollection ->
                        (List.length (generatedTracks (Collection.doc e)) <= 20)%nat).
  { intros e I. repeat (destruct I as [<-|I]; [cbn; lia|]). destruct I. }
  pose proof (user_stats_bounds sampleCollection 7 B) as (_ & _ & S & T & _).
  split; [exact S | exact T].
Defined.

Lemma succeeded_isSuccessful e :
  Collection.succeeded e = isSuccessful (Collection.doc e).
Proof.
  unfold Collection.succeeded, isSuccessful.
  now destruct (generatedTracks (Collection.doc e)).
Qed.

(** X14. The recent successes shown by the analytics are at most 10 requests,
    each completed with at least one track, ordered from the newest to the
    oldest, and no successful request left out is newer than one shown.
    They, the popular prompts and the mood and genre rows are drawn from
    the requests of all users: they are the same whoever asks. *)
Theorem recent_successful_newest (c : list Collection.Entry) (userId : nat) :
  let shown := Collection.recentSuccessful (Collection.getAIAnalytics c userId) in
  (List.length shown <= 10)%nat
  /\ (forall e, In e shown -> In e c /\ isSuccessful (Collection.doc e) = true)
  /\ Sorted (fun a b => (Collection.createdAt b <= Collection.createdAt a)%Z) shown
  /\ (forall e x, In e shown -> In x c -> isSuccessful (Collection.doc x) = true ->
        In x shown \/ (Collection.createdAt x <= Collection.createdAt e)%Z)
  /\ (forall other,
        let a := Collection.getAIAnalytics c userId in
        let b := Collection.getAIAnalytics c other in
        Collection.recentSuccessful a = Collection.recentSuccessful b
        /\ Collection.popularPrompts a = Collection.popularPrompts b
        /\ Collection.moods a = Collection.moods b
        /\ Collection.genres a = Collection.genres b).
Proof.
  intros shown. subst shown.
  cbn [Collection.getAIAnalytics Collection.recentSuccessful Collection.popularPrompts
       Collection.moods Collection.genres].
  unfold Collection.getSuccessfulRequests.
  set (all := sortWith Collection.newestFirst (filter Collection.succeeded c)).
  assert (P : Permutation all (filter Collection.succeeded c))
    by apply sortWith_permutation.
  assert (S : StronglySorted
                (fun a b => (Collection.createdAt b <= Collection.createdAt a)%Z) all).
  { apply Sorted_StronglySorted; [intros x y z; lia|].
    apply (Sorted_weaken (fun a b => Collection.newestFirst a b = true));
      [|apply sortWith_sorted, newestFirst_total].
    intros a b H. now apply Z.leb_le in H. }
  rewrite firstn_firstn. cbn [Nat.min].
  split; [|split; [|split; [|split]]].
  - rewrite length_firstn. lia.
  - intros e I. apply in_firstn in I. apply (Permutation_in _ P) in I.
    apply filter_In in I as [I H]. split; [exact I|]. now rewrite <- succeeded_isSuccessful.
  - apply Sorted_firstn. now apply StronglySorted_Sorted.
  - intros e x Ie Ix Hx.
    assert (Ia : In x all).
    { apply (Permutation_in _ (Permutation_sym P)). apply filter_In.
      split; [exact Ix|]. now rewrite succeeded_isSuccessful. }
    rewrite <- (firstn_skipn 10 all) in Ia, S.
    apply in_app_or in Ia as [Ia|Ia]; [now left|]. right.
    clear - S Ie Ia. induction (firstn 10 all) as [|y l IH]; [destruct Ie|].
    cbn in S. inversion S as [|? ? Sl Hy]; subst. destruct Ie as [->|Ie].
    + rewrite Forall_forall in Hy. apply Hy. apply in_or_app. now right.
    + now apply IH.
  - intros other. repeat split.
Qed.

(* ------------------------------------------------------------------ *)
(** ** [aiRateLimit] *)

Lemma retryAfter_range (timeDiff : Z) :
  (0 <= timeDiff < oneHour)%Z ->
  (1 <= Collection.ceilDiv (oneHour - timeDiff) (1000 * 60) <= 60)%Z.
Proof.
  intros H. assert (O : oneHour = 3600000%Z) by reflexivity.
  set (x := (oneHour - timeDiff)%Z). assert (X : (0 < x <= 3600000)%Z) by (unfold x; lia).
  clearbody x. split.
  - pose proof (ceilDiv_covers x (1000 * 60) ltac:(lia) ltac:(lia)) as [C0 C1].
    destruct (Z.le_gt_cases 1 (Collection.ceilDiv x (1000 * 60))) as [L|L]; [exact L|].
    assert (Z0 : Collection.ceilDiv x (1000 * 60) = 0%Z) by lia.
    rewrite Z0 in C1. lia.
  - apply ceilDiv_least; lia.
Qed.

(** X15. One call of the limiter on a user object that it has counted on
    before, not later than now, with a count from 1 to 10.  Within the
    hour after [lastAIRequest] the call goes on when the count is below 10,
    adding one to it and keeping [lastAIRequest]; at 10 it answers 429 with
    [retryAfter] from 1 to 60 minutes and leaves the object as it is.  From
    one hour on the call goes on and the count starts again at 1 from now.
    The count stays from 1 to 10.  A user object without [lastAIRequest]
    always goes on. *)
Theorem rate_limit_call (now : Z) (s : RateState) :
  (lastAIRequest s <= now)%Z ->
  (1 <= aiRequestCount s <= 10)%Z ->
  let v := fst (aiRateLimit now (Some s)) in
  let after := snd (aiRateLimit now (Some s)) in
  (exists s', after = Some s' /\ (1 <= aiRequestCount s' <= 10)%Z
              /\ (lastAIRequest s' <= now)%Z)
  /\ ((now - lastAIRequest s < oneHour)%Z -> (aiRequestCount s < 10)%Z ->
      v = CallsNext
      /\ after = Some (mkRateState (lastAIRequest s) (aiRequestCount s + 1)))
  /\ ((now - lastAIRequest s < oneHour)%Z -> aiRequestCount s = 10%Z ->
      after = Some s
      /\ exists minutes, v = TooManyRequests minutes /\ (1 <= minutes <= 60)%Z)
  /\ ((oneHour <= now - lastAIRequest s)%Z ->
      v = CallsNext /\ after = Some (mkRateState now 1))
  /\ (forall t, fst (aiRateLimit t None) = CallsNext).
Proof.
  intros L C v after. subst v after. unfold aiRateLimit.
  destruct (Z.ltb_spec (now - lastAIRequest s) oneHour) as [W|W];
    destruct (Z.leb_spec 10 (aiRequestCount s)) as [T|T]; cbn [fst snd].
  - split; [exists s; repeat split; lia|].
    split; [intros; exfalso; lia|].
    split; [|split; [intros; exfalso; lia | reflexivity]].
    intros _ _. split; [reflexivity|]. eexists. split; [reflexivity|].
    apply retryAfter_range. lia.
  - split; [eexists; split; [reflexivity|]; cbn; lia|].
    split; [now split|].
    split; [intros; exfalso; lia|]. split; [intros; exfalso; lia | reflexivity].
  - split; [eexists; split; [reflexivity|]; cbn; lia|].
    split; [intros; exfalso; lia|]. split; [intros; exfalso; lia|].
    split; [now split | reflexivity].
  - split; [eexists; split; [reflexivity|]; cbn; lia|].
    split; [intros; exfalso; lia|]. split; [intros; exfalso; lia|].
    split; [now split | reflexivity].
Qed.

Lemma rate_limit_call_witness :
  let s := mkRateState 1000 10 in
  snd (aiRateLimit 61000 (Some s)) = Some s
  /\ (exists minutes, fst (aiRateLimit 61000 (Some s)) = TooManyRequests minutes
                      /\ (1 <= minutes <= 60)%Z)
  /\ fst (aiRateLimit 61000 (Some s)) = TooManyRequests 59.
Proof.
  intros s.
  assert (L : (lastAIRequest s <= 61000)%Z) by (cbn; lia).
  assert (C : (1 <= aiRequestCount s <= 10)%Z) by (cbn; lia).
  pose proof (rate_limit_call 61000 s L C) as (_ & _ & R & _).
  destruct R as [A B]; [vm_compute; reflexivity | reflexivity|].
  split; [exact A|]. split; [exact B | vm_compute; reflexivity].
Defined.


(* ------------------------------------------------------------------ *)
(** ** Markdown fences around the answer ([cleanedText]) *)

Lemma stripFences_plain (s t : string) :
  noBackquote s = true ->
  stripFences 0 (s ++ t) = (s ++ stripFences 0 t)%string.
Proof.
  induction s as [|c r IH]; intros N; [reflexivity|].
  cbn [noBackquote allChars] in N. apply andb_prop in N as [Nc Nr].
  apply negb_true_iff in Nc.
  cbn [String.append stripFences].
  assert (F : fenceLength (String c (r ++ t)) = 0%nat).
  { unfold fenceLength. cbn [JSON.stripPrefix]. now rewrite Nc. }
  rewrite F. now rewrite (IH Nr).
Qed.

Lemma append_empty (s : string) : (s ++ "")%string = s.
Proof. induction s as [|c r IH]; cbn; [reflexivity | now rewrite IH]. Qed.

Lemma trimEnd_newline (s : string) :
  JS.trimEnd (s ++ String JSON.LF "") = JS.trimEnd s.
Proof.
  induction s as [|c r IH]; [reflexivity|].
  cbn [String.append JS.trimEnd]. now rewrite IH.
Qed.

Lemma trim_newline (s : string) : JS.trim (s ++ String JSON.LF "") = JS.trim s.
Proof.
  unfold JS.trim.
  assert (H : JS.trimStart (s ++ String JSON.LF "")
              = (JS.trimStart s ++ String JSON.LF "")%string
              \/ (JS.trimStart s = EmptyString
                  /\ JS.trimStart (s ++ String JSON.LF "") = EmptyString)).
  { induction s as [|c r IH]; [right; split; reflexivity|].
    cbn [String.append JS.trimStart]. destruct (JS.isWhiteSpace c); [exact IH|].
    left. reflexivity. }
  destruct H as [->|[-> ->]]; [apply trimEnd_newline | reflexivity].
Qed.

(** X17. An answer without backquotes is read the same bare, inside a
    [```json] fence and inside a plain [```] fence: what is handed to
    [JSON.parse] is the trimmed answer in the three cases, so the three
    parse alike or fail alike. *)
Theorem fences_are_stripped (body : string) :
  noBackquote body = true ->
  cleanText body = JS.trim body
  /\ cleanText (fenced "```json" body) = JS.trim body
  /\ cleanText (fenced "```" body) = JS.trim body
  /\ parseGeminiResponse (fenced "```json" body) = parseGeminiResponse body
  /\ parseGeminiResponse (fenced "```" body) = parseGeminiResponse body.
Proof.
  intros N.
  assert (Bare : cleanText body = JS.trim body).
  { unfold cleanText. rewrite <- (append_empty body) at 1.
    rewrite (stripFences_plain body "" N). cbn [stripFences]. now rewrite append_empty. }
  assert (Inside : stripFences 0 (body ++ String JSON.LF "```")
                   = (body ++ String JSON.LF "")%string).
  { now rewrite (stripFences_plain body _ N). }
  assert (Json : cleanText (fenced "```json" body) = JS.trim body).
  { unfold cleanText, fenced.
    change (stripFences 0 ("```json" ++ String JSON.LF body ++ String JSON.LF "```"))
      with (stripFences 0 (body ++ String JSON.LF "```")).
    rewrite Inside. apply trim_newline. }
  assert (Plain : cleanText (fenced "```" body) = JS.trim body).
  { unfold cleanText, fenced.
    change (stripFences 0 ("```" ++ String JSON.LF body ++ String JSON.LF "```"))
      with (stripFences 0 (body ++ String JSON.LF "```")).
    rewrite Inside. apply trim_newline. }
  repeat split; trivial; unfold parseGeminiResponse; now rewrite ?Json, ?Plain, Bare.
Qed.

Lemma fences_are_stripped_witness :
  cleanText (fenced "```json" (JSON.lit "{ 'moods': ['calm'] }"))
  = JSON.lit "{ 'moods': ['calm'] }"
  /\ parseGeminiResponse (fenced "```json" (JSON.lit "{ 'moods': ['calm'] }"))
     = parseGeminiResponse (JSON.lit "{ 'moods': ['calm'] }").
Proof.
  assert (N : noBackquote (JSON.lit "{ 'moods': ['calm'] }") = true)
    by (vm_compute; reflexivity).
  pose proof (fences_are_stripped (JSON.lit "{ 'moods': ['calm'] }") N)
    as (_ & J & _ & P & _).
  split; [rewrite J; vm_compute; reflexivity | exact P].
Defined.

(* ------------------------------------------------------------------ *)
(** ** The normal form of a prompt is its words *)

Lemma inWord_table (c : ascii) :
  let d := JS.toLowerChar c in
  let e := if JS.isWordChar d || JS.isWhiteSpace d then d else " "%char in
  (if inWord c
   then Ascii.eqb e d && negb (JS.isWhiteSpace e)
   else JS.isWhiteSpace e && negb (isLowerWordChar c)) = true
  /\ Ascii.eqb (JS.toLowerChar d) d = true
  /\ implb (JS.isWhiteSpace c) (negb (inWord c)) = true.
Proof. each_char c; repeat split; reflexivity. Qed.

Lemma replaced_cons (c : ascii) (r : string) :
  JS.replaceNonWordNonSpace (JS.toLowerCase (String c r))
  = String (let d := JS.toLowerChar c in
            if JS.isWordChar d || JS.isWhiteSpace d then d else " "%char)
           (JS.replaceNonWordNonSpace (JS.toLowerCase r)).
Proof. reflexivity. Qed.

Lemma concat_word (w : string) (ws : list string) :
  String.concat " " (w :: ws) = (w ++ afterWord ws)%string.
Proof. destruct ws; cbn; [now rewrite append_empty | reflexivity]. Qed.

Lemma wordRuns_cons (s : string) : exists h tl, wordRuns s = h :: tl.
Proof.
  destruct s as [|c r]; cbn; [now eexists _, _|].
  destruct (inWord c); [|now eexists _, _].
  destruct (wordRuns r); now eexists _, _.
Qed.

Lemma afterWord_empty (ws : list string) :
  (afterWord ws =? "")%string = match ws with [] => true | _ => false end.
Proof. now destruct ws. Qed.

Lemma concat_nonEmpty (ws : list string) :
  (forall w, In w ws -> nonEmpty w = true) ->
  (String.concat " " ws =? "")%string = match ws with [] => true | _ => false end.
Proof.
  destruct ws as [|w tl]; intros H; [reflexivity|].
  rewrite concat_word. specialize (H w (or_introl eq_refl)).
  unfold nonEmpty in H. destruct w; [discriminate | reflexivity].
Qed.

Lemma wordsOf_nonEmpty (s : string) w : In w (wordsOf s) -> nonEmpty w = true.
Proof. intros I. now apply filter_In in I as [_ I]. Qed.

Lemma trimmed_runs (s : string) :
  let u := JS.replaceNonWordNonSpace (JS.toLowerCase s) in
  JS.trimEnd (JS.collapseRuns true u) = String.concat " " (wordsOf s)
  /\ JS.trimEnd (JS.collapseRuns false u)
     = match wordRuns s with
       | h :: tl => (h ++ afterWord (filter nonEmpty tl))%string
       | [] => EmptyString
       end.
Proof.
  induction s as [|c r [IH1 IH2]]; [split; reflexivity|].
  cbv zeta. rewrite replaced_cons. cbn [JS.collapseRuns].
  destruct (inWord_table c) as (T & _). cbv zeta in T.
  set (e := if JS.isWordChar (JS.toLowerChar c) || JS.isWhiteSpace (JS.toLowerChar c)
            then JS.toLowerChar c else " "%char) in *.
  unfold wordsOf. cbn [wordRuns].
  destruct (inWord c) eqn:W.
  - apply andb_prop in T as [E N]. apply Ascii.eqb_eq in E. apply negb_true_iff in N.
    rewrite N, E, !trimEnd_word by (now rewrite <- E).
    destruct (wordRuns_cons r) as (h & tl & R). rewrite R in *.
    cbn [filter nonEmpty String.eqb negb]. rewrite concat_word, IH2. split; reflexivity.
  - apply andb_prop in T as [N _]. rewrite N.
    cbn [filter nonEmpty String.eqb negb]. split; [exact IH1|].
    rewrite trimEnd_space. cbv zeta in IH1. rewrite IH1.
    rewrite (concat_nonEmpty _ (wordsOf_nonEmpty r)). fold (wordsOf r).
    now destruct (wordsOf r).
Qed.

Lemma trimStart_collapsed (s : string) :
  let u := JS.replaceNonWordNonSpace (JS.toLowerCase s) in
  JS.trimStart (JS.collapseRuns false u) = JS.collapseRuns true u.
Proof.
  cbv zeta.
  assert (Fixed : forall v, allChars wordOrWhiteSpace v = true ->
                            JS.trimStart (JS.collapseRuns true v) = JS.collapseRuns true v).
  { intros v A. destruct (collapse_spaced v A true) as [S N].
    apply trimStart_fixed; [exact S | now apply N]. }
  destruct s as [|c r]; [reflexivity|].
  rewrite replaced_cons. cbn [JS.collapseRuns].
  destruct (JS.isWhiteSpace _) eqn:W.
  - cbn [JS.trimStart]. change (JS.isWhiteSpace " ") with true. cbv iota.
    apply Fixed, replaced_chars.
  - cbn [JS.trimStart]. now rewrite W.
Qed.

Lemma normalize_words (s : string) : normalize s = String.concat " " (wordsOf s).
Proof.
  unfold normalize, JS.trim, JS.replaceWhiteSpaceRuns.
  rewrite trimStart_collapsed. apply trimmed_runs.
Qed.

Lemma wordsOf_none (s : string) :
  wordsOf s = [] <-> allChars (fun c => negb (inWord c)) s = true.
Proof.
  unfold wordsOf. induction s as [|c r IH]; [split; reflexivity|].
  cbn [wordRuns allChars]. destruct (inWord c) eqn:W; cbn [negb andb].
  - split; [|discriminate]. destruct (wordRuns r); discriminate.
  - cbn [filter nonEmpty String.eqb negb]. exact IH.
Qed.

Lemma wordRuns_lower (s : string) : wordRuns (JS.toLowerCase s) = wordRuns s.
Proof.
  unfold JS.toLowerCase. induction s as [|c r IH]; [reflexivity|].
  cbn [JS.mapChars wordRuns]. rewrite IH.
  destruct (inWord_table c) as (_ & L & _). apply Ascii.eqb_eq in L.
  unfold inWord. now rewrite L.
Qed.

Lemma wordsOf_trimStart (s : string) : wordsOf (JS.trimStart s) = wordsOf s.
Proof.
  induction s as [|c r IH]; [reflexivity|].
  cbn [JS.trimStart]. destruct (JS.isWhiteSpace c) eqn:W; [|reflexivity].
  rewrite IH. unfold wordsOf. cbn [wordRuns].
  destruct (inWord_table c) as (_ & _ & I). rewrite W in I. cbn in I.
  apply negb_true_iff in I. now rewrite I.
Qed.

Lemma wordRuns_trimEnd (s : string) :
  match wordRuns (JS.trimEnd s), wordRuns s with
  | h :: tl, h' :: tl' => h = h' /\ filter nonEmpty tl = filter nonEmpty tl'
  | _, _ => False
  end.
Proof.
  induction s as [|c r IH]; [split; reflexivity|].
  cbn [JS.trimEnd]. cbv zeta.
  destruct (wordRuns_cons (JS.trimEnd r)) as (h & tl & E).
  destruct (wordRuns_cons r) as (h' & tl' & E').
  rewrite E, E' in IH. destruct IH as [<- F].
  destruct (JS.isWhiteSpace c && (JS.trimEnd r =? "")%string) eqn:B.
  - apply andb_prop in B as [W Z]. apply String.eqb_eq in Z. rewrite Z in E.
    cbn in E. injection E as <- <-.
    destruct (inWord_table c) as (_ & _ & I). rewrite W in I. cbn in I.
    apply negb_true_iff in I. cbn [wordRuns]. rewrite I, E'.
    cbn [filter nonEmpty String.eqb negb]. split; [reflexivity | exact F].
  - cbn [wordRuns]. rewrite E, E'. destruct (inWord c).
    + split; [reflexivity | exact F].
    + split; [reflexivity|]. cbn [filter]. now rewrite F.
Qed.

Lemma wordsOf_trimEnd (s : string) : wordsOf (JS.trimEnd s) = wordsOf s.
Proof.
  unfold wordsOf. pose proof (wordRuns_trimEnd s) as H.
  destruct (wordRuns (JS.trimEnd s)) as [|h tl]; [destruct H|].
  destruct (wordRuns s) as [|h' tl']; [destruct H|].
  destruct H as [<- F]. cbn [filter]. now rewrite F.
Qed.

(** X18. For every prompt whose code units are all below U+0100 (the
    strings of the model), the normal form is its words, in lower case,
    with one space between two of them.  So two such prompts with the same
    words have the same normal form, whatever their case, their
    punctuation and their white space; in particular the normal form
    ignores the case of the prompt and the white space around it.  It is
    empty exactly when the prompt has no letter a-z or A-Z, digit or
    underscore. *)
Theorem normal_form_is_the_words (s : string) :
  normalize s = String.concat " " (wordsOf s)
  /\ (forall t, wordsOf t = wordsOf s -> normalize t = normalize s)
  /\ normalize (JS.toLowerCase s) = normalize s
  /\ normalize (JS.trim s) = normalize s
  /\ (normalize s = EmptyString <-> allChars (fun c => negb (inWord c)) s = true).
Proof.
  split; [apply normalize_words|]. split; [|split; [|split]].
  - intros t E. now rewrite !normalize_words, E.
  - rewrite !normalize_words. unfold wordsOf. now rewrite wordRuns_lower.
  - rewrite !normalize_words. unfold JS.trim.
    now rewrite wordsOf_trimEnd, wordsOf_trimStart.
  - rewrite <- wordsOf_none, normalize_words.
    pose proof (concat_nonEmpty _ (wordsOf_nonEmpty s)) as C.
    destruct (wordsOf s) as [|w tl].
    + split; reflexivity.
    + split; [|discriminate]. intros E. rewrite E in C. discriminate.
Qed.

(* ------------------------------------------------------------------ *)
(** ** The recorded processing time *)

Section TryInvariant.

Variable env : Env.
Variable I : World -> Prop.

Hypothesis keeps_save : preserves I save.
Hypothesis keeps_completed :
  preserves I (update (setStatus (completedAt env) completed EmptyString)).
Hypothesis keeps_failed : forall msg,
  preserves I (update (setStatus (failedAt env) failed msg)).
Hypothesis keeps_moods : forall raw,
  preserves I (update (assignStrings env PExtractedMoods lower set_extractedMoods raw)).
Hypothesis keeps_genres : forall raw,
  preserves I (update (assignStrings env PExtractedGenres lower set_extractedGenres raw)).
Hypothesis keeps_keywords : forall raw,
  preserves I (update (assignStrings env PExtractedKeywords lowerTrim set_extractedKeywords raw)).
Hypothesis keeps_geminiResponse : forall v,
  preserves I (update (withFields (set_geminiResponse v) PGeminiResponse)).
Hypothesis keeps_generatedTracks : forall v,
  preserves I (update (withFields (set_generatedTracks v) PGeneratedTracks)).
Hypothesis keeps_generatedPlaylist : forall v,
  preserves I (update (withFields (set_generatedPlaylist v) PGeneratedPlaylist)).

(** An invariant that the steps of the [try] and of the [catch] preserve,
    with the two transitions as the handler makes them, holds after them. *)
Lemma try_invariant (req : GenerateRequest) :
  preserves I
    (tryCatch (attempt env req)
       (fun aiError =>
          updateStatus (failedAt env) failed (message aiError) ;;
          ret (ServerError "Failed to generate AI playlist"))).
Proof.
  apply preserves_tryCatch.
  - unfold attempt.
    apply preserves_bind;
      [destruct (generateContent env); auto using preserves_ret, preserves_throw|].
    intros text. apply preserves_bind;
      [unfold parseGeminiResponse; destruct (JSON.parse _);
       auto using preserves_ret, preserves_throw|].
    intros geminiData.
    do 3 (apply preserves_bind; [apply preserves_getProperty | intros]).
    apply preserves_bind; [apply keeps_moods|intros _].
    apply preserves_bind; [apply keeps_genres|intros _].
    apply preserves_bind; [apply keeps_keywords|intros _].
    apply preserves_bind; [apply keeps_geminiResponse|intros _].
    apply preserves_bind; [apply keeps_save|intros _].
    apply preserves_bind; [apply preserves_buildSearchCriteria|intros q].
    apply preserves_bind; [apply keeps_generatedTracks|intros _].
    apply preserves_bind;
      [unfold updateStatus; apply preserves_bind;
       [apply keeps_completed | intros _; apply keeps_save]|intros _].
    apply preserves_bind; [|intros; apply preserves_ret].
    destruct (_ && _); [|apply preserves_ret].
    destruct (createPlaylist env _); [apply preserves_throw|].
    apply preserves_bind; [apply keeps_generatedPlaylist|intros _].
    apply preserves_bind; [apply keeps_save | intros; apply preserves_ret].
  - intros e. apply preserves_bind; [|intros; apply preserves_ret].
    unfold updateStatus. apply preserves_bind; [apply keeps_failed | intros _; apply keeps_save].
Qed.

End TryInvariant.

Lemma timing_save env : preserves (timingInv env) save.
Proof.
  intros [d stored] (Ts & Td & St). unfold save. cbn [this persisted] in *.
  destruct (preSave_keeps d) as (Es & _).
  assert (Et : processingTime (fields (preSave d)) = processingTime (fields d)
               /\ processingStartTime (preSave d) = processingStartTime d).
  { unfold preSave. destruct (isModified PPrompt d); split; reflexivity. }
  destruct Et as [Et Ep].
  destruct (validate d); cbn [snd]; unfold timingInv, timed in *;
    cbn [this persisted fields processingStartTime].
  - rewrite Es, Et, Ep. split; [|now split].
    intros r E. injection E as <-. now rewrite Es, Et.
  - split; [exact Ts | now split].
Qed.

Lemma timing_withFields env (f : AIRequest -> AIRequest) (q : Path) :
  (forall r, status (f r) = status r /\ processingTime (f r) = processingTime r) ->
  preserves (timingInv env) (update (withFields f q)).
Proof.
  intros F [d stored] (Ts & Td & St). destruct (F (fields d)) as (Es & Et).
  unfold update, timingInv, timed in *.
  cbn [snd this persisted withFields fields processingStartTime] in *.
  rewrite Es, Et. split; [exact Ts | now split].
Qed.

Lemma timing_assignStrings env env' q setter store raw :
  (forall v r, status (store v r) = status r /\ processingTime (store v r) = processingTime r) ->
  preserves (timingInv env) (update (assignStrings env' q setter store raw)).
Proof.
  intros F. unfold assignStrings. destruct (castArray env' setter raw) as [vs|].
  - apply timing_withFields. intros r. apply F.
  - intros [d stored] H. exact H.
Qed.

Lemma timing_settle env (now : Z) (st : Status) (msg : string) :
  processingAt env <> 0%Z ->
  (st = completed /\ now = completedAt env) \/ (st = failed /\ now = failedAt env) ->
  preserves (timingInv env) (update (setStatus now st msg)).
Proof.
  intros Nz Which [d stored] (Ts & Td & St).
  unfold update, timingInv in *. cbn [snd this persisted] in *.
  split; [exact Ts|].
  assert (Start : startTimeSet d = Some (processingAt env)).
  { unfold startTimeSet. rewrite St. apply Z.eqb_neq in Nz. now rewrite Nz. }
  unfold timed, setStatus.
  destruct Which as [[-> ->]|[-> ->]]; cbn [Status_eqb andb orb]; rewrite Start;
    destruct (JS.truthy msg); cbn; split; trivial.
Qed.

Lemma timing_begins (env : Env) (u : nat) (p : string) :
  let d := inProcess env u p in
  timingInv env (mkWorld (settled (fields d) (processingStartTime d)) (Some (fields d))).
Proof.
  cbv zeta.
  assert (E : status (fields (inProcess env u p)) = processing
              /\ processingTime (fields (inProcess env u p)) = 0%Z
              /\ processingStartTime (inProcess env u p) = Some (processingAt env)).
  { unfold inProcess, setStatus, created, newDocument. cbn. repeat split. }
  destruct E as (Es & Et & Ep).
  set (d := inProcess env u p) in *. clearbody d.
  unfold timingInv, timed. cbn [this persisted settled fields processingStartTime].
  rewrite Es, Et, Ep.
  split; [|now split]. intros r E. injection E as <-. now rewrite Es, Et.
Qed.

(** X19. The processing time stored for a request of [POST /api/ai/generate]
    that passes the validation chain, when the clock does not read 0 at the
    start of the attempt.  With a success answer it is the time from the
    start of the attempt to its completion; with the 500 answer, the time
    from the start of the attempt to the failure; and when the error goes
    to the error middleware, 0: the record is still in processing. *)
Theorem generate_records_elapsed (env : Env) (u : nat) (p : string)
    (nm : option string) (sv : option bool) :
  generateValidation p nm = [] ->
  processingAt env <> 0%Z ->
  exists w r,
    snd (postGenerate env u p nm sv) = Some w
    /\ persisted w = Some r
    /\ processingTime r =
       match fst (postGenerate env u p nm sv) with
       | Generated _ _ _ _ _ => (completedAt env - processingAt env)%Z
       | ServerError _ => (failedAt env - processingAt env)%Z
       | _ => 0%Z
       end.
Proof.
  intros V Nz.
  destruct (generate_leaves_record env u p nm sv V) as (w & r & Ew & Er & Es).
  exists w, r. split; [exact Ew|]. split; [exact Er|].
  assert (T : timingInv env w).
  { rewrite (postGenerate_valid env u p nm sv V) in Ew.
    assert (P : preserves (timingInv env)
                  (tryCatch
                     (attempt env (mkGenerateRequest [] u (JS.trim p)
                                     (option_map JS.trim nm) sv))
                     (fun aiError =>
                        updateStatus (failedAt env) failed (message aiError) ;;
                        ret (ServerError "Failed to generate AI playlist")))).
    { apply try_invariant; intros;
        try (apply timing_assignStrings; intros; split; reflexivity);
        try (apply timing_withFields; intros; split; reflexivity).
      - apply timing_save.
      - apply timing_settle; [exact Nz | left; now split].
      - apply timing_settle; [exact Nz | right; now split]. }
    specialize (P _ (timing_begins env u p)).
    cbv zeta in Ew. destruct (tryCatch _ _ _) as [[e|response] w']; cbn [fst snd] in *;
      injection Ew as <-; exact P. }
  destruct T as (Ts & _). specialize (Ts r Er). unfold timed in Ts.
  rewrite Ts, Es. now destruct (fst (postGenerate env u p nm sv)).
Qed.

Lemma generate_records_elapsed_witness :
  exists w r,
    snd (postGenerate (sampleEnv (Responds fencedResponse)) 1
           "relaxing summer sunset" None None) = Some w
    /\ persisted w = Some r
    /\ processingTime r =
       match fst (postGenerate (sampleEnv (Responds fencedResponse)) 1
                    "relaxing summer sunset" None None) with
       | Generated _ _ _ _ _ =>
           (completedAt (sampleEnv (Responds fencedResponse))
            - processingAt (sampleEnv (Responds fencedResponse)))%Z
       | ServerError _ =>
           (failedAt (sampleEnv (Responds fencedResponse))
            - processingAt (sampleEnv (Responds fencedResponse)))%Z
       | _ => 0%Z
       end.
Proof.
  apply (generate_records_elapsed (sampleEnv (Responds fencedResponse)) 1
           "relaxing summer sunset" None None).
  - vm_compute. reflexivity.
  - vm_compute. discriminate.
Defined.

(* ------------------------------------------------------------------ *)
(** ** Repeated tracks in a generated playlist *)

Lemma NoDup_map_filter {A B} (f : A -> B) (p : A -> bool) l :
  NoDup (map f l) -> NoDup (map f (filter p l)).
Proof.
  induction l as [|x r IH]; cbn; intros N; [constructor|].
  inversion N as [|? ? Nx Nr]; subst. destruct (p x); cbn; [|now apply IH].
  constructor; [|now apply IH]. intros I. apply Nx.
  apply in_map_iff in I as (y & E & I). apply filter_In in I as [I _].
  rewrite <- E. now apply in_map.
Qed.

Lemma find_NoDup tracks q order n :
  NoDup (map trackId tracks) -> NoDup (map trackId (find tracks q order n)).
Proof.
  intros N. unfold find. rewrite <- firstn_map.
  assert (S : NoDup (map trackId (sortBy order (filter (matches q) tracks)))).
  { eapply Permutation_NoDup;
      [symmetry; apply Permutation_map, sortBy_permutation|].
    now apply NoDup_map_filter. }
  rewrite <- (firstn_skipn n (map trackId _)) in S.
  now apply NoDup_app_remove_r in S.
Qed.

Lemma count_occ_firstn (n : nat) (l : list nat) (i : nat) :
  (count_occ Nat.eq_dec (firstn n l) i <= count_occ Nat.eq_dec l i)%nat.
Proof.
  rewrite <- (firstn_skipn n l) at 2. rewrite count_occ_app. lia.
Qed.

(** X20. A generated playlist holds no track more than twice, when the ids
    of the catalog are distinct.  A track is there twice only when the
    search found fewer than 10 tracks and the track is one of them and
    also one of the popular tracks added behind them; when the search
    found 10 tracks or more, no track is repeated. *)
Theorem generated_tracks_repeat (env : Env) (q : SearchCriteria) :
  NoDup (map trackId (catalog env)) ->
  let out := map trackId (shuffledTracks env q) in
  let primary := find (catalog env) q byPopularityThenPlays 50 in
  let fallback := find (catalog env) activeOnly byPopularity (20 - List.length primary) in
  (forall i, (count_occ Nat.eq_dec out i <= 2)%nat)
  /\ (forall i, count_occ Nat.eq_dec out i = 2%nat ->
        (List.length primary < 10)%nat
        /\ In i (map trackId primary) /\ In i (map trackId fallback))
  /\ ((10 <= List.length primary)%nat -> NoDup out).
Proof.
  intros N out primary fallback.
  assert (Np : forall i, (count_occ Nat.eq_dec (map trackId primary) i <= 1)%nat)
    by (apply NoDup_count_occ, find_NoDup, N).
  assert (Nf : forall i, (count_occ Nat.eq_dec (map trackId fallback) i <= 1)%nat)
    by (apply NoDup_count_occ, find_NoDup, N).
  assert (Pool : forall i,
             (count_occ Nat.eq_dec out i
              <= count_occ Nat.eq_dec (map trackId (candidatePool env q)) i)%nat).
  { intros i. unfold out, shuffledTracks. rewrite <- firstn_map.
    etransitivity; [apply count_occ_firstn|]. apply Nat.eq_le_incl.
    apply Permutation_count_occ, Permutation_map, shuffle_permutation. }
  assert (Split : forall i,
             count_occ Nat.eq_dec (map trackId (candidatePool env q)) i
             = if (List.length primary <? 10)%nat
               then (count_occ Nat.eq_dec (map trackId primary) i
                     + count_occ Nat.eq_dec (map trackId fallback) i)%nat
               else count_occ Nat.eq_dec (map trackId primary) i).
  { intros i. unfold candidatePool. fold primary. fold fallback.
    destruct (List.length primary <? 10)%nat; [|reflexivity].
    now rewrite map_app, count_occ_app. }
  split; [|split].
  - intros i. specialize (Pool i). rewrite Split in Pool.
    specialize (Np i). specialize (Nf i).
    destruct (List.length primary <? 10)%nat; lia.
  - intros i Two. specialize (Pool i). rewrite Split, Two in Pool.
    specialize (Np i). specialize (Nf i).
    destruct (Nat.ltb_spec (List.length primary) 10) as [L|L]; [|lia].
    split; [exact L|]. split; apply (count_occ_In Nat.eq_dec); lia.
  - intros L. apply (NoDup_count_occ Nat.eq_dec). intros i.
    specialize (Pool i). rewrite Split in Pool.
    apply Nat.ltb_ge in L. rewrite L in Pool. specialize (Np i). lia.
Qed.

Lemma generated_tracks_repeat_witness :
  let env := sampleEnv (Responds fencedResponse) in
  let q := mkSearchCriteria true (Some [MoodIn [Some "relaxing"%string]]) in
  map trackId (shuffledTracks env q) = [1; 1; 2]%nat
  /\ forall i, (count_occ Nat.eq_dec (map trackId (shuffledTracks env q)) i <= 2)%nat.
Proof.
  intros env q. split; [vm_compute; reflexivity|].
  apply (generated_tracks_repeat env q).
  vm_compute. repeat constructor; cbn; intuition discriminate.
Defined.

(* ------------------------------------------------------------------ *)
(** ** Stored keywords are tidy *)

Lemma lower_space_table (c : ascii) :
  Bool.eqb (JS.isWhiteSpace (JS.toLowerChar c)) (JS.isWhiteSpace c) = true
  /\ Ascii.eqb (JS.toLowerChar (JS.toLowerChar c)) (JS.toLowerChar c) = true.
Proof. each_char c; split; reflexivity. Qed.

Lemma toLowerCase_idempotent (s : string) :
  JS.toLowerCase (JS.toLowerCase s) = JS.toLowerCase s.
Proof.
  unfold JS.toLowerCase. induction s as [|c r IH]; [reflexivity|].
  cbn [JS.mapChars]. rewrite IH.
  destruct (lower_space_table c) as [_ E]. apply Ascii.eqb_eq in E. now rewrite E.
Qed.

Lemma toLowerCase_trimStart (s : string) :
  JS.trimStart (JS.toLowerCase s) = JS.toLowerCase (JS.trimStart s).
Proof.
  unfold JS.toLowerCase. induction s as [|c r IH]; [reflexivity|].
  cbn [JS.mapChars JS.trimStart].
  destruct (lower_space_table c) as [E _]. apply Bool.eqb_prop in E. rewrite E.
  destruct (JS.isWhiteSpace c); [exact IH | reflexivity].
Qed.

Lemma toLowerCase_empty (s : string) :
  (JS.toLowerCase s =? "")%string = (s =? "")%string.
Proof. now destruct s. Qed.

Lemma toLowerCase_trimEnd (s : string) :
  JS.trimEnd (JS.toLowerCase s) = JS.toLowerCase (JS.trimEnd s).
Proof.
  induction s as [|c r IH]; [reflexivity|].
  change (JS.toLowerCase (String c r))
    with (String (JS.toLowerChar c) (JS.toLowerCase r)).
  cbn [JS.trimEnd]. cbv zeta. rewrite IH, toLowerCase_empty.
  destruct (lower_space_table c) as [E _]. apply Bool.eqb_prop in E. rewrite E.
  now destruct (JS.isWhiteSpace c && (JS.trimEnd r =? "")%string).
Qed.

Lemma lowerTrim_tidy (s : string) :
  JS.toLowerCase (lowerTrim s) = lowerTrim s /\ JS.trim (lowerTrim s) = lowerTrim s.
Proof.
  unfold lowerTrim. split; [|apply trim_idempotent].
  unfold JS.trim. rewrite <- toLowerCase_trimEnd, <- toLowerCase_trimStart.
  now rewrite toLowerCase_idempotent.
Qed.

Lemma castArray_set env setter raw vs :
  castArray env setter raw = Some vs ->
  forall k, In (Some k) vs -> exists s, k = setter s.
Proof.
  revert vs. induction raw as [|v r IH]; cbn [castArray]; intros vs E k I.
  - injection E as <-. destruct I.
  - destruct (castString env v) as [x|]; [|discriminate].
    destruct (castArray env setter r) as [xs|]; [|discriminate].
    injection E as <-. destruct I as [I|I]; [|now apply (IH xs)].
    destruct x as [s|]; [|discriminate]. injection I as <-. now exists s.
Qed.

Lemma tidy_save : preserves tidyInv save.
Proof.
  intros [d stored] (Is & Im). unfold save. cbn [this persisted] in *.
  assert (E : extractedKeywords (fields (preSave d)) = extractedKeywords (fields d)).
  { unfold preSave. now destruct (isModified PPrompt d). }
  destruct (validate d); cbn [snd]; unfold tidyInv, tidyKeywords in *;
    cbn [this persisted fields].
  - rewrite E. split; [|exact Im]. intros r Er. injection Er as <-. rewrite E. exact Im.
  - split; assumption.
Qed.

Lemma tidy_withFields (f : AIRequest -> AIRequest) (p : Path) :
  (forall r, extractedKeywords (f r) = extractedKeywords r) ->
  preserves tidyInv (update (withFields f p)).
Proof.
  intros F [d stored] (Is & Im). unfold update, tidyInv, tidyKeywords in *.
  cbn [snd this persisted withFields fields] in *.
  split; [exact Is|]. rewrite F. exact Im.
Qed.

Lemma tidy_setStatus now st msg : preserves tidyInv (update (setStatus now st msg)).
Proof.
  intros [d stored] (Is & Im). unfold update, tidyInv, tidyKeywords in *.
  cbn [snd this persisted] in *. split; [exact Is|].
  assert (E : extractedKeywords (fields (setStatus now st msg d))
              = extractedKeywords (fields d))
    by (unfold setStatus; split_cases).
  now rewrite E.
Qed.

Lemma tidy_assignStrings env p setter store raw :
  (forall v r, extractedKeywords (store v r) = extractedKeywords r) ->
  preserves tidyInv (update (assignStrings env p setter store raw)).
Proof.
  intros F. unfold assignStrings. destruct (castArray env setter raw) as [vs|].
  - apply tidy_withFields. intros r. apply F.
  - intros [d stored] H. exact H.
Qed.

Lemma tidy_keywords env raw :
  preserves tidyInv
    (update (assignStrings env PExtractedKeywords lowerTrim set_extractedKeywords raw)).
Proof.
  unfold assignStrings. destruct (castArray env lowerTrim raw) as [vs|] eqn:C.
  - intros [d stored] (Is & Im). unfold update, tidyInv, tidyKeywords in *.
    cbn [snd this persisted withFields fields set_extractedKeywords extractedKeywords] in *.
    split; [exact Is|]. intros k I.
    destruct (castArray_set env lowerTrim raw vs C k I) as (s & ->).
    apply lowerTrim_tidy.
  - intros [d stored] H. exact H.
Qed.

(** X21. The keywords stored for a request of [POST /api/ai/generate] are in
    lower case and have no white space around them, whatever the answer
    of the model holds. *)
Theorem stored_keywords_tidy (env : Env) (u : nat) (p : string)
    (nm : option string) (sv : option bool) :
  match snd (postGenerate env u p nm sv) with
  | Some w =>
      forall r k, persisted w = Some r -> In (Some k) (extractedKeywords r) ->
                  JS.toLowerCase k = k /\ JS.trim k = k
  | None => True
  end.
Proof.
  assert (H : match snd (postGenerate env u p nm sv) with
              | Some w => tidyInv w
              | None => True
              end).
  { unfold postGenerate. apply generatePlaylist_invariant;
      intros; try (apply tidy_assignStrings; reflexivity);
      try (apply tidy_withFields; reflexivity).
    - apply tidy_save.
    - apply tidy_setStatus.
    - apply tidy_keywords.
    - split; [discriminate | intros ? []]. }
  destruct (snd (postGenerate env u p nm sv)) as [w|]; [|exact Logic.I].
  intros r k Er. now apply (proj1 H r Er).
Qed.
